(** * Polymarket copy-trading bot: the CLOB client wrapper

    A shallow embedding of [src/python/src/utils/create_clob_client.py]:
    the wallet classifier [is_contract_wallet], the bridge transport
    [run_clob_bridge], the [ClobClient] wrapper with [get_order_book],
    [create_market_order] and [post_order], and the start-up routine
    [create_clob_client].

    Python values are embedded as data: [str] is a sequence of Unicode code
    points, [bytes] a sequence of octets, JSON-like values are the inductive
    [pyval].  The library calls the file relies on are embedded with it:
    [bytes.decode] and [str.encode] (UTF-8), [str.strip], [str.rstrip],
    truthiness, [dict.get], and [json.loads] with the three ways a call
    of it ends: a value, [JSONDecodeError], or an error the interpreter's
    limits make it raise.  Everything outside the process (the chain RPC,
    the file system, the spawned Node child, the environment, the logger,
    the interpreter's limits) is an explicit [World] argument, or an entry
    of the log that a computation returns.

    The file has two parts: the definitions, then the properties. *)

From Stdlib Require Import List Bool NArith ZArith String Ascii Lia.
From Stdlib Require Import Init.Byte.
Import ListNotations.

Set Implicit Arguments.

(** Lengths are lengths of lists throughout. *)
Abbreviation length := List.length.

(** ** Python text and octets *)

Module Py.

Local Open Scope N_scope.

(** A Python [str]: a sequence of code points (0 .. 0x10FFFF). *)
Definition str := list N.

(** A Python [bytes] object. *)
Definition bytes := list byte.

(** The code point of an ASCII character of a source literal. *)
Definition ch (a : ascii) : N := N_of_ascii a.

(** A [str] literal of the source (ASCII only). *)
Definition lit (s : string) : str := List.map ch (list_ascii_of_string s).

(** A [bytes] literal of the source, such as [b'0x']. *)
Definition blit (s : string) : bytes := list_byte_of_string s.

Fixpoint str_eqb (a b : str) : bool :=
  match a, b with
  | [], [] => true
  | x :: a', y :: b' => (x =? y) && str_eqb a' b'
  | _, _ => false
  end.

Fixpoint bytes_eqb (a b : bytes) : bool :=
  match a, b with
  | [], [] => true
  | x :: a', y :: b' => Byte.eqb x y && bytes_eqb a' b'
  | _, _ => false
  end.

(** [s.startswith(p)], returning what follows the prefix. *)
Fixpoint strip_prefix (p s : str) : option str :=
  match p, s with
  | [], _ => Some s
  | x :: p', y :: s' => if x =? y then strip_prefix p' s' else None
  | _ :: _, [] => None
  end.

(** *** [bytes.decode()]: strict UTF-8

    The default codec of [bytes.decode] is UTF-8 with [errors='strict']:
    over-long forms, surrogates, values above 0x10FFFF, stray continuation
    octets and truncated sequences raise [UnicodeDecodeError] ([None]
    here). *)

Definition is_cont (b : N) : bool := (0x80 <=? b) && (b <=? 0xBF).

Fixpoint utf8_decode (bs : bytes) : option str :=
  match bs with
  | [] => Some []
  | b0 :: t0 =>
    let n0 := Byte.to_N b0 in
    if n0 <=? 0x7F then option_map (cons n0) (utf8_decode t0)
    else if (0xC2 <=? n0) && (n0 <=? 0xDF) then
      match t0 with
      | b1 :: t1 =>
        let n1 := Byte.to_N b1 in
        if is_cont n1
        then option_map (cons ((n0 - 0xC0) * 64 + (n1 - 0x80))) (utf8_decode t1)
        else None
      | _ => None
      end
    else if (0xE0 <=? n0) && (n0 <=? 0xEF) then
      match t0 with
      | b1 :: b2 :: t2 =>
        let n1 := Byte.to_N b1 in
        let n2 := Byte.to_N b2 in
        let lo := if n0 =? 0xE0 then 0xA0 else 0x80 in
        let hi := if n0 =? 0xED then 0x9F else 0xBF in
        if (lo <=? n1) && (n1 <=? hi) && is_cont n2
        then option_map
               (cons ((n0 - 0xE0) * 4096 + (n1 - 0x80) * 64 + (n2 - 0x80)))
               (utf8_decode t2)
        else None
      | _ => None
      end
    else if (0xF0 <=? n0) && (n0 <=? 0xF4) then
      match t0 with
      | b1 :: b2 :: b3 :: t3 =>
        let n1 := Byte.to_N b1 in
        let n2 := Byte.to_N b2 in
        let n3 := Byte.to_N b3 in
        let lo := if n0 =? 0xF0 then 0x90 else 0x80 in
        let hi := if n0 =? 0xF4 then 0x8F else 0xBF in
        if (lo <=? n1) && (n1 <=? hi) && is_cont n2 && is_cont n3
        then option_map
               (cons ((n0 - 0xF0) * 262144 + (n1 - 0x80) * 4096
                      + (n2 - 0x80) * 64 + (n3 - 0x80)))
               (utf8_decode t3)
        else None
      | _ => None
      end
    else None
  end.

(** The reasons a [UnicodeDecodeError] of the codec gives. *)
Inductive utf8_reason : Type :=
| invalid_start_byte
| invalid_continuation_byte
| unexpected_end_of_data.

(** Where strict decoding stops: the positions of the octets it blames,
    from the first up to, not including, the second, and the reason, as
    [UnicodeDecodeError] holds them in [start], [end] and [reason];
    [None] when the octets are UTF-8 text.  [pos] is the position of the
    first octet of [bs]. *)

Fixpoint utf8_fault (pos : nat) (bs : bytes) : option (nat * nat * utf8_reason) :=
  match bs with
  | [] => None
  | b0 :: t0 =>
    let n0 := Byte.to_N b0 in
    if n0 <=? 0x7F then utf8_fault (S pos) t0
    else if n0 <? 0xC2 then Some (pos, S pos, invalid_start_byte)
    else if n0 <=? 0xDF then
      match t0 with
      | [] => Some (pos, S pos, unexpected_end_of_data)
      | b1 :: t1 =>
        if is_cont (Byte.to_N b1) then utf8_fault (S (S pos)) t1
        else Some (pos, S pos, invalid_continuation_byte)
      end
    else if n0 <=? 0xEF then
      match t0 with
      | [] => Some (pos, S pos, unexpected_end_of_data)
      | b1 :: t1 =>
        let n1 := Byte.to_N b1 in
        let lo := if n0 =? 0xE0 then 0xA0 else 0x80 in
        let hi := if n0 =? 0xED then 0x9F else 0xBF in
        if (lo <=? n1) && (n1 <=? hi) then
          match t1 with
          | [] => Some (pos, S (S pos), unexpected_end_of_data)
          | b2 :: t2 =>
            if is_cont (Byte.to_N b2) then utf8_fault (S (S (S pos))) t2
            else Some (pos, S (S pos), invalid_continuation_byte)
          end
        else Some (pos, S pos, invalid_continuation_byte)
      end
    else if n0 <=? 0xF4 then
      match t0 with
      | [] => Some (pos, S pos, unexpected_end_of_data)
      | b1 :: t1 =>
        let n1 := Byte.to_N b1 in
        let lo := if n0 =? 0xF0 then 0x90 else 0x80 in
        let hi := if n0 =? 0xF4 then 0x8F else 0xBF in
        if (lo <=? n1) && (n1 <=? hi) then
          match t1 with
          | [] => Some (pos, S (S pos), unexpected_end_of_data)
          | b2 :: t2 =>
            if is_cont (Byte.to_N b2) then
              match t2 with
              | [] => Some (pos, S (S (S pos)), unexpected_end_of_data)
              | b3 :: t3 =>
                if is_cont (Byte.to_N b3)
                then utf8_fault (S (S (S (S pos)))) t3
                else Some (pos, S (S (S pos)), invalid_continuation_byte)
              end
            else Some (pos, S (S pos), invalid_continuation_byte)
          end
        else Some (pos, S pos, invalid_continuation_byte)
      end
    else Some (pos, S pos, invalid_start_byte)
  end.

(** *** [str.encode()]: UTF-8

    The inverse of decoding; a surrogate, or a value above 0x10FFFF, has
    no encoding ([UnicodeEncodeError], [None] here). *)

Definition byte_of_N (n : N) : byte :=
  match Byte.of_N n with Some b => b | None => x00 end.

Definition encode_char (c : N) : option bytes :=
  if c <? 0x80 then Some [byte_of_N c]
  else if c <? 0x800 then
    Some [byte_of_N (0xC0 + c / 64); byte_of_N (0x80 + c mod 64)]
  else if c <? 0x10000 then
    if (0xD800 <=? c) && (c <=? 0xDFFF) then None
    else Some [byte_of_N (0xE0 + c / 4096);
               byte_of_N (0x80 + (c / 64) mod 64);
               byte_of_N (0x80 + c mod 64)]
  else if c <? 0x110000 then
    Some [byte_of_N (0xF0 + c / 262144);
          byte_of_N (0x80 + (c / 4096) mod 64);
          byte_of_N (0x80 + (c / 64) mod 64);
          byte_of_N (0x80 + c mod 64)]
  else None.

Fixpoint utf8_encode (s : str) : option bytes :=
  match s with
  | [] => Some []
  | c :: t =>
    match encode_char c, utf8_encode t with
    | Some b, Some r => Some (b ++ r)
    | _, _ => None
    end
  end.

(** *** [str.strip()] and [str.rstrip(chars)] *)

(** [str.isspace] on one code point: the white-space set of CPython. *)
Definition isspace (c : N) : bool :=
  ((0x09 <=? c) && (c <=? 0x0D)) || ((0x1C <=? c) && (c <=? 0x20))
  || (c =? 0x85) || (c =? 0xA0) || (c =? 0x1680)
  || ((0x2000 <=? c) && (c <=? 0x200A))
  || (c =? 0x2028) || (c =? 0x2029) || (c =? 0x202F) || (c =? 0x205F)
  || (c =? 0x3000).

Fixpoint lstrip_by (p : N -> bool) (s : str) : str :=
  match s with
  | c :: t => if p c then lstrip_by p t else s
  | [] => []
  end.

Definition rstrip_by (p : N -> bool) (s : str) : str :=
  rev (lstrip_by p (rev s)).

(** [s.strip()] *)
Definition strip (s : str) : str := rstrip_by isspace (lstrip_by isspace s).

(** [s.rstrip(chars)] *)
Definition rstrip (chars s : str) : str :=
  rstrip_by (fun c => existsb (N.eqb c) chars) s.

End Py.

(** ** Python values *)

Module Value.

Import Py.

(** A Python [float] (binary64), named by a decimal numeral that rounds to
    it: [FDec neg m e] is the float nearest to [(-1)^neg * m * 10^e]. *)
Inductive pyfloat : Type :=
| FNaN
| FInf (neg : bool)
| FDec (neg : bool) (mant : N) (exp10 : Z).

(** The values that travel through this file: what [json.loads] can build
    and what [json.dumps] accepts.  A [dict] keeps insertion order and has
    [str] keys. *)
Unset Elimination Schemes.
Inductive pyval : Type :=
| PNone
| PBool (b : bool)
| PInt (z : Z)
| PFloat (f : pyfloat)
| PStr (s : str)
| PList (l : list pyval)
| PDict (d : list (str * pyval)).
Set Elimination Schemes.

(** Induction on values, through the lists and dicts they hold. *)
Section PyvalInduction.

Variable P : pyval -> Prop.
Hypothesis HNone : P PNone.
Hypothesis HBool : forall b, P (PBool b).
Hypothesis HInt : forall z, P (PInt z).
Hypothesis HFloat : forall f, P (PFloat f).
Hypothesis HStr : forall s, P (PStr s).
Hypothesis HList : forall l, Forall P l -> P (PList l).
Hypothesis HDict :
  forall d, Forall (fun kv => P (snd kv)) d -> P (PDict d).

Fixpoint pyval_induction (v : pyval) : P v :=
  match v with
  | PNone => HNone
  | PBool b => HBool b
  | PInt z => HInt z
  | PFloat f => HFloat f
  | PStr s => HStr s
  | PList l =>
    HList ((fix all (l : list pyval) : Forall P l :=
              match l with
              | [] => Forall_nil P
              | x :: t => Forall_cons x (pyval_induction x) (all t)
              end) l)
  | PDict d =>
    HDict ((fix all (d : list (str * pyval))
              : Forall (fun kv => P (snd kv)) d :=
              match d with
              | [] => Forall_nil _
              | (k, x) :: t =>
                Forall_cons (P := fun kv => P (snd kv)) (k, x)
                  (pyval_induction x) (all t)
              end) d)
  end.

End PyvalInduction.

Definition dict := list (str * pyval).

(** [float(x) == 0.0]: a decimal rounds to zero when it is zero or at most
    half the least subnormal, 2^-1075 (the tie goes to the even side). *)
Definition float_is_zero (f : pyfloat) : bool :=
  match f with
  | FDec _ m e =>
      (m =? 0)%N
      || ((e <? 0)%Z && (Z.of_N m * 2 ^ 1075 <=? 10 ^ (- e))%Z)
  | _ => false
  end.

(** [bool(v)] *)
Definition truthy (v : pyval) : bool :=
  match v with
  | PNone => false
  | PBool b => b
  | PInt z => negb (z =? 0)%Z
  | PFloat f => negb (float_is_zero f)
  | PStr s => match s with [] => false | _ => true end
  | PList l => match l with [] => false | _ => true end
  | PDict d => match d with [] => false | _ => true end
  end.

(** [a or b] *)
Definition py_or (a b : pyval) : pyval := if truthy a then a else b.

(** [bool(s)] for a [str] *)
Definition str_truthy (s : str) : bool :=
  match s with [] => false | _ => true end.

(** [bool(o)] for an [Optional[str]] *)
Definition opt_str_truthy (o : option str) : bool :=
  match o with Some s => str_truthy s | None => false end.

(** [bool(o)] for an [Optional[dict]] *)
Definition opt_dict_truthy (o : option dict) : bool :=
  match o with Some (_ :: _) => true | _ => false end.

(** Look a key up in a [dict]. *)
Fixpoint dict_lookup (d : dict) (k : str) : option pyval :=
  match d with
  | [] => None
  | (k', v) :: t => if str_eqb k' k then Some v else dict_lookup t k
  end.

(** [d.get(k)]: the value, or [None] when the key is missing. *)
Definition get (d : dict) (k : str) : pyval :=
  match dict_lookup d k with Some v => v | None => PNone end.

(** [k in d] *)
Definition has_key (d : dict) (k : str) : bool :=
  match dict_lookup d k with Some _ => true | None => false end.

(** [d[k] = v]: replaces the value of a key already there, in place, and
    appends a new key at the end. *)
Fixpoint dict_set (d : dict) (k : str) (v : pyval) : dict :=
  match d with
  | [] => [(k, v)]
  | (k', v') :: t =>
      if str_eqb k' k then (k', v) :: t else (k', v') :: dict_set t k v
  end.

(** An [Optional[str]] as a value: [None] or the string. *)
Definition of_opt_str (o : option str) : pyval :=
  match o with Some s => PStr s | None => PNone end.

End Value.

(** ** Exceptions, results and the log *)

Module Eff.

Import Py.

(** A raised exception: its class name and [str(e)].  Only classes below
    [Exception] are modelled: the interpreter's control signals
    ([KeyboardInterrupt], [SystemExit], task cancellation) are not errors
    of the program. *)
Inductive exn : Type := Exception (cls : string) (msg : str).

Definition str_of_exn (e : exn) : str :=
  match e with Exception _ msg => msg end.

(** The outcome of a call: a value, or an exception on its way up. *)
Inductive res (A : Type) : Type :=
| Return (a : A)
| Raise (e : exn).
Arguments Return {A} a.
Arguments Raise {A} e.

(** The two functions of [utils.logger] the file calls. *)
Inductive level : Type := INFO | ERROR.

Definition entry : Type := (level * str)%type.

(** A computation that may log and may raise: its outcome and the entries
    it logged, oldest first. *)
Definition M (A : Type) : Type := (res A * list entry)%type.

Definition ret {A} (a : A) : M A := (Return a, []).

Definition raise {A} (e : exn) : M A := (Raise e, []).

Definition lift {A} (r : res A) : M A := (r, []).

Definition bind {A B} (m : M A) (f : A -> M B) : M B :=
  match m with
  | (Return a, l) => let (r, l') := f a in (r, l ++ l')
  | (Raise e, l) => (Raise e, l)
  end.

(** [try: m  except Exception as e: h e] *)
Definition try_except {A} (m : M A) (h : exn -> M A) : M A :=
  match m with
  | (Return a, l) => (Return a, l)
  | (Raise e, l) => let (r, l') := h e in (r, l ++ l')
  end.

(** [info(msg)] and [error(msg)] *)
Definition info (msg : str) : M unit := (Return tt, [(INFO, msg)]).
Definition error (msg : str) : M unit := (Return tt, [(ERROR, msg)]).

Definition outcome {A} (m : M A) : res A := fst m.
Definition logged {A} (m : M A) : list entry := snd m.

Declare Scope eff_scope.
Delimit Scope eff_scope with eff.
Notation "x <- m ;; k" := (bind m (fun x => k))
  (at level 61, m at next level, right associativity) : eff_scope.
Notation "m ;;; k" := (bind m (fun _ => k))
  (at level 61, right associativity) : eff_scope.

End Eff.

(** ** [json.loads]

    The decoder of the standard library, on a [str]: the grammar of
    RFC 8259 with CPython's extensions ([NaN], [Infinity], [-Infinity]),
    its strict string mode (no raw control characters), surrogate pairs
    joined, a repeated key keeping its first position and its last value.

    A call of [json.loads] ends in one of three ways: it returns the
    value, it raises [json.JSONDecodeError], or it raises another error.
    The last come from limits of the interpreter.  [int] refuses a
    literal with more digits than [sys.get_int_max_str_digits()] allows
    ([ValueError]).  The scanner enters each object and array through the
    interpreter's recursion check, and builds the [JSONDecodeError] of a
    fault it meets inside the text by a call that goes through that check
    too ([RecursionError]).  The digit limit and the answers of the
    recursion check are parameters here, and each error is raised where
    the scanner, going from left to right, meets its cause.  The call of
    [json.loads] itself is taken to have the stack it needs. *)

Module Json.

Import Py Value Eff.
Local Open Scope N_scope.

Definition QUOTE : N := 0x22.
Definition BACKSLASH : N := 0x5C.
Definition LBRACE : N := 0x7B.
Definition RBRACE : N := 0x7D.
Definition LBRACKET : N := 0x5B.
Definition RBRACKET : N := 0x5D.
Definition COLON : N := 0x3A.
Definition COMMA : N := 0x2C.
Definition MINUS : N := 0x2D.
Definition PLUS : N := 0x2B.
Definition DOT : N := 0x2E.
Definition ZERO : N := 0x30.
Definition BOM : N := 0xFEFF.

(** JSON white space: space, tab, line feed, carriage return. *)
Definition is_ws (c : N) : bool :=
  (c =? 0x20) || (c =? 0x09) || (c =? 0x0A) || (c =? 0x0D).

Fixpoint skip_ws (s : str) : str :=
  match s with
  | c :: t => if is_ws c then skip_ws t else s
  | [] => []
  end.

Definition is_digit (c : N) : bool := (0x30 <=? c) && (c <=? 0x39).

Definition hex_val (c : N) : option N :=
  if is_digit c then Some (c - 0x30)
  else if (0x41 <=? c) && (c <=? 0x46) then Some (c - 0x41 + 10)
  else if (0x61 <=? c) && (c <=? 0x66) then Some (c - 0x61 + 10)
  else None.

Definition hex4 (a b c d : N) : option N :=
  match hex_val a, hex_val b, hex_val c, hex_val d with
  | Some x, Some y, Some z, Some t => Some (((x * 16 + y) * 16 + z) * 16 + t)
  | _, _, _, _ => None
  end.

Definition is_high_surrogate (u : N) : bool := (0xD800 <=? u) && (u <=? 0xDBFF).
Definition is_low_surrogate (u : N) : bool := (0xDC00 <=? u) && (u <=? 0xDFFF).
Definition join_surrogates (hi lo : N) : N :=
  0x10000 + (hi - 0xD800) * 0x400 + (lo - 0xDC00).

(** The one-letter escapes: the character after the backslash. *)
Definition simple_escape (e : N) : option N :=
  if e =? QUOTE then Some QUOTE
  else if e =? BACKSLASH then Some BACKSLASH
  else if e =? 0x2F then Some 0x2F
  else if e =? 0x62 then Some 0x08
  else if e =? 0x66 then Some 0x0C
  else if e =? 0x6E then Some 0x0A
  else if e =? 0x72 then Some 0x0D
  else if e =? 0x74 then Some 0x09
  else None.

Definition consc {A} (c : A) (r : option (list A * str)) : option (list A * str) :=
  match r with
  | Some (cs, rest) => Some (c :: cs, rest)
  | None => None
  end.

(** The body of a string literal, after its opening quote: the decoded
    text and what follows the closing quote. *)
Fixpoint scanstring (s : str) : option (str * str) :=
  match s with
  | [] => None
  | c :: t =>
    if c =? QUOTE then Some ([], t)
    else if c =? BACKSLASH then
      match t with
      | [] => None
      | e :: t1 =>
        if e =? 0x75 then
          match t1 with
          | h1 :: h2 :: h3 :: h4 :: t2 =>
            match hex4 h1 h2 h3 h4 with
            | None => None
            | Some u =>
              if is_high_surrogate u then
                match t2 with
                | b :: l :: g1 :: g2 :: g3 :: g4 :: t3 =>
                  if (b =? BACKSLASH) && (l =? 0x75) then
                    match hex4 g1 g2 g3 g4 with
                    | Some u2 =>
                      if is_low_surrogate u2
                      then consc (join_surrogates u u2) (scanstring t3)
                      else consc u (scanstring t2)
                    | None => None
                    end
                  else consc u (scanstring t2)
                | _ => consc u (scanstring t2)
                end
              else consc u (scanstring t2)
            end
          | _ => None
          end
        else
          match simple_escape e with
          | Some c' => consc c' (scanstring t1)
          | None => None
          end
      end
    else if c <? 0x20 then None
    else consc c (scanstring t)
  end.

Fixpoint span_digits (s : str) : str * str :=
  match s with
  | c :: t =>
    if is_digit c then let (d, r) := span_digits t in (c :: d, r) else ([], s)
  | [] => ([], [])
  end.

Definition digits_value (ds : str) : N :=
  fold_left (fun a d => a * 10 + (d - ZERO)) ds 0.

Definition signed (neg : bool) (n : N) : Z :=
  if neg then (- Z.of_N n)%Z else Z.of_N n.

(** The integer part of a number: a lone [0], or a digit 1-9 and the
    digits after it. *)
Definition int_part (s : str) : option (str * str) :=
  match s with
  | c :: t =>
    if c =? ZERO then Some ([c], t)
    else if is_digit c then let (d, r) := span_digits t in Some (c :: d, r)
    else None
  | [] => None
  end.

(** The fraction, taken only when a digit follows the point. *)
Definition frac_part (s : str) : str * str :=
  match s with
  | p :: d :: t =>
    if (p =? DOT) && is_digit d
    then let (ds, r) := span_digits t in (d :: ds, r)
    else ([], s)
  | _ => ([], s)
  end.

(** The exponent, taken only when a digit follows the [e] and its sign;
    otherwise the scanner steps back before the [e]. *)
Definition exp_part (s : str) : option (Z * str) :=
  match s with
  | e :: t =>
    if (e =? 0x65) || (e =? 0x45) then
      let '(neg, t') :=
        match t with
        | sg :: t'' =>
          if sg =? MINUS then (true, t'')
          else if sg =? PLUS then (false, t'')
          else (false, t)
        | [] => (false, t)
        end in
      match span_digits t' with
      | ([], _) => None
      | (ds, r) => Some (signed neg (digits_value ds), r)
      end
    else None
  | [] => None
  end.

(** *** The interpreter's limits, and the errors they raise *)

Definition hex_digit (n : N) : N :=
  if n <? 10 then ZERO + n else 0x61 + (n - 10).

Fixpoint digits_fuel (fuel : nat) (n : N) (acc : str) : str :=
  match fuel with
  | O => acc
  | S fuel' =>
    let acc' := (ZERO + n mod 10) :: acc in
    if n <? 10 then acc' else digits_fuel fuel' (n / 10) acc'
  end.

(** The decimal digits of [n], most significant first. *)
Definition digits (n : N) : str :=
  digits_fuel (S (N.to_nat (N.log2 n))) n [].

(** The limits that bear on decoding.  [max_str_digits] is
    [sys.get_int_max_str_digits()]: 4300 by default, 0 when the limit is
    switched off or the interpreter has none.  [may_enter d] is the
    answer of the recursion check when the scanner, [d] objects and arrays
    deep, enters one more.  [report_check d] is the error raised in place
    of a [JSONDecodeError] that the scanner builds [d] objects and arrays
    deep, when the recursion check stops the call that builds it. *)
Record Limits : Type := {
  max_str_digits : nat;
  may_enter : nat -> bool;
  report_check : nat -> option exn
}.

(** How a scan ends: with a value and the text after it, with
    [json.JSONDecodeError], or with another error. *)
Inductive scan (A : Type) : Type :=
| Scanned (a : A) (rest : str)
| Refused
| Stopped (e : exn).
Arguments Scanned {A} a rest.
Arguments Refused {A}.
Arguments Stopped {A} e.

(** [int] checks the number of digits only above 640 of them, and only
    when a limit is set. *)
Definition over_limit (lim : Limits) (n : nat) : bool :=
  (640 <? n)%nat && (0 <? max_str_digits lim)%nat
  && (max_str_digits lim <? n)%nat.

Definition digits_error (lim : Limits) (n : nat) : exn :=
  Exception "ValueError"
    (lit "Exceeds the limit (" ++ digits (N.of_nat (max_str_digits lim))
     ++ lit " digits) for integer string conversion: value has "
     ++ digits (N.of_nat n)
     ++ lit " digits; use sys.set_int_max_str_digits() to increase the limit").

Definition recursion_error (what : string) : exn :=
  Exception "RecursionError"
    (lit "maximum recursion depth exceeded while decoding a JSON "
     ++ lit what ++ lit " from a unicode string").

(** A fault the scanner reports itself, [d] objects and arrays deep: the
    [JSONDecodeError], if it can be built there.  (Where no value starts,
    the scanner only signals it, and the error is built by the caller of
    the scan, outside the text; such a place is [Refused] as it is.) *)
Definition refuse {A} (lim : Limits) (d : nat) : scan A :=
  match report_check lim d with
  | Some e => Stopped e
  | None => Refused
  end.

(** A number: an [int] when it has neither fraction nor exponent, a
    [float] otherwise.  The whole literal is matched first; [int] is then
    given its integer part, sign and digits. *)
Definition match_number (lim : Limits) (s : str) : scan pyval :=
  let '(neg, s1) :=
    match s with
    | c :: t => if c =? MINUS then (true, t) else (false, s)
    | [] => (false, s)
    end in
  match int_part s1 with
  | None => Refused
  | Some (idigs, s2) =>
    let '(fdigs, s3) := frac_part s2 in
    match fdigs, exp_part s3 with
    | [], None =>
      if over_limit lim (List.length idigs)
      then Stopped (digits_error lim (List.length idigs))
      else Scanned (PInt (signed neg (digits_value idigs))) s3
    | _, None =>
      Scanned (PFloat (FDec neg (digits_value (idigs ++ fdigs))
                            (- Z.of_nat (List.length fdigs)))) s3
    | _, Some (e, s4) =>
      Scanned (PFloat (FDec neg (digits_value (idigs ++ fdigs))
                            (e - Z.of_nat (List.length fdigs)))) s4
    end
  end.

(** The constants, tried in the scanner's order, then a number. *)
Definition scan_atom (lim : Limits) (s : str) : scan pyval :=
  match strip_prefix (lit "null") s with
  | Some r => Scanned PNone r
  | None =>
  match strip_prefix (lit "true") s with
  | Some r => Scanned (PBool true) r
  | None =>
  match strip_prefix (lit "false") s with
  | Some r => Scanned (PBool false) r
  | None =>
  match strip_prefix (lit "NaN") s with
  | Some r => Scanned (PFloat FNaN) r
  | None =>
  match strip_prefix (lit "Infinity") s with
  | Some r => Scanned (PFloat (FInf false)) r
  | None =>
  match strip_prefix (lit "-Infinity") s with
  | Some r => Scanned (PFloat (FInf true)) r
  | None => match_number lim s
  end end end end end end.

(** [dict(pairs)]: the members set one after the other. *)
Definition dict_of_pairs (pairs : list (str * pyval)) : dict :=
  fold_left (fun d kv => dict_set d (fst kv) (snd kv)) pairs [].

(** One more item in front of those a scan gives. *)
Definition push {A} (a : A) (r : scan (list A)) : scan (list A) :=
  match r with
  | Scanned l rest => Scanned (a :: l) rest
  | Refused => Refused
  | Stopped e => Stopped e
  end.

(** One value at the head of [s], and what follows it; the scanner is
    [d] objects and arrays deep.  The fuel bounds the number of calls,
    one inside the other; twice the length of the text and one more is
    more than any text can use, and that is what [json_loads] gives. *)
Fixpoint scan_once (lim : Limits) (fuel d : nat) (s : str) : scan pyval :=
  match fuel with
  | O => Refused
  | S fuel' =>
    match s with
    | [] => Refused
    | c :: t =>
      if c =? QUOTE then
        match scanstring t with
        | Some (x, r) => Scanned (PStr x) r
        | None => refuse lim d
        end
      else if c =? LBRACE then
        if may_enter lim d then
          match skip_ws t with
          | c1 :: t1 =>
            if c1 =? RBRACE then Scanned (PDict []) t1
            else
              match parse_members lim fuel' (S d) (c1 :: t1) with
              | Scanned pairs r => Scanned (PDict (dict_of_pairs pairs)) r
              | Refused => Refused
              | Stopped e => Stopped e
              end
          | [] => refuse lim (S d)
          end
        else Stopped (recursion_error "object")
      else if c =? LBRACKET then
        if may_enter lim d then
          match skip_ws t with
          | c1 :: t1 =>
            if c1 =? RBRACKET then Scanned (PList []) t1
            else
              match parse_elements lim fuel' (S d) (c1 :: t1) with
              | Scanned vs r => Scanned (PList vs) r
              | Refused => Refused
              | Stopped e => Stopped e
              end
          | [] => Refused
          end
        else Stopped (recursion_error "array")
      else scan_atom lim s
    end
  end

(** The members of an object, from a key on, through the closing brace. *)
with parse_members (lim : Limits) (fuel d : nat) (s : str)
  : scan (list (str * pyval)) :=
  match fuel with
  | O => Refused
  | S fuel' =>
    match s with
    | q :: t =>
      if q =? QUOTE then
        match scanstring t with
        | None => refuse lim d
        | Some (key, s1) =>
          match skip_ws s1 with
          | c :: s2 =>
            if c =? COLON then
              match scan_once lim fuel' d (skip_ws s2) with
              | Refused => Refused
              | Stopped e => Stopped e
              | Scanned v s3 =>
                match skip_ws s3 with
                | x :: s4 =>
                  if x =? RBRACE then Scanned [(key, v)] s4
                  else if x =? COMMA
                  then push (key, v) (parse_members lim fuel' d (skip_ws s4))
                  else refuse lim d
                | [] => refuse lim d
                end
              end
            else refuse lim d
          | [] => refuse lim d
          end
        end
      else refuse lim d
    | [] => refuse lim d
    end
  end

(** The elements of an array, from a value on, through the closing
    bracket. *)
with parse_elements (lim : Limits) (fuel d : nat) (s : str)
  : scan (list pyval) :=
  match fuel with
  | O => Refused
  | S fuel' =>
    match scan_once lim fuel' d s with
    | Refused => Refused
    | Stopped e => Stopped e
    | Scanned v s1 =>
      match skip_ws s1 with
      | x :: s2 =>
        if x =? RBRACKET then Scanned [v] s2
        else if x =? COMMA
        then push v (parse_elements lim fuel' d (skip_ws s2))
        else refuse lim d
      | [] => refuse lim d
      end
    end
  end.

(** What a call of [json.loads] comes to. *)
Inductive loaded : Type :=
| Loaded (v : pyval)
| JSONDecodeError
| Raised (e : exn).

(** [json.loads(s)]: a leading byte-order mark is refused, white space
    around the one document is skipped, anything after it is an error. *)
Definition json_loads (lim : Limits) (s : str) : loaded :=
  match s with
  | c :: _ =>
    if c =? BOM then JSONDecodeError
    else
      match scan_once lim (2 * List.length s + 1) 0 (skip_ws s) with
      | Scanned v r =>
        match skip_ws r with [] => Loaded v | _ => JSONDecodeError end
      | Refused => JSONDecodeError
      | Stopped e => Raised e
      end
  | [] => JSONDecodeError
  end.

(** The limits of CPython 3.11 where [int] takes [digits] digits and the
    recursion limit leaves room for [room] objects and arrays: a
    [JSONDecodeError] is built with room to spare for three more calls,
    and with less the recursion check stops one of them. *)
Definition cpython_limits (digits room : nat) : Limits :=
  {| max_str_digits := digits;
     may_enter := fun d => (d <? room)%nat;
     report_check := fun d =>
       match (room - d)%nat with
       | 0%nat | 2%nat =>
         Some (Exception "RecursionError"
                 (lit "maximum recursion depth exceeded while calling a Python object"))
       | 1%nat =>
         Some (Exception "RecursionError"
                 (lit "maximum recursion depth exceeded"))
       | _ => None
       end |}.

(** *** The texts of a value

    The texts a JSON encoder writes for a value, by layout: Python's
    [json.dumps] and JavaScript's [JSON.stringify], compact, spaced or
    indented, with every character outside ASCII escaped or written as it
    is.  They serve to state that a value written out is read back as
    that value. *)

(** JSON white space only. *)
Definition padding (s : str) : bool := forallb is_ws s.

(** A layout: which characters are written as they are when they need no
    escape; the white space after the bracket that opens a container whose
    items are at depth [d], after the comma before an item at depth [d],
    before the bracket that closes a container at depth [d], and after a
    colon; whether a float with a negative exponent is written with a
    decimal point. *)
Record Layout : Type := {
  raw : N -> bool;
  ws_open : nat -> str;
  ws_item : nat -> str;
  ws_close : nat -> str;
  ws_colon : str;
  positional : bool
}.

(** The escape of a code unit: backslash, [u] and four hex digits. *)
Definition u_escape (u : N) : str :=
  [BACKSLASH; 0x75; hex_digit (u / 4096); hex_digit ((u / 256) mod 16);
   hex_digit ((u / 16) mod 16); hex_digit (u mod 16)].

Definition dump_char (lay : Layout) (c : N) : str :=
  if c =? QUOTE then [BACKSLASH; QUOTE]
  else if c =? BACKSLASH then [BACKSLASH; BACKSLASH]
  else if c =? 0x0A then [BACKSLASH; 0x6E]
  else if c =? 0x0D then [BACKSLASH; 0x72]
  else if c =? 0x09 then [BACKSLASH; 0x74]
  else if c =? 0x0C then [BACKSLASH; 0x66]
  else if c =? 0x08 then [BACKSLASH; 0x62]
  else if (0x20 <=? c) && ((c <=? 0x7E) || raw lay c) then [c]
  else if c <? 0x10000 then u_escape c
  else u_escape (0xD800 + (c - 0x10000) / 0x400)
       ++ u_escape (0xDC00 + (c - 0x10000) mod 0x400).

Definition dump_string (lay : Layout) (s : str) : str :=
  QUOTE :: flat_map (dump_char lay) s ++ [QUOTE].

Definition sign_text (neg : bool) : str := if neg then [MINUS] else [].

Definition dump_int (z : Z) : str :=
  sign_text (z <? 0)%Z ++ digits (Z.abs_N z).

(** [m] over ten to the [k], with a decimal point: the digits of [m] cut
    [k] places from the right, zeros filling in when there are too few. *)
Definition dump_point (m : N) (k : nat) : str :=
  let ds := digits m in
  let n := List.length ds in
  if (k <? n)%nat
  then firstn (n - k) ds ++ DOT :: skipn (n - k) ds
  else ZERO :: DOT :: repeat ZERO (k - n) ++ ds.

Definition dump_float (lay : Layout) (f : pyfloat) : str :=
  match f with
  | FNaN => lit "NaN"
  | FInf false => lit "Infinity"
  | FInf true => lit "-Infinity"
  | FDec neg m e =>
    sign_text neg ++
    (if positional lay && (e <? 0)%Z
     then dump_point m (Z.to_nat (- e))
     else digits m ++ 0x65 :: dump_int e)
  end.

(** The text of [v] in a layout, its own depth being [d]. *)
Fixpoint json_text (lay : Layout) (d : nat) (v : pyval) : str :=
  match v with
  | PNone => lit "null"
  | PBool true => lit "true"
  | PBool false => lit "false"
  | PInt z => dump_int z
  | PFloat f => dump_float lay f
  | PStr s => dump_string lay s
  | PList [] => [LBRACKET; RBRACKET]
  | PList (x :: l) =>
    LBRACKET :: ws_open lay (S d) ++ json_text lay (S d) x
    ++ (fix more (l : list pyval) : str :=
          match l with
          | [] => []
          | y :: t =>
            COMMA :: ws_item lay (S d) ++ json_text lay (S d) y ++ more t
          end) l
    ++ ws_close lay d ++ [RBRACKET]
  | PDict [] => [LBRACE; RBRACE]
  | PDict ((k, x) :: m) =>
    LBRACE :: ws_open lay (S d)
    ++ dump_string lay k ++ COLON :: ws_colon lay ++ json_text lay (S d) x
    ++ (fix more (m : list (str * pyval)) : str :=
          match m with
          | [] => []
          | (k', y) :: t =>
            COMMA :: ws_item lay (S d)
            ++ dump_string lay k' ++ COLON :: ws_colon lay
            ++ json_text lay (S d) y ++ more t
          end) m
    ++ ws_close lay d ++ [RBRACE]
  end.

(** The layout of [json.dumps(v)]: a space after each comma and colon,
    every character outside ASCII escaped. *)
Definition python_layout : Layout :=
  {| raw := fun _ => false;
     ws_open := fun _ => []; ws_item := fun _ => [0x20];
     ws_close := fun _ => []; ws_colon := [0x20];
     positional := true |}.

(** The layout of [JSON.stringify(v)]: no white space, characters
    written as they are. *)
Definition compact_layout : Layout :=
  {| raw := fun _ => true;
     ws_open := fun _ => []; ws_item := fun _ => [];
     ws_close := fun _ => []; ws_colon := [];
     positional := true |}.

(** The layout of [JSON.stringify(v, null, k)]: one item a line, [k]
    spaces deeper at each level. *)
Definition indented_layout (k : nat) : Layout :=
  {| raw := fun _ => true;
     ws_open := fun d => 0x0A :: repeat 0x20 (k * d);
     ws_item := fun d => 0x0A :: repeat 0x20 (k * d);
     ws_close := fun d => 0x0A :: repeat 0x20 (k * d);
     ws_colon := [0x20];
     positional := true |}.

(** A code point that text can carry: a Unicode scalar value. *)
Definition is_scalar (c : N) : bool :=
  (c <? 0x110000) && negb ((0xD800 <=? c) && (c <=? 0xDFFF)).

Definition is_text (s : str) : bool := forallb is_scalar s.

Fixpoint unique_keys (d : list (str * pyval)) : bool :=
  match d with
  | [] => true
  | (k, _) :: t => negb (existsb (fun kv => str_eqb (fst kv) k) t) && unique_keys t
  end.

(** A value as JSON carries it: its strings are text, and no key occurs
    twice in a dict. *)
Fixpoint json_value (v : pyval) : bool :=
  match v with
  | PStr s => is_text s
  | PList l => forallb json_value l
  | PDict d =>
    unique_keys d
    && forallb (fun kv => is_text (fst kv) && json_value (snd kv)) d
  | _ => true
  end.

(** A value the decoder can take within the limits, [d] objects and
    arrays deep: no integer has more digits than [int] accepts, and the
    recursion check lets the scanner into every object and array. *)
Fixpoint fits (lim : Limits) (d : nat) (v : pyval) : bool :=
  match v with
  | PInt z => negb (over_limit lim (List.length (digits (Z.abs_N z))))
  | PList l => may_enter lim d && forallb (fits lim (S d)) l
  | PDict m => may_enter lim d && forallb (fun kv => fits lim (S d) (snd kv)) m
  | _ => true
  end.

End Json.

(** ** Notions about the decoder and the texts of a value *)

Module JsonSpec.

Import Py Value Eff Json.
Local Open Scope N_scope.

(** What the digits of [n] are: decimal digits, at least one, of value
    [n], with a leading zero only for zero itself. *)
Record numeral (n : N) (ds : str) : Prop := {
  numeral_digits : Forall (fun c => is_digit c = true) ds;
  numeral_nonempty : ds <> [];
  numeral_value : digits_value ds = n;
  numeral_zero : forall t, ds = ZERO :: t -> t = [] /\ n = 0
}.

(** A continuation that cannot extend a run of digits. *)
Definition no_digit (rest : str) : Prop :=
  match rest with c :: _ => is_digit c = false | [] => True end.

(** What may follow a value in a text: nothing, or a comma, a closing
    bracket, a closing brace or white space. *)
Definition closes (rest : str) : Prop :=
  match rest with
  | [] => True
  | c :: _ => c = COMMA \/ c = RBRACKET \/ c = RBRACE \/ is_ws c = true
  end.

(** The white space of a layout is white space. *)
Definition layout_ok (lay : Layout) : Prop :=
  (forall d,
      padding (ws_open lay d) = true /\ padding (ws_item lay d) = true /\
      padding (ws_close lay d) = true) /\
  padding (ws_colon lay) = true.

(** The items of a list after the first and the members of a dict after
    the first, at depth [d], as [json_text] lays them out. *)
Definition more_items (lay : Layout) (d : nat) : list pyval -> str :=
  fix more (l : list pyval) : str :=
    match l with
    | [] => []
    | y :: t => COMMA :: ws_item lay d ++ json_text lay d y ++ more t
    end.

Definition more_members (lay : Layout) (d : nat) : list (str * pyval) -> str :=
  fix more (m : list (str * pyval)) : str :=
    match m with
    | [] => []
    | (k', y) :: t =>
      COMMA :: ws_item lay d
      ++ dump_string lay k' ++ COLON :: ws_colon lay
      ++ json_text lay d y ++ more t
    end.

(** How a text can start: never with white space, a closing bracket or
    brace, or a byte-order mark. *)
Definition opens (c : N) : Prop :=
  is_ws c = false /\ c <> RBRACKET /\ c <> RBRACE /\ c <> BOM.

Definition fresh_key (acc : dict) (k : str) : Prop :=
  existsb (fun kv => str_eqb (fst kv) k) acc = false.

(** The text of [v] at depth [d], followed by anything that can follow a
    value, is scanned as [v], with any fuel at least the length of the
    text, when [v] is within the limits. *)
Definition reads_back (lim : Limits) (lay : Layout) (v : pyval) : Prop :=
  json_value v = true ->
  forall d rest fuel,
    fits lim d v = true ->
    closes rest -> (length (json_text lay d v) <= fuel)%nat ->
    scan_once lim fuel d (json_text lay d v ++ rest) = Scanned v rest.

End JsonSpec.

(** ** The world around the file *)

Import Py Value Eff.
Local Open Scope eff_scope.

(** [config.env.ENV]: the settings the file reads. *)
Record Env : Type := {
  RPC_URL : str;
  CLOB_HTTP_URL : str;
  PRIVATE_KEY : str;
  PROXY_WALLET : str
}.

(** The account [eth_account.Account.from_key] builds, by its address. *)
Record LocalAccount : Type := { account_address : str }.

(** What [process.communicate] hands back once the child has exited. *)
Record Completed : Type := {
  returncode : Z;
  stdout : bytes;
  stderr : bytes
}.

(** Everything the file asks of its surroundings.  Each field is what one
    call of the source returns in the run considered. *)
Record World : Type := {
  ENV : Env;
  (** [os.getenv(name)] *)
  getenv : str -> option str;
  (** [Web3.to_checksum_address(address)] *)
  to_checksum_address : str -> res str;
  (** [Web3(Web3.HTTPProvider(url)).eth.get_code(address)] *)
  get_code : str -> str -> res bytes;
  (** [Account.from_key(key)] *)
  from_key : str -> res LocalAccount;
  (** [shutil.which(name)] *)
  which : str -> option str;
  (** [Path(__file__).resolve().parents[2]], as text: the directory two
      above the one the module is loaded from *)
  package_root : str;
  (** [path.exists()]: it raises when the file system refuses the query
      for a reason other than the path not being there *)
  path_exists : str -> res bool;
  (** [asyncio.create_subprocess_exec(node, script, ...)] followed by
      [process.communicate(json.dumps(request).encode())]: starting the
      child, writing it the request and reading what it answers until it
      exits.  The request is given as a value, and what any of these
      calls raises, [json.dumps] among them, is what the field raises. *)
  spawn : str -> str -> pyval -> res Completed;
  (** the interpreter's limits at the call of [json.loads] *)
  limits : Json.Limits
}.

(** ** [create_clob_client.py] *)

Definition reason_text (r : utf8_reason) : str :=
  match r with
  | invalid_start_byte => lit "invalid start byte"
  | invalid_continuation_byte => lit "invalid continuation byte"
  | unexpected_end_of_data => lit "unexpected end of data"
  end.

(** Two hex digits of an octet. *)
Definition hex2 (n : N) : str :=
  [Json.hex_digit (n / 16); Json.hex_digit (n mod 16)]%N.

(** The [UnicodeDecodeError] of [b.decode()], with the text [str(e)]
    gives it: the octet blamed, or the range of them, and the reason. *)
Definition decode_error (b : bytes) : exn :=
  Exception "UnicodeDecodeError"
    match utf8_fault 0 b with
    | Some (start, stop, reason) =>
      if (stop =? S start)%nat then
        lit "'utf-8' codec can't decode byte 0x"
        ++ hex2 (Byte.to_N (nth start b x00))
        ++ lit " in position " ++ Json.digits (N.of_nat start)
        ++ lit ": " ++ reason_text reason
      else
        lit "'utf-8' codec can't decode bytes in position "
        ++ Json.digits (N.of_nat start) ++ lit "-"
        ++ Json.digits (N.of_nat (stop - 1))
        ++ lit ": " ++ reason_text reason
    | None => []
    end.

(** [b.decode()] *)
Definition decode (b : bytes) : M str :=
  match utf8_decode b with
  | Some s => ret s
  | None => raise (decode_error b)
  end.

(** [async def is_contract_wallet(address: str) -> bool] *)
Definition is_contract_wallet (w : World) (address : str) : M bool :=
  try_except
    (checksum_address <- lift (to_checksum_address w address) ;;
     code <- lift (get_code w (RPC_URL (ENV w)) checksum_address) ;;
     ret (negb (bytes_eqb code (blit "0x"))))
    (fun e =>
       error (lit "Error checking wallet type: " ++ str_of_exn e) ;;;
       ret false).

(** The dict [{'success': False, 'error': msg}]. *)
Definition failure (msg : str) : pyval :=
  PDict [(lit "success", PBool false); (lit "error", PStr msg)].

Definition NODE_REQUIRED : str :=
  lit "Node.js is required for CLOB execution. Install Node.js >=18.".
Definition SCRIPT_NOT_FOUND : str := lit "CLOB bridge script not found at ".
Definition BRIDGE_FAILED : str := lit "CLOB bridge failed".
Definition INVALID_RESPONSE : str := lit "Invalid response from CLOB bridge".

(** [parents[2] / 'scripts' / 'clob_bridge.mjs'] *)
Definition script_path (w : World) : str :=
  package_root w ++ lit "/scripts/clob_bridge.mjs".

(** The request [{'action': action, 'payload': payload}]. *)
Definition bridge_request (action : str) (payload : pyval) : pyval :=
  PDict [(lit "action", PStr action); (lit "payload", payload)].

(** What [run_clob_bridge] makes of the finished process: the lines after
    [process.communicate]. *)
Definition bridge_response (lim : Json.Limits) (process : Completed)
  : M pyval :=
  if negb (returncode process =? 0)%Z then
    err <- decode (stderr process) ;;
    text <- (if str_truthy err then ret err else decode (stdout process)) ;;
    let error_output := strip text in
    ret (failure (if str_truthy error_output
                  then error_output else BRIDGE_FAILED))
  else
    out <- decode (stdout process) ;;
    match Json.json_loads lim (if str_truthy out then out else lit "{}") with
    | Json.Loaded v => ret v
    | Json.JSONDecodeError => ret (failure INVALID_RESPONSE)
    | Json.Raised e => raise e
    end.

(** [async def run_clob_bridge(action, payload) -> Dict[str, Any]] *)
Definition run_clob_bridge (w : World) (action : str) (payload : pyval)
  : M pyval :=
  match which w (lit "node") with
  | None | Some [] => ret (failure NODE_REQUIRED)
  | Some node_path =>
    script_there <- lift (path_exists w (script_path w)) ;;
    if negb script_there
    then ret (failure (SCRIPT_NOT_FOUND ++ script_path w))
    else
      process <- lift (spawn w node_path (script_path w)
                         (bridge_request action payload)) ;;
      bridge_response (limits w) process
  end.

(** [class ClobClient]: the attributes [__init__] sets. *)
Record ClobClient : Type := {
  host : str;
  chain_id : Z;
  wallet : LocalAccount;
  api_creds : dict;
  signature_type : str;
  proxy_wallet : option str;
  api_key : pyval;
  api_secret : pyval;
  api_passphrase : pyval
}.

(** [ClobClient.__init__] *)
Definition ClobClient_init (host : str) (chain_id : Z) (wallet : LocalAccount)
    (api_creds : option dict) (signature_type : str)
    (proxy_wallet : option str) : ClobClient :=
  let creds_or_empty :=
    match api_creds with Some (kv :: d) => kv :: d | _ => [] end in
  {| host := rstrip (lit "/") host;
     chain_id := chain_id;
     wallet := wallet;
     api_creds := creds_or_empty;
     signature_type := signature_type;
     proxy_wallet := proxy_wallet;
     api_key :=
       if opt_dict_truthy api_creds
       then get creds_or_empty (lit "key") else PNone;
     api_secret :=
       if opt_dict_truthy api_creds
       then get creds_or_empty (lit "secret") else PNone;
     api_passphrase :=
       if opt_dict_truthy api_creds
       then get creds_or_empty (lit "passphrase") else PNone |}.

(** The two credential calls are methods, looked up on the client when
    [create_clob_client] runs; the start-up routine is embedded over this
    interface. *)
Class CredentialMethods : Type := {
  create_api_key : ClobClient -> M dict;
  derive_api_key : ClobClient -> M dict
}.

(** The bodies the file gives the two methods: placeholders that return
    an empty dict. *)
Definition placeholder_methods : CredentialMethods :=
  {| create_api_key := fun _ => ret [];
     derive_api_key := fun _ => ret [] |}.

(** [ClobClient.create_market_order] *)
Definition create_market_order (self : ClobClient) (order_args : dict)
  : M pyval :=
  ret (PDict [(lit "side", get order_args (lit "side"));
              (lit "tokenID", get order_args (lit "tokenID"));
              (lit "amount", get order_args (lit "amount"));
              (lit "price", get order_args (lit "price"))]).

(** The local [order_args] of [post_order]. *)
Definition post_order_args (signed_order : option dict) : pyval :=
  let order := match signed_order with Some (kv :: d) => kv :: d | _ => [] end in
  PDict [(lit "side", get order (lit "side"));
         (lit "tokenID",
          py_or (get order (lit "tokenID")) (get order (lit "tokenId")));
         (lit "amount", get order (lit "amount"));
         (lit "price", get order (lit "price"))].

(** The local [payload] of [post_order]. *)
Definition post_order_payload (w : World) (self : ClobClient)
    (signed_order : option dict) (order_type : str) : pyval :=
  PDict [(lit "host", PStr (host self));
         (lit "chainId", PInt (chain_id self));
         (lit "signatureType", PStr (signature_type self));
         (lit "funderAddress", of_opt_str (proxy_wallet self));
         (lit "privateKey", PStr (PRIVATE_KEY (ENV w)));
         (lit "orderType", PStr order_type);
         (lit "order", post_order_args signed_order)].

(** [ClobClient.post_order] *)
Definition post_order (w : World) (self : ClobClient)
    (signed_order : option dict) (order_type : str) : M pyval :=
  run_clob_bridge w (lit "post_order")
    (post_order_payload w self signed_order order_type).

Definition POLY_PROXY : str := lit "POLY_PROXY".
Definition EOA : str := lit "EOA".

(** The signature type [create_clob_client] settles on, with the line it
    logs. *)
Definition resolve_signature_type (signature_override : option str)
    (is_proxy_contract : bool) : M str :=
  match signature_override with
  | Some (c :: o) =>
    let signature_type := c :: o in
    info (lit "Using CLOB_SIGNATURE_TYPE override: " ++ signature_type) ;;;
    ret signature_type
  | _ =>
    let signature_type := if is_proxy_contract then POLY_PROXY else EOA in
    info (lit "Wallet type detected: "
          ++ (if is_proxy_contract
              then lit "Contract (POLY_PROXY)"
              else lit "EOA (Externally Owned Account)")) ;;;
    ret signature_type
  end.

(** The [try] block of [create_clob_client] and its handler. *)
Definition acquire_credentials `{CredentialMethods} (clob_client : ClobClient)
  : M dict :=
  try_except
    (creds <- create_api_key clob_client ;;
     if negb (truthy (get creds (lit "key")))
     then derive_api_key clob_client
     else ret creds)
    (fun e =>
       error (lit "Failed to create/derive API key: " ++ str_of_exn e) ;;;
       ret []).

(** [async def create_clob_client() -> ClobClient] *)
Definition create_clob_client `{CredentialMethods} (w : World) : M ClobClient :=
  let chain_id := 137%Z in
  let host := CLOB_HTTP_URL (ENV w) in
  account <- lift (from_key w (PRIVATE_KEY (ENV w))) ;;
  let signature_override := getenv w (lit "CLOB_SIGNATURE_TYPE") in
  is_proxy_contract <- is_contract_wallet w (PROXY_WALLET (ENV w)) ;;
  signature_type <- resolve_signature_type signature_override is_proxy_contract ;;
  let clob_client :=
    ClobClient_init host chain_id account None signature_type
      (if is_proxy_contract then Some (PROXY_WALLET (ENV w)) else None) in
  creds <- acquire_credentials clob_client ;;
  ret (ClobClient_init host chain_id account (Some creds) signature_type
         (if is_proxy_contract then Some (PROXY_WALLET (ENV w)) else None)).

(** *** [ClobClient.get_order_book]

    The market-data read goes over HTTP.  What the file asks of the
    network is one request and, of the response, its status check and its
    body read as JSON. *)

(** An [httpx.Response], by the two calls the file makes on it. *)
Record Response : Type := {
  (** [response.raise_for_status()] *)
  raise_for_status : res unit;
  (** [response.json()] *)
  json : res pyval
}.

(** [httpx.AsyncClient().get(url)] *)
Record Http : Type := { http_get : str -> res Response }.

(** The local [url] of [get_order_book]. *)
Definition order_book_url (self : ClobClient) (token_id : str) : str :=
  host self ++ lit "/book?token_id=" ++ token_id.

(** [ClobClient.get_order_book] *)
Definition get_order_book (net : Http) (self : ClobClient) (token_id : str)
  : M pyval :=
  let url := order_book_url self token_id in
  response <- lift (http_get net url) ;;
  lift (raise_for_status response) ;;;
  lift (json response).

(** ** Notions the properties are stated with *)

(** The bridge was started and the child ran to completion as [p]: the
    runtime was found, the script is in place, the spawn did not fail. *)
Definition bridge_exits (w : World) (action : str) (payload : pyval)
    (p : Completed) : Prop :=
  exists node_path,
    which w (lit "node") = Some node_path /\ node_path <> [] /\
    path_exists w (script_path w) = Return true /\
    spawn w node_path (script_path w) (bridge_request action payload)
    = Return p.

(** A well-formed [BridgeResponse] of the protocol: a dict with a boolean
    [success]; when [success] is false, [error] is a string. *)
Definition well_formed_response (v : pyval) : bool :=
  match v with
  | PDict d =>
    match dict_lookup d (lit "success") with
    | Some (PBool true) => true
    | Some (PBool false) =>
      match dict_lookup d (lit "error") with
      | Some (PStr _) => true
      | _ => false
      end
    | _ => false
    end
  | _ => false
  end.

(** What the wallet classifier answers for the configured proxy wallet. *)
Definition classified_as_contract (w : World) : bool :=
  match outcome (is_contract_wallet w (PROXY_WALLET (ENV w))) with
  | Return b => b
  | Raise _ => false
  end.

(** The value of [payload[k]] in the payload [post_order] assembles. *)
Definition payload_field (w : World) (self : ClobClient)
    (signed_order : option dict) (order_type : str) (k : string) : pyval :=
  match post_order_payload w self signed_order order_type with
  | PDict d => get d (lit k)
  | _ => PNone
  end.

(** The value of [payload['order'][k]]. *)
Definition order_field (signed_order : option dict) (k : string) : pyval :=
  match post_order_args signed_order with
  | PDict d => get d (lit k)
  | _ => PNone
  end.

(** The client [create_clob_client] builds first, before it has
    credentials. *)
Definition first_client (w : World) (account : LocalAccount) : ClobClient :=
  ClobClient_init (CLOB_HTTP_URL (ENV w)) 137 account None
    (match getenv w (lit "CLOB_SIGNATURE_TYPE") with
     | Some (c :: o) => c :: o
     | _ => if classified_as_contract w then POLY_PROXY else EOA
     end)
    (if classified_as_contract w then Some (PROXY_WALLET (ENV w)) else None).

(** ** Sample worlds *)

Definition sample_env : Env :=
  {| RPC_URL := lit "https://polygon-rpc.com";
     CLOB_HTTP_URL := lit "https://clob.polymarket.com/";
     PRIVATE_KEY := lit "0x0123";
     PROXY_WALLET := lit "0xAbC0000000000000000000000000000000000001" |}.

Definition sample_account : LocalAccount :=
  {| account_address := lit "0xE0A0000000000000000000000000000000000002" |}.

(** The limits of an interpreter as it comes: [int] takes 4300 digits,
    and the recursion limit leaves room for 990 objects and arrays. *)
Definition sample_limits : Json.Limits := Json.cpython_limits 4300 990.

(** A world by the answers that matter here: the override variable, the
    code at any address, the runtime, the script, the child's run. *)
Definition sample_world (override : option str) (code : res bytes)
    (node : option str) (script_there : bool) (run : res Completed) : World :=
  {| ENV := sample_env;
     getenv := fun name =>
       if str_eqb name (lit "CLOB_SIGNATURE_TYPE") then override else None;
     to_checksum_address := fun a => Return a;
     get_code := fun _ _ => code;
     from_key := fun _ => Return sample_account;
     which := fun name => if str_eqb name (lit "node") then node else None;
     package_root := lit "/opt/bot/python";
     path_exists := fun _ => Return script_there;
     spawn := fun _ _ _ => run;
     limits := sample_limits |}.

(** Sample text is typed with apostrophes where the JSON text has double
    quotes. *)
Definition requote (a : ascii) : ascii :=
  if Ascii.eqb a "'" then ascii_of_N 34 else a.

Definition qlit (s : string) : str :=
  List.map (fun a => ch (requote a)) (list_ascii_of_string s).

Definition qblit (s : string) : bytes :=
  List.map (fun a => byte_of_ascii (requote a)) (list_ascii_of_string s).

(** The text of sample output, read as UTF-8. *)
Definition decoded (s : string) : str :=
  match utf8_decode (qblit s) with Some t => t | None => [] end.

Definition no_output : string := EmptyString.

Definition completed (rc : Z) (out err : string) : Completed :=
  {| returncode := rc; stdout := qblit out; stderr := qblit err |}.

(** A world whose bridge runs and exits as told; no override, an account
    without code. *)
Definition bridge_world (rc : Z) (out err : string) : World :=
  sample_world None (Return []) (Some (lit "/usr/bin/node")) true
    (Return (completed rc out err)).

(** A world for start-up: the override and the code at the proxy wallet. *)
Definition startup_world (override : option str) (code : res bytes) : World :=
  sample_world override code None false
    (Raise (Exception "OSError" (lit "not started"))).

(** Credential methods with fixed answers. *)
Definition fixed_methods (created derived : M dict) : CredentialMethods :=
  {| create_api_key := fun _ => created;
     derive_api_key := fun _ => derived |}.

Definition sample_order : dict :=
  [(lit "side", PStr (lit "BUY"));
   (lit "tokenID", PStr (lit "7132"));
   (lit "amount", PFloat (FDec false 125 (-1)));
   (lit "price", PFloat (FDec false 53 (-2)))].

Definition abc_credentials : dict :=
  [(lit "key", PStr (lit "abc"));
   (lit "secret", PStr (lit "c2VjcmV0"));
   (lit "passphrase", PStr (lit "open sesame"))].

Definition api_down : exn := Exception "HTTPError" (lit "503 Service Unavailable").

(** An account with code at its address, and the override set to EOA. *)
Definition override_world : World :=
  startup_world (Some (lit "EOA")) (Return [x60; x80; x60; x40]).

(** The override variable is set, to the empty string. *)
Definition blank_override_world : World :=
  startup_world (Some []) (Return [x60; x80; x60; x40]).

(** No override, and the RPC node does not answer. *)
Definition rpc_down_world : World :=
  startup_world None (Raise (Exception "ConnectionError" (lit "timed out"))).

(** An order that carries both spellings of the token field, the first
    one empty. *)
Definition two_token_order : dict :=
  [(lit "side", PStr (lit "SELL"));
   (lit "tokenID", PStr []);
   (lit "tokenId", PStr (lit "7132"))].

(** ** Further notions and samples *)

(** The text [run_clob_bridge] reports after a non-zero exit status:
    that of standard error, or of standard output when standard error is
    empty; [None] when the stream it has to read is not UTF-8 text. *)
Definition chosen_text (p : Completed) : option str :=
  match utf8_decode (stderr p) with
  | Some (c :: err) => Some (c :: err)
  | Some [] => utf8_decode (stdout p)
  | None => None
  end.

(** The stream of the finished process that [run_clob_bridge] has to
    read and cannot, if there is one: standard output after exit status
    0; after another status standard error, or standard output when
    standard error is empty. *)
Definition unreadable_stream (p : Completed) : option bytes :=
  if (returncode p =? 0)%Z then
    match utf8_decode (stdout p) with
    | None => Some (stdout p)
    | Some _ => None
    end
  else
    match utf8_decode (stderr p) with
    | None => Some (stderr p)
    | Some (_ :: _) => None
    | Some [] =>
      match utf8_decode (stdout p) with
      | None => Some (stdout p)
      | Some _ => None
      end
    end.

(** [k] slashes. *)
Definition slashes (k : nat) : str := repeat (ch "/") k.

(** Text that is white space throughout, as [str.strip] sees it. *)
Definition blank (s : str) : bool := forallb isspace s.

(** The octets of the UTF-8 byte-order mark. *)
Definition UTF8_BOM : bytes := [xef; xbb; xbf].

(** A network that answers every request alike. *)
Definition sample_http (status : res unit) (body : res pyval) : Http :=
  {| http_get := fun _ =>
       Return {| raise_for_status := status; json := body |} |}.

(** A world in which the code-at-address query answers [code]; no
    override. *)
Definition code_world (code : bytes) : World :=
  startup_world None (Return code).

(** [stdout.decode() or '{}']: the text [json.loads] is given. *)
Definition parsed_text (out : str) : str :=
  if str_truthy out then out else lit "{}".

(** The child exited with status 0 and the octets [out] on standard
    output, and a world in which it does. *)
Definition replied (out : bytes) : Completed :=
  {| returncode := 0; stdout := out; stderr := [] |}.

Definition reply_world (out : bytes) : World :=
  sample_world None (Return []) (Some (lit "/usr/bin/node")) true
    (Return (replied out)).

(** An integer of 4301 digits, one more than [int] takes as the
    interpreter comes: 4301 times the digit 1; an order confirmation
    that carries it, a text of the confirmation and the octets of the
    text; and an array that opens with the integer and is never
    closed. *)
Definition long_integer : Z := Z.of_N (Json.digits_value (repeat 49%N 4301)).

Definition long_order : pyval := PDict [(lit "orderID", PInt long_integer)].

Definition long_order_text : str :=
  qlit "{'orderID': " ++ repeat 49%N 4301 ++ lit "}".

Definition long_order_output : bytes :=
  qblit "{'orderID': " ++ repeat x31 4301 ++ blit "}".

Definition long_array_output : bytes := x5b :: repeat x31 4301.

(** The [ValueError] of [int] for 4301 digits under the limit of 4300. *)
Definition digits_exceeded : exn :=
  Exception "ValueError"
    (lit "Exceeds the limit (4300 digits) for integer string conversion: value has 4301 digits; use sys.set_int_max_str_digits() to increase the limit").

(** An interpreter without a limit on the digits of [int]
    ([sys.set_int_max_str_digits(0)]). *)
Definition unlimited_digits : Json.Limits := Json.cpython_limits 0 990.

(** An order confirmation with a character outside ASCII, and the octets
    of it as [JSON.stringify] writes it, the character as it is, with the
    line feed of [console.log] after it. *)
Definition sample_confirmation : pyval :=
  PDict [(lit "success", PBool true);
         (lit "orderID", PStr [48; 120; 233]%N);
         (lit "fills", PList [PInt 1; PFloat (FDec false 25 (-2)); PNone])].

Definition sample_confirmation_output : bytes :=
  qblit "{'success':true,'orderID':'0x" ++ [xc3; xa9]
  ++ qblit "','fills':[1,0.25,null]}" ++ [x0a].

(** The same confirmation as [JSON.stringify(v, null, 2)] lays it out,
    and in the layout of [json.dumps]. *)
Definition sample_confirmation_indented : bytes :=
  qblit "{
  'success': true,
  'orderID': '0x" ++ [xc3; xa9] ++ qblit "',
  'fills': [
    1,
    0.25,
    null
  ]
}
".

Definition sample_confirmation_escaped : bytes :=
  qblit "{'success': true, 'orderID': '0x\u00e9', 'fills': [1, 0.25, null]}".

(** A scan that read no value. *)
Definition reads_nothing {A} (r : Json.scan A) : Prop :=
  match r with Json.Scanned _ _ => False | _ => True end.

(** The result of a scan with [suf] appended to what the scan left
    unread: of the scan of a string, and of the scan of a value. *)
Definition string_followed_by {A} (suf : str) (r : option (A * str))
  : option (A * str) :=
  match r with
  | Some (x, rest) => Some (x, rest ++ suf)
  | None => None
  end.

Definition followed_by {A} (suf : str) (r : Json.scan A) : Json.scan A :=
  match r with
  | Json.Scanned x rest => Json.Scanned x (rest ++ suf)
  | Json.Refused => Json.Refused
  | Json.Stopped e => Json.Stopped e
  end.

(** * Properties *)

(** Goals with division and remainder by constants. *)
Ltac euclid := zify; Z.to_euclidean_division_equations; lia.

(** ** UTF-8 *)

Module Utf8Facts.

Import Py.
Local Open Scope N_scope.

Lemma to_N_byte_of_N (n : N) : n < 256 -> Byte.to_N (byte_of_N n) = n.
Proof.
  intros Hn. unfold byte_of_N. destruct (Byte.of_N n) as [b|] eqn:E.
  - apply Byte.to_of_N. exact E.
  - apply Byte.of_N_None_iff in E. lia.
Qed.

Ltac leb_true a b :=
  replace (a <=? b) with true by (symmetry; apply N.leb_le; lia).
Ltac leb_false a b :=
  replace (a <=? b) with false by (symmetry; apply N.leb_gt; lia).

(** [utf8_decode] on a sequence of one, two, three and four octets. *)
Lemma utf8_decode_1 (n0 : N) (t : bytes) :
  n0 <= 0x7F ->
  utf8_decode (byte_of_N n0 :: t) = option_map (cons n0) (utf8_decode t).
Proof.
  intros H0. cbn [utf8_decode]. rewrite to_N_byte_of_N by lia.
  leb_true n0 0x7F. reflexivity.
Qed.

Lemma utf8_decode_2 (n0 n1 : N) (t : bytes) :
  0xC2 <= n0 -> n0 <= 0xDF -> 0x80 <= n1 -> n1 <= 0xBF ->
  utf8_decode (byte_of_N n0 :: byte_of_N n1 :: t)
  = option_map (cons ((n0 - 0xC0) * 64 + (n1 - 0x80))) (utf8_decode t).
Proof.
  intros H0 H0' H1 H1'. cbn [utf8_decode]. rewrite !to_N_byte_of_N by lia.
  unfold is_cont.
  leb_false n0 0x7F. leb_true 0xC2 n0. leb_true n0 0xDF.
  leb_true 0x80 n1. leb_true n1 0xBF. reflexivity.
Qed.

Lemma utf8_decode_3 (n0 n1 n2 : N) (t : bytes) :
  0xE0 <= n0 -> n0 <= 0xEF ->
  0x80 <= n1 -> n1 <= 0xBF ->
  (n0 = 0xE0 -> 0xA0 <= n1) -> (n0 = 0xED -> n1 <= 0x9F) ->
  0x80 <= n2 -> n2 <= 0xBF ->
  utf8_decode (byte_of_N n0 :: byte_of_N n1 :: byte_of_N n2 :: t)
  = option_map (cons ((n0 - 0xE0) * 4096 + (n1 - 0x80) * 64 + (n2 - 0x80)))
      (utf8_decode t).
Proof.
  intros H0 H0' H1 H1' Hlo Hhi H2 H2'.
  cbn [utf8_decode]. rewrite !to_N_byte_of_N by lia.
  unfold is_cont.
  leb_false n0 0x7F. leb_false n0 0xDF. leb_true 0xE0 n0. leb_true n0 0xEF.
  leb_true 0x80 n2. leb_true n2 0xBF. rewrite andb_false_r. cbn [andb].
  destruct (N.eqb_spec n0 0xE0) as [E|E];
    destruct (N.eqb_spec n0 0xED) as [D|D]; try lia.
  - specialize (Hlo E). leb_true 0xA0 n1. leb_true n1 0xBF. reflexivity.
  - specialize (Hhi D). leb_true 0x80 n1. leb_true n1 0x9F. reflexivity.
  - leb_true 0x80 n1. leb_true n1 0xBF. reflexivity.
Qed.

Lemma utf8_decode_4 (n0 n1 n2 n3 : N) (t : bytes) :
  0xF0 <= n0 -> n0 <= 0xF4 ->
  0x80 <= n1 -> n1 <= 0xBF ->
  (n0 = 0xF0 -> 0x90 <= n1) -> (n0 = 0xF4 -> n1 <= 0x8F) ->
  0x80 <= n2 -> n2 <= 0xBF -> 0x80 <= n3 -> n3 <= 0xBF ->
  utf8_decode (byte_of_N n0 :: byte_of_N n1 :: byte_of_N n2 :: byte_of_N n3 :: t)
  = option_map
      (cons ((n0 - 0xF0) * 262144 + (n1 - 0x80) * 4096
             + (n2 - 0x80) * 64 + (n3 - 0x80)))
      (utf8_decode t).
Proof.
  intros H0 H0' H1 H1' Hlo Hhi H2 H2' H3 H3'.
  cbn [utf8_decode]. rewrite !to_N_byte_of_N by lia.
  unfold is_cont.
  leb_false n0 0x7F. leb_false n0 0xDF. leb_false n0 0xEF.
  leb_true 0xF0 n0. leb_true n0 0xF4.
  leb_true 0x80 n2. leb_true n2 0xBF. leb_true 0x80 n3. leb_true n3 0xBF.
  rewrite !andb_false_r. cbn [andb].
  destruct (N.eqb_spec n0 0xF0) as [E|E];
    destruct (N.eqb_spec n0 0xF4) as [D|D]; try lia.
  - specialize (Hlo E). leb_true 0x90 n1. leb_true n1 0xBF. reflexivity.
  - specialize (Hhi D). leb_true 0x80 n1. leb_true n1 0x8F. reflexivity.
  - leb_true 0x80 n1. leb_true n1 0xBF. reflexivity.
Qed.

Lemma utf8_decode_encoded (c : N) (rest : bytes) :
  match encode_char c with
  | Some bs =>
    utf8_decode (bs ++ rest) = option_map (cons c) (utf8_decode rest)
  | None => True
  end.
Proof.
  unfold encode_char.
  destruct (N.ltb_spec c 0x80).
  { apply utf8_decode_1. lia. }
  destruct (N.ltb_spec c 0x800).
  { cbn [app]. rewrite utf8_decode_2 by euclid.
    f_equal. f_equal. euclid. }
  destruct (N.ltb_spec c 0x10000).
  { destruct ((0xD800 <=? c) && (c <=? 0xDFFF)) eqn:Hs; [exact I|].
    assert (c < 0xD800 \/ 0xDFFF < c) as Hsur.
    { apply andb_false_iff in Hs. destruct Hs as [Hs|Hs].
      - apply N.leb_gt in Hs. lia.
      - apply N.leb_gt in Hs. lia. }
    cbn [app]. rewrite utf8_decode_3 by euclid.
    f_equal. f_equal. euclid. }
  destruct (N.ltb_spec c 0x110000); [|exact I].
  cbn [app]. rewrite utf8_decode_4 by euclid.
  f_equal. f_equal. euclid.
Qed.

Lemma utf8_decode_encode_char (c : N) (bs rest : bytes) :
  encode_char c = Some bs ->
  utf8_decode (bs ++ rest) = option_map (cons c) (utf8_decode rest).
Proof.
  intros H. pose proof (utf8_decode_encoded c rest) as Hd.
  rewrite H in Hd. exact Hd.
Qed.

(** Decoding undoes encoding. *)
Lemma utf8_decode_encode (s : str) (b : bytes) :
  utf8_encode s = Some b -> utf8_decode b = Some s.
Proof.
  revert b. induction s as [|c s IH]; intros b H.
  - injection H as <-. reflexivity.
  - cbn [utf8_encode] in H.
    destruct (encode_char c) as [bc|] eqn:Hc; [|discriminate].
    destruct (utf8_encode s) as [r|]; [|discriminate].
    injection H as <-.
    rewrite (@utf8_decode_encode_char c bc r Hc), (IH r eq_refl). reflexivity.
Qed.

Lemma option_map_none {A B} (f : A -> B) (o : option A) :
  option_map f o <> None <-> o <> None.
Proof. destruct o; simpl; split; intros H; congruence. Qed.

Ltac bools :=
  repeat match goal with
         | H : (_ <=? _) = true |- _ => apply N.leb_le in H
         | H : (_ <=? _) = false |- _ => apply N.leb_gt in H
         | H : (_ <? _) = true |- _ => apply N.ltb_lt in H
         | H : (_ <? _) = false |- _ => apply N.ltb_ge in H
         | H : (_ =? _) = true |- _ => apply N.eqb_eq in H
         | H : (_ =? _) = false |- _ => apply N.eqb_neq in H
         | H : (_ && _) = true |- _ => apply andb_prop in H; destruct H
         end.

Ltac split_ifs :=
  repeat match goal with
         | |- context [if ?b then _ else _] =>
           let E := fresh "E" in destruct b eqn:E
         end.

(** Strict decoding fails exactly when a fault is found, so that the
    [UnicodeDecodeError] has an octet to blame. *)
Lemma utf8_fault_decode (n : nat) :
  forall bs pos,
    (length bs <= n)%nat ->
    (utf8_fault pos bs = None <-> utf8_decode bs <> None).
Proof.
  induction n as [|n IH]; intros bs pos Hlen.
  - destruct bs; [|cbn [length] in Hlen; lia]. split; [discriminate|reflexivity].
  - destruct bs as [|b0 t0]; [split; [discriminate|reflexivity]|].
    cbn [length] in Hlen.
    cbn [utf8_fault utf8_decode]. cbv zeta. unfold is_cont.
    set (n0 := Byte.to_N b0).
    destruct (n0 <=? 127) eqn:H0.
    { rewrite option_map_none. apply IH. lia. }
    destruct (n0 <? 194) eqn:H1.
    { bools.
      replace (194 <=? n0) with false by (symmetry; apply N.leb_gt; lia).
      replace (224 <=? n0) with false by (symmetry; apply N.leb_gt; lia).
      replace (240 <=? n0) with false by (symmetry; apply N.leb_gt; lia).
      cbn [andb]. split; [discriminate|intros H; contradiction H; reflexivity]. }
    replace (194 <=? n0) with true by (symmetry; bools; apply N.leb_le; lia).
    cbn [andb].
    destruct (n0 <=? 223) eqn:H2.
    { destruct t0 as [|b1 t1];
        [split; [discriminate|intros H; contradiction H; reflexivity]|].
      cbn [length] in Hlen.
      destruct ((128 <=? Byte.to_N b1) && (Byte.to_N b1 <=? 191)).
      - rewrite option_map_none. apply IH. lia.
      - split; [discriminate|intros H; contradiction H; reflexivity]. }
    replace (224 <=? n0) with true by (symmetry; bools; apply N.leb_le; lia).
    cbn [andb].
    destruct (n0 <=? 239) eqn:H3.
    { destruct t0 as [|b1 t1];
        [split; [discriminate|intros H; contradiction H; reflexivity]|].
      destruct ((_ <=? Byte.to_N b1) && (Byte.to_N b1 <=? _)).
      - destruct t1 as [|b2 t2];
          [split; [discriminate|intros H; contradiction H; reflexivity]|].
        cbn [length] in Hlen. cbn [andb].
        destruct ((128 <=? Byte.to_N b2) && (Byte.to_N b2 <=? 191)).
        + rewrite option_map_none. apply IH. lia.
        + split; [discriminate|intros H; contradiction H; reflexivity].
      - cbn [andb]. destruct t1;
          split; try discriminate; intros H; contradiction H; reflexivity. }
    replace (240 <=? n0) with true by (symmetry; bools; apply N.leb_le; lia).
    cbn [andb].
    destruct (n0 <=? 244) eqn:H4.
    { destruct t0 as [|b1 t1];
        [split; [discriminate|intros H; contradiction H; reflexivity]|].
      destruct ((_ <=? Byte.to_N b1) && (Byte.to_N b1 <=? _)).
      - destruct t1 as [|b2 t2];
          [split; [discriminate|intros H; contradiction H; reflexivity]|].
        cbn [andb].
        destruct ((128 <=? Byte.to_N b2) && (Byte.to_N b2 <=? 191)).
        + destruct t2 as [|b3 t3];
            [split; [discriminate|intros H; contradiction H; reflexivity]|].
          cbn [length] in Hlen. cbn [andb].
          destruct ((128 <=? Byte.to_N b3) && (Byte.to_N b3 <=? 191)).
          * rewrite option_map_none. apply IH. lia.
          * split; [discriminate|intros H; contradiction H; reflexivity].
        + cbn [andb]. destruct t2;
            split; try discriminate; intros H; contradiction H; reflexivity.
      - cbn [andb]. destruct t1 as [|b2 [|b3 t3]];
          split; try discriminate; intros H; contradiction H; reflexivity. }
    split; [discriminate|intros H; contradiction H; reflexivity].
Qed.
Lemma utf8_decode_fails (b : bytes) :
  utf8_decode b = None <->
  exists start stop reason, utf8_fault 0 b = Some (start, stop, reason).
Proof.
  pose proof (@utf8_fault_decode (length b) b 0%nat (Nat.le_refl _)) as H.
  split.
  - intros Hdec.
    destruct (utf8_fault 0 b) as [[[start stop] reason]|] eqn:Hf.
    + exists start, stop, reason. reflexivity.
    + exfalso. apply (proj1 H eq_refl). exact Hdec.
  - intros (start & stop & reason & Hf).
    destruct (utf8_decode b) as [s|] eqn:Hd; [|reflexivity].
    exfalso. rewrite Hf in H.
    assert (Some (start, stop, reason) = None) as Hno
      by (apply (proj2 H); discriminate).
    discriminate.
Qed.

End Utf8Facts.

(** ** The decoder: how much of the text it reads, and how much fuel *)

Module JsonFacts.

Import Json JsonSpec.
Local Open Scope nat_scope.

Ltac break_match_in H :=
  match type of H with
  | context [match ?x with _ => _ end] => destruct x eqn:?
  | context [if ?x then _ else _] => destruct x eqn:?
  end.

Ltac break_all H := repeat (first [discriminate H | break_match_in H]).

Lemma skip_ws_length (s : str) : length (skip_ws s) <= length s.
Proof.
  induction s as [|c s IH]; simpl; [lia|].
  destruct (is_ws c); simpl; lia.
Qed.

Lemma consc_some {A} (c : A) (r : option (list A * str)) (l : list A)
    (rest : str) :
  consc c r = Some (l, rest) ->
  exists l', r = Some (l', rest) /\ l = c :: l'.
Proof.
  destruct r as [[l' rest']|]; simpl; [|discriminate].
  intros H. injection H as <- <-. eauto.
Qed.

Lemma scanstring_length_aux (n : nat) :
  forall s x r, length s <= n -> scanstring s = Some (x, r) ->
                length r < length s.
Proof.
  induction n as [|n IH]; intros s x r Hn H.
  - destruct s; [discriminate|simpl in Hn; lia].
  - destruct s as [|c t]; [discriminate|].
    cbn [scanstring] in H.
    break_all H;
      repeat match goal with
      | H' : consc _ _ = Some _ |- _ =>
        apply consc_some in H'; destruct H' as (? & H' & ?)
      | H' : scanstring _ = Some _ |- _ =>
        apply IH in H'; [|simpl in *; lia]
      | H' : Some _ = Some _ |- _ => injection H' as ? ?; subst
      end; simpl in *; lia.
Qed.

Lemma scanstring_length (s x r : str) :
  scanstring s = Some (x, r) -> length r < length s.
Proof. apply scanstring_length_aux with (n := length s). lia. Qed.

Lemma strip_prefix_length (p s r : str) :
  strip_prefix p s = Some r -> length s = length p + length r.
Proof.
  revert s. induction p as [|x p IH]; intros s H; simpl in H.
  - injection H as <-. reflexivity.
  - destruct s as [|y s]; [discriminate|].
    destruct (x =? y)%N; [|discriminate].
    apply IH in H. simpl. lia.
Qed.

Lemma span_digits_length (s d r : str) :
  span_digits s = (d, r) -> length s = length d + length r.
Proof.
  revert d r. induction s as [|c s IH]; intros d r H; simpl in H.
  - injection H as <- <-. reflexivity.
  - destruct (is_digit c).
    + destruct (span_digits s) as [d' r'] eqn:Hs.
      injection H as <- <-. specialize (IH _ _ eq_refl). simpl. lia.
    + injection H as <- <-. reflexivity.
Qed.

Lemma int_part_length (s d r : str) :
  int_part s = Some (d, r) -> length r < length s.
Proof.
  unfold int_part. intros H. destruct s as [|c t]; [discriminate|].
  destruct (c =? ZERO)%N.
  - injection H as <- <-. simpl. lia.
  - destruct (is_digit c); [|discriminate].
    destruct (span_digits t) as [d' r'] eqn:Hs.
    injection H as <- <-. apply span_digits_length in Hs. simpl. lia.
Qed.

Lemma frac_part_length (s d r : str) :
  frac_part s = (d, r) -> length r <= length s.
Proof.
  unfold frac_part. intros H.
  destruct s as [|p [|d0 t]]; try (injection H as <- <-; simpl; lia).
  destruct ((p =? DOT)%N && is_digit d0).
  - destruct (span_digits t) as [d' r'] eqn:Hs.
    injection H as <- <-. apply span_digits_length in Hs. simpl. lia.
  - injection H as <- <-. simpl. lia.
Qed.

Lemma exp_part_length (s r : str) (e : Z) :
  exp_part s = Some (e, r) -> length r <= length s.
Proof.
  unfold exp_part. intros H. destruct s as [|c t]; [discriminate|].
  destruct ((c =? 101)%N || (c =? 69)%N); [|discriminate].
  destruct t as [|sg t'].
  - simpl in H. discriminate.
  - destruct (sg =? MINUS)%N; [|destruct (sg =? PLUS)%N];
      (destruct (span_digits _) as [ds r'] eqn:Hs;
       destruct ds; [discriminate|];
       injection H as <- <-; apply span_digits_length in Hs;
       simpl in *; lia).
Qed.

Lemma match_number_length (lim : Limits) (s r : str) (v : pyval) :
  match_number lim s = Scanned v r -> length r < length s.
Proof.
  unfold match_number. intros H.
  destruct (match s with
            | [] => (false, s)
            | c :: t => if (c =? MINUS)%N then (true, t) else (false, s)
            end) as [neg s1] eqn:Hsign.
  assert (length s1 <= length s) as Hs1.
  { destruct s as [|c t]; [injection Hsign as <- <-; lia|].
    destruct (c =? MINUS)%N; injection Hsign as <- <-; simpl; lia. }
  destruct (int_part s1) as [[idigs s2]|] eqn:Hint; [|discriminate].
  apply int_part_length in Hint.
  destruct (frac_part s2) as [fdigs s3] eqn:Hfrac.
  apply frac_part_length in Hfrac.
  destruct (exp_part s3) as [[e s4]|] eqn:Hexp.
  - apply exp_part_length in Hexp.
    destruct fdigs; injection H as <- <-; lia.
  - destruct fdigs.
    + destruct (over_limit lim (length idigs)); [discriminate|].
      injection H as <- <-. lia.
    + injection H as <- <-. lia.
Qed.

Lemma scan_atom_length (lim : Limits) (s r : str) (v : pyval) :
  scan_atom lim s = Scanned v r -> length r < length s.
Proof.
  unfold scan_atom. intros H.
  repeat match type of H with
         | context [strip_prefix ?p s] =>
           let E := fresh "E" in
           destruct (strip_prefix p s) eqn:E;
             [apply strip_prefix_length in E; injection H as <- <-;
              rewrite E; simpl; lia|]
         end.
  exact (match_number_length _ _ H).
Qed.

Lemma push_scanned {A} (a : A) (r : scan (list A)) (l : list A) (rest : str) :
  push a r = Scanned l rest ->
  exists l', r = Scanned l' rest /\ l = a :: l'.
Proof.
  destruct r as [l' rest'| |e]; simpl; try discriminate.
  intros H. injection H as <- <-. eauto.
Qed.

Lemma refuse_scanned {A} (lim : Limits) (d : nat) (a : A) (rest : str) :
  @refuse A lim d <> Scanned a rest.
Proof. unfold refuse. destruct (report_check lim d); discriminate. Qed.

Ltac no_refuse H :=
  solve [discriminate H | exfalso; exact (refuse_scanned _ _ H)].

(** A scan that succeeds has read at least one character. *)
Lemma scan_shrinks (lim : Limits) (n : nat) :
  (forall d s v rest,
      scan_once lim n d s = Scanned v rest -> length rest < length s) /\
  (forall d s ps rest,
      parse_members lim n d s = Scanned ps rest -> length rest < length s) /\
  (forall d s vs rest,
      parse_elements lim n d s = Scanned vs rest -> length rest < length s).
Proof.
  induction n as [|n (IHs & IHm & IHe)].
  - repeat split; discriminate.
  - split; [|split].
    + intros d s v rest H. cbn [scan_once] in H.
      destruct s as [|c t]; [discriminate|].
      destruct (c =? QUOTE)%N.
      { destruct (scanstring t) as [[x r]|] eqn:Hstr; [|no_refuse H].
        injection H as <- <-. pose proof (scanstring_length _ Hstr).
        simpl. lia. }
      destruct (c =? LBRACE)%N.
      { destruct (may_enter lim d); [|discriminate].
        pose proof (skip_ws_length t) as Hws.
        destruct (skip_ws t) as [|c1 t1]; [no_refuse H|].
        destruct (c1 =? RBRACE)%N.
        - injection H as <- <-. cbn [length] in *. lia.
        - destruct (parse_members lim n (S d) (c1 :: t1)) as [ps r| |e] eqn:Hp;
            try discriminate.
          injection H as <- <-. apply IHm in Hp. cbn [length] in *. lia. }
      destruct (c =? LBRACKET)%N.
      { destruct (may_enter lim d); [|discriminate].
        pose proof (skip_ws_length t) as Hws.
        destruct (skip_ws t) as [|c1 t1]; [discriminate|].
        destruct (c1 =? RBRACKET)%N.
        - injection H as <- <-. cbn [length] in *. lia.
        - destruct (parse_elements lim n (S d) (c1 :: t1)) as [vs r| |e] eqn:Hp;
            try discriminate.
          injection H as <- <-. apply IHe in Hp. cbn [length] in *. lia. }
      exact (scan_atom_length _ _ H).
    + intros d s ps rest H. cbn [parse_members] in H.
      destruct s as [|q t]; [no_refuse H|].
      destruct (q =? QUOTE)%N; [|no_refuse H].
      destruct (scanstring t) as [[key s1]|] eqn:Hstr; [|no_refuse H].
      pose proof (scanstring_length _ Hstr) as Hl1.
      pose proof (skip_ws_length s1) as Hw1.
      destruct (skip_ws s1) as [|c s2]; [no_refuse H|].
      destruct (c =? COLON)%N; [|no_refuse H].
      pose proof (skip_ws_length s2) as Hw2.
      destruct (scan_once lim n d (skip_ws s2)) as [v s3| |e] eqn:Hv;
        try discriminate.
      apply IHs in Hv.
      pose proof (skip_ws_length s3) as Hw3.
      destruct (skip_ws s3) as [|x s4]; [no_refuse H|].
      destruct (x =? RBRACE)%N.
      * injection H as <- <-. cbn [length] in *. lia.
      * destruct (x =? COMMA)%N; [|no_refuse H].
        apply push_scanned in H. destruct H as (ps' & Hrest & ->).
        apply IHm in Hrest. pose proof (skip_ws_length s4).
        cbn [length] in *. lia.
    + intros d s vs rest H. cbn [parse_elements] in H.
      destruct (scan_once lim n d s) as [v s1| |e] eqn:Hv; try discriminate.
      apply IHs in Hv.
      pose proof (skip_ws_length s1) as Hw1.
      destruct (skip_ws s1) as [|x s2]; [no_refuse H|].
      destruct (x =? RBRACKET)%N.
      * injection H as <- <-. cbn [length] in *. lia.
      * destruct (x =? COMMA)%N; [|no_refuse H].
        apply push_scanned in H. destruct H as (vs' & Hrest & ->).
        apply IHe in Hrest. pose proof (skip_ws_length s2).
        cbn [length] in *. lia.
Qed.

(** The scanner, one step at a time. *)
Lemma scan_once_S (lim : Limits) (n d : nat) (c : N) (t : str) :
  scan_once lim (S n) d (c :: t) =
  (if (c =? QUOTE)%N then
     match scanstring t with
     | Some (x, r) => Scanned (PStr x) r
     | None => refuse lim d
     end
   else if (c =? LBRACE)%N then
     if may_enter lim d then
       match skip_ws t with
       | c1 :: t1 =>
         if (c1 =? RBRACE)%N then Scanned (PDict []) t1
         else
           match parse_members lim n (S d) (c1 :: t1) with
           | Scanned pairs r => Scanned (PDict (dict_of_pairs pairs)) r
           | Refused => Refused
           | Stopped e => Stopped e
           end
       | [] => refuse lim (S d)
       end
     else Stopped (recursion_error "object")
   else if (c =? LBRACKET)%N then
     if may_enter lim d then
       match skip_ws t with
       | c1 :: t1 =>
         if (c1 =? RBRACKET)%N then Scanned (PList []) t1
         else
           match parse_elements lim n (S d) (c1 :: t1) with
           | Scanned vs r => Scanned (PList vs) r
           | Refused => Refused
           | Stopped e => Stopped e
           end
       | [] => Refused
       end
     else Stopped (recursion_error "array")
   else scan_atom lim (c :: t)).
Proof. reflexivity. Qed.

Lemma parse_members_S (lim : Limits) (n d : nat) (q : N) (t : str) :
  parse_members lim (S n) d (q :: t) =
  (if (q =? QUOTE)%N then
     match scanstring t with
     | None => refuse lim d
     | Some (key, s1) =>
       match skip_ws s1 with
       | c :: s2 =>
         if (c =? COLON)%N then
           match scan_once lim n d (skip_ws s2) with
           | Refused => Refused
           | Stopped e => Stopped e
           | Scanned v s3 =>
             match skip_ws s3 with
             | x :: s4 =>
               if (x =? RBRACE)%N then Scanned [(key, v)] s4
               else if (x =? COMMA)%N
               then push (key, v) (parse_members lim n d (skip_ws s4))
               else refuse lim d
             | [] => refuse lim d
             end
           end
         else refuse lim d
       | [] => refuse lim d
       end
     end
   else refuse lim d).
Proof. reflexivity. Qed.

Lemma parse_elements_S (lim : Limits) (n d : nat) (s : str) :
  parse_elements lim (S n) d s =
  match scan_once lim n d s with
  | Refused => Refused
  | Stopped e => Stopped e
  | Scanned v s1 =>
    match skip_ws s1 with
    | x :: s2 =>
      if (x =? RBRACKET)%N then Scanned [v] s2
      else if (x =? COMMA)%N
      then push v (parse_elements lim n d (skip_ws s2))
      else refuse lim d
    | [] => refuse lim d
    end
  end.
Proof. reflexivity. Qed.

(** With fuel enough for the text, one more changes nothing. *)
Lemma scan_stable_step (lim : Limits) (n : nat) :
  (forall d s,
      2 * length s + 1 <= n ->
      scan_once lim (S n) d s = scan_once lim n d s) /\
  (forall d s,
      2 * length s + 2 <= n ->
      parse_members lim (S n) d s = parse_members lim n d s) /\
  (forall d s,
      2 * length s + 2 <= n ->
      parse_elements lim (S n) d s = parse_elements lim n d s).
Proof.
  induction n as [|n (IHs & IHm & IHe)].
  - repeat split; intros; lia.
  - destruct (scan_shrinks lim n) as (Hss & _ & _).
    split; [|split]; intros d s Hn.
    + destruct s as [|c t]; [reflexivity|].
      cbn [length] in Hn.
      rewrite (scan_once_S lim (S n)), (scan_once_S lim n).
      pose proof (skip_ws_length t) as Hws.
      destruct (skip_ws t) as [|c1 t1]; [reflexivity|].
      cbn [length] in Hws.
      rewrite (IHm (S d) (c1 :: t1)) by (cbn [length]; lia).
      rewrite (IHe (S d) (c1 :: t1)) by (cbn [length]; lia).
      reflexivity.
    + destruct s as [|q t]; [reflexivity|].
      cbn [length] in Hn.
      rewrite (parse_members_S lim (S n)), (parse_members_S lim n).
      destruct (q =? QUOTE)%N; [|reflexivity].
      destruct (scanstring t) as [[key s1]|] eqn:Hstr; [|reflexivity].
      pose proof (scanstring_length _ Hstr) as Hl1.
      pose proof (skip_ws_length s1) as Hw1.
      destruct (skip_ws s1) as [|c s2]; [reflexivity|].
      destruct (c =? COLON)%N; [|reflexivity].
      pose proof (skip_ws_length s2) as Hw2. cbn [length] in *.
      rewrite (IHs d (skip_ws s2)) by lia.
      destruct (scan_once lim n d (skip_ws s2)) as [v s3| |e] eqn:Hv;
        try reflexivity.
      apply Hss in Hv.
      pose proof (skip_ws_length s3) as Hw3.
      destruct (skip_ws s3) as [|x s4]; [reflexivity|].
      destruct (x =? RBRACE)%N; [reflexivity|].
      destruct (x =? COMMA)%N; [|reflexivity].
      pose proof (skip_ws_length s4) as Hw4. cbn [length] in *.
      rewrite (IHm d (skip_ws s4)) by lia. reflexivity.
    + rewrite (parse_elements_S lim (S n)), (parse_elements_S lim n).
      rewrite (IHs d s) by lia.
      destruct (scan_once lim n d s) as [v s1| |e] eqn:Hv; try reflexivity.
      apply Hss in Hv.
      pose proof (skip_ws_length s1) as Hw1.
      destruct (skip_ws s1) as [|x s2]; [reflexivity|].
      destruct (x =? RBRACKET)%N; [reflexivity|].
      destruct (x =? COMMA)%N; [|reflexivity].
      pose proof (skip_ws_length s2) as Hw2. cbn [length] in *.
      rewrite (IHe d (skip_ws s2)) by lia. reflexivity.
Qed.

(** The result of a scan does not depend on the fuel, once there is
    enough of it for the text: whether the scan gives a value, refuses
    the text or stops on an error. *)
Lemma scan_once_any_fuel (lim : Limits) (n m d : nat) (s : str) :
  2 * length s + 1 <= n -> 2 * length s + 1 <= m ->
  scan_once lim n d s = scan_once lim m d s.
Proof.
  assert (forall k n, 2 * length s + 1 <= n ->
                      scan_once lim (k + n) d s = scan_once lim n d s) as Hup.
  { induction k as [|k IH]; intros n' Hn'; [reflexivity|].
    change (S k + n') with (S (k + n')).
    destruct (scan_stable_step lim (k + n')) as (Hs & _).
    rewrite Hs by lia. apply IH. exact Hn'. }
  intros Hn Hm. destruct (Nat.le_ge_cases n m) as [Hle|Hle].
  - replace m with ((m - n) + n) by lia. symmetry. apply Hup. exact Hn.
  - replace n with ((n - m) + m) by lia. apply Hup. exact Hm.
Qed.

(** So the answer of [json_loads] is that of the scanner with any fuel
    that is enough for the text: no refusal is for want of fuel. *)
Lemma json_loads_any_fuel (lim : Limits) (n : nat) (c : N) (t : str) :
  2 * length (c :: t) + 1 <= n ->
  json_loads lim (c :: t)
  = if (c =? BOM)%N then JSONDecodeError
    else
      match scan_once lim n 0 (skip_ws (c :: t)) with
      | Scanned v r =>
        match skip_ws r with [] => Loaded v | _ => JSONDecodeError end
      | Refused => JSONDecodeError
      | Stopped e => Raised e
      end.
Proof.
  intros Hn. unfold json_loads.
  pose proof (skip_ws_length (c :: t)) as Hws.
  rewrite (@scan_once_any_fuel lim (2 * length (c :: t) + 1) n 0
             (skip_ws (c :: t))) by lia.
  reflexivity.
Qed.

End JsonFacts.

(** ** The decoder reads back the text of a value *)

Module JsonRoundTrip.

Import Json JsonSpec.
Local Open Scope N_scope.

(** *** Numerals *)

Lemma digits_value_snoc (ds : str) (d : N) :
  digits_value (ds ++ [d]) = digits_value ds * 10 + (d - ZERO).
Proof. unfold digits_value. rewrite fold_left_app. reflexivity. Qed.

Lemma cons_inj {A} (a b : A) (l m : list A) :
  a :: l = b :: m -> a = b /\ l = m.
Proof. intros H. injection H as -> ->. split; reflexivity. Qed.

Lemma is_digit_of (k : N) : k < 10 -> is_digit (ZERO + k) = true.
Proof.
  intros Hk. unfold is_digit, ZERO.
  apply andb_true_intro. split; apply N.leb_le; lia.
Qed.

Lemma digits_fuel_S (f : nat) (n : N) (acc : str) :
  digits_fuel (S f) n acc =
  if n <? 10 then (ZERO + n mod 10) :: acc
  else digits_fuel f (n / 10) ((ZERO + n mod 10) :: acc).
Proof. reflexivity. Qed.

Lemma digits_fuel_numeral (f : nat) :
  forall n acc,
    n < 2 ^ N.of_nat (S f) ->
    exists ds, digits_fuel (S f) n acc = ds ++ acc /\ numeral n ds.
Proof.
  induction f as [|f IH]; intros n acc Hn.
  - assert (n < 10) as H10 by (change (2 ^ N.of_nat 1) with 2 in Hn; lia).
    exists [ZERO + n mod 10]. rewrite digits_fuel_S.
    apply N.ltb_lt in H10 as Hb. rewrite Hb. split; [reflexivity|].
    rewrite N.mod_small by exact H10.
    split.
    + constructor; [apply is_digit_of; exact H10|constructor].
    + discriminate.
    + unfold digits_value, ZERO. cbn [fold_left]. lia.
    + intros t Ht. apply cons_inj in Ht. destruct Ht as (Hz & <-).
      split; [reflexivity|]. unfold ZERO in Hz. lia.
  - rewrite (digits_fuel_S (S f)). destruct (n <? 10) eqn:Hb.
    + apply N.ltb_lt in Hb.
      exists [ZERO + n mod 10]. split; [reflexivity|].
      rewrite N.mod_small by exact Hb.
      split.
      * constructor; [apply is_digit_of; exact Hb|constructor].
      * discriminate.
      * unfold digits_value, ZERO. cbn [fold_left]. lia.
      * intros t Ht. apply cons_inj in Ht. destruct Ht as (Hz & <-).
        split; [reflexivity|]. unfold ZERO in Hz. lia.
    + apply N.ltb_ge in Hb.
      assert (n / 10 < 2 ^ N.of_nat (S f)) as Hq.
      { apply N.Div0.div_lt_upper_bound.
        replace (N.of_nat (S (S f))) with (N.succ (N.of_nat (S f))) in Hn by lia.
        rewrite N.pow_succ_r' in Hn. lia. }
      destruct (IH (n / 10) ((ZERO + n mod 10) :: acc) Hq) as (ds & Hds & Hnum).
      exists (ds ++ [ZERO + n mod 10]). split.
      * rewrite Hds, <- app_assoc. reflexivity.
      * destruct Hnum as [Hdig Hne Hval Hzero].
        assert (n mod 10 < 10) as Hm by (apply N.mod_lt; lia).
        split.
        -- apply Forall_app. split; [exact Hdig|].
           constructor; [apply is_digit_of; exact Hm|constructor].
        -- destruct ds; discriminate.
        -- rewrite digits_value_snoc, Hval.
           pose proof (N.div_mod n 10) as Hdm.
           remember (n mod 10) as r. remember (n / 10) as q.
           unfold ZERO. lia.
        -- intros t Ht. destruct ds as [|d ds]; [contradiction|].
           apply cons_inj in Ht. destruct Ht as (-> & _).
           destruct (Hzero ds eq_refl) as (_ & Hq0).
           assert (10 <= n) as Hge by exact Hb.
           assert (1 <= n / 10) by (apply N.div_le_lower_bound; lia).
           lia.
Qed.

Lemma digits_numeral (n : N) : numeral n (digits n).
Proof.
  unfold digits.
  destruct (@digits_fuel_numeral (N.to_nat (N.log2 n)) n []) as (ds & Hds & Hnum).
  - destruct (N.eq_dec n 0) as [->|Hn].
    + reflexivity.
    + destruct (N.log2_spec n) as (_ & Hlt); [lia|].
      replace (N.of_nat (S (N.to_nat (N.log2 n)))) with (N.succ (N.log2 n))
        by lia.
      exact Hlt.
  - rewrite Hds, app_nil_r. exact Hnum.
Qed.

Lemma span_digits_app (ds rest : str) :
  Forall (fun c => is_digit c = true) ds -> no_digit rest ->
  span_digits (ds ++ rest) = (ds, rest).
Proof.
  intros Hds Hrest. induction Hds as [|c ds Hc _ IH]; cbn [app span_digits].
  - destruct rest as [|c r]; [reflexivity|]. cbn [span_digits].
    unfold no_digit in Hrest. rewrite Hrest. reflexivity.
  - rewrite Hc, IH. reflexivity.
Qed.

Lemma int_part_numeral (n : N) (ds rest : str) :
  numeral n ds -> no_digit rest -> int_part (ds ++ rest) = Some (ds, rest).
Proof.
  intros [Hdig Hne _ Hzero] Hrest.
  destruct ds as [|c t]; [contradiction|].
  inversion Hdig as [|? ? Hc Ht]; subst.
  cbn [int_part app]. destruct (c =? ZERO) eqn:Hz.
  - apply N.eqb_eq in Hz. subst c.
    destruct (Hzero t eq_refl) as (-> & _). reflexivity.
  - rewrite Hc, (span_digits_app _ Ht Hrest). reflexivity.
Qed.

Lemma is_ws_cases (c : N) :
  is_ws c = true -> c = 0x20 \/ c = 0x09 \/ c = 0x0A \/ c = 0x0D.
Proof.
  unfold is_ws. rewrite !orb_true_iff, !N.eqb_eq. tauto.
Qed.

(** What can follow a value is one of seven characters. *)
Lemma closes_cases (c : N) (r : str) :
  closes (c :: r) ->
  c = COMMA \/ c = RBRACKET \/ c = RBRACE \/
  c = 0x20 \/ c = 0x09 \/ c = 0x0A \/ c = 0x0D.
Proof.
  intros [H|[H|[H|H]]]; auto.
  apply is_ws_cases in H. tauto.
Qed.

Ltac by_closes H :=
  destruct (closes_cases H) as [-> | [-> | [-> | [-> | [-> | [-> | ->]]]]]];
  reflexivity.

Lemma closes_no_digit (rest : str) : closes rest -> no_digit rest.
Proof.
  destruct rest as [|c r]; [trivial|]. intros H. by_closes H.
Qed.

Lemma closes_frac_part (rest : str) : closes rest -> frac_part rest = ([], rest).
Proof.
  destruct rest as [|c [|d r]]; try reflexivity. intros H. by_closes H.
Qed.

Lemma closes_exp_part (rest : str) : closes rest -> exp_part rest = None.
Proof.
  destruct rest as [|c r]; [reflexivity|]. intros H. by_closes H.
Qed.

Lemma numeral_head (n : N) (ds : str) :
  numeral n ds -> exists c t, ds = c :: t /\ is_digit c = true.
Proof.
  intros [Hdig Hne _ _]. destruct ds as [|c t]; [contradiction|].
  inversion Hdig; subst. eauto.
Qed.

Lemma digit_neq (c k : N) :
  is_digit c = true -> is_digit k = false -> (k =? c) = false.
Proof.
  intros Hc Hk. destruct (N.eqb_spec k c) as [->|]; [congruence|reflexivity].
Qed.

Lemma digit_neq_r (c k : N) :
  is_digit c = true -> is_digit k = false -> (c =? k) = false.
Proof.
  intros Hc Hk. destruct (N.eqb_spec c k) as [->|]; [congruence|reflexivity].
Qed.

Ltac eval_lits :=
  repeat match goal with
         | |- context [lit ?s] =>
           let l := eval vm_compute in (lit s) in change (lit s) with l
         end.

(** A text that starts with a digit, or with a minus sign and a digit, is
    none of the constants. *)
Lemma scan_atom_digit (lim : Limits) (c : N) (t : str) :
  is_digit c = true -> scan_atom lim (c :: t) = match_number lim (c :: t).
Proof.
  intros Hc. unfold scan_atom. eval_lits. cbn [strip_prefix].
  rewrite !(@digit_neq c _ Hc) by reflexivity. reflexivity.
Qed.

Lemma scan_atom_minus_digit (lim : Limits) (c : N) (t : str) :
  is_digit c = true ->
  scan_atom lim (MINUS :: c :: t) = match_number lim (MINUS :: c :: t).
Proof.
  intros Hc. unfold scan_atom. eval_lits. cbn [strip_prefix].
  change (110 =? MINUS) with false. change (116 =? MINUS) with false.
  change (102 =? MINUS) with false. change (78 =? MINUS) with false.
  change (73 =? MINUS) with false. change (45 =? MINUS) with true.
  cbv iota. rewrite (@digit_neq c _ Hc) by reflexivity. reflexivity.
Qed.

(** The start of a number: the sign and the integer part are read, the
    rest of the number is looked for in what follows. *)
Lemma match_number_numeral (lim : Limits) (neg : bool) (n : N)
    (ds tail : str) :
  numeral n ds -> no_digit tail ->
  match_number lim (sign_text neg ++ ds ++ tail) =
  let '(fdigs, s3) := frac_part tail in
  match fdigs, exp_part s3 with
  | [], None =>
    if over_limit lim (length ds)
    then Stopped (digits_error lim (length ds))
    else Scanned (PInt (signed neg n)) s3
  | _, None =>
    Scanned (PFloat (FDec neg (digits_value (ds ++ fdigs))
                          (- Z.of_nat (length fdigs)))) s3
  | _, Some (e, s4) =>
    Scanned (PFloat (FDec neg (digits_value (ds ++ fdigs))
                          (e - Z.of_nat (length fdigs)))) s4
  end.
Proof.
  intros Hnum Htail.
  destruct (numeral_head Hnum) as (c & t & Hds & Hc).
  pose proof (int_part_numeral _ Hnum Htail) as Hint.
  pose proof (numeral_value Hnum) as Hval.
  unfold match_number. destruct neg; cbn [sign_text app].
  - change (MINUS =? MINUS) with true. cbv iota.
    rewrite Hint, Hval. reflexivity.
  - rewrite Hds in *. cbn [app].
    rewrite (@digit_neq_r c _ Hc) by reflexivity.
    cbn [app] in Hint. rewrite Hint, Hval. reflexivity.
Qed.

Lemma signed_abs (z : Z) : signed (z <? 0)%Z (Z.abs_N z) = z.
Proof.
  unfold signed. destruct (z <? 0)%Z eqn:Hz.
  - apply Z.ltb_lt in Hz. rewrite N2Z.inj_abs_N. lia.
  - apply Z.ltb_ge in Hz. rewrite N2Z.inj_abs_N. lia.
Qed.

Lemma dump_int_sign (z : Z) :
  dump_int z = sign_text (z <? 0)%Z ++ digits (Z.abs_N z).
Proof. reflexivity. Qed.

(** A text that starts as a number starts is scanned as a number. *)
Lemma scan_atom_numeral (lim : Limits) (neg : bool) (n : N) (ds tail : str) :
  numeral n ds ->
  scan_atom lim (sign_text neg ++ ds ++ tail)
  = match_number lim (sign_text neg ++ ds ++ tail).
Proof.
  intros Hnum. destruct (numeral_head Hnum) as (c & t & Hds & Hc).
  rewrite Hds. destruct neg; cbn [sign_text app].
  - apply scan_atom_minus_digit. exact Hc.
  - apply scan_atom_digit. exact Hc.
Qed.

Lemma scan_atom_signed (lim : Limits) (neg : bool) (n : N) (tail : str) :
  scan_atom lim (sign_text neg ++ digits n ++ tail)
  = match_number lim (sign_text neg ++ digits n ++ tail).
Proof. apply (@scan_atom_numeral lim neg n (digits n) tail (digits_numeral n)). Qed.

(** An integer is read back. *)
Lemma scan_atom_int (lim : Limits) (z : Z) (rest : str) :
  over_limit lim (length (digits (Z.abs_N z))) = false ->
  closes rest -> scan_atom lim (dump_int z ++ rest) = Scanned (PInt z) rest.
Proof.
  intros Hlim Hrest. rewrite dump_int_sign, <- app_assoc, scan_atom_signed.
  rewrite (@match_number_numeral lim _ _ _ _ (digits_numeral _)
             (closes_no_digit _ Hrest)).
  rewrite (closes_frac_part _ Hrest), (closes_exp_part _ Hrest), signed_abs.
  rewrite Hlim. reflexivity.
Qed.

Lemma exp_part_int (e : Z) (rest : str) :
  closes rest -> exp_part (101 :: dump_int e ++ rest) = Some (e, rest).
Proof.
  intros Hrest. apply closes_no_digit in Hrest.
  pose proof (digits_numeral (Z.abs_N e)) as Hnum.
  destruct (numeral_head Hnum) as (c & t & Hds & Hc).
  pose proof (span_digits_app _ (numeral_digits Hnum) Hrest) as Hspan.
  pose proof (numeral_value Hnum) as Hval.
  rewrite <- (signed_abs e) at 2.
  unfold exp_part. change ((101 =? 101) || (101 =? 69)) with true. cbv iota.
  rewrite dump_int_sign, <- app_assoc.
  destruct (e <? 0)%Z; cbn [sign_text app].
  - change (MINUS =? MINUS) with true. cbv iota.
    rewrite Hspan, Hval, Hds. reflexivity.
  - rewrite Hds in *. cbn [app] in *.
    rewrite !(@digit_neq_r c _ Hc) by reflexivity.
    rewrite Hspan, Hval. reflexivity.
Qed.

Lemma frac_part_no_point (c : N) (s : str) :
  (c =? DOT) = false -> frac_part (c :: s) = ([], c :: s).
Proof.
  intros Hc. unfold frac_part. destruct s as [|d t]; [reflexivity|].
  rewrite Hc. reflexivity.
Qed.

(** The fraction of a number written with a point. *)
Lemma frac_part_digits (d0 : N) (fd rest : str) :
  Forall (fun c => is_digit c = true) (d0 :: fd) -> no_digit rest ->
  frac_part (DOT :: (d0 :: fd) ++ rest) = (d0 :: fd, rest).
Proof.
  intros Hdig Hrest. inversion Hdig as [|? ? Hd Hfd]; subst.
  cbn [app]. unfold frac_part. change (DOT =? DOT) with true.
  rewrite Hd. cbn [andb]. rewrite (span_digits_app _ Hfd Hrest). reflexivity.
Qed.

Lemma digits_value_zeros (j : nat) (ds : str) :
  digits_value (repeat ZERO j ++ ds) = digits_value ds.
Proof.
  unfold digits_value. induction j as [|j IH]; [reflexivity|].
  cbn [repeat app fold_left]. exact IH.
Qed.

Lemma Forall_digit_zeros (j : nat) :
  Forall (fun c => is_digit c = true) (repeat ZERO j).
Proof. induction j; constructor; [reflexivity|assumption]. Qed.

(** The parts of a number written with a point: an integer part that is
    a numeral, and [k] digits after the point; together they are worth
    [m]. *)
Lemma dump_point_parts (m : N) (k : nat) :
  (1 <= k)%nat ->
  exists idigs fdigs i,
    dump_point m k = idigs ++ DOT :: fdigs /\
    numeral i idigs /\
    Forall (fun c => is_digit c = true) fdigs /\
    length fdigs = k /\
    digits_value (idigs ++ fdigs) = m.
Proof.
  intros Hk. pose proof (digits_numeral m) as [Hdig Hne Hval Hzero].
  unfold dump_point. destruct (Nat.ltb_spec k (length (digits m))) as [Hlt|Hge].
  - set (n := length (digits m)) in *.
    exists (firstn (n - k) (digits m)), (skipn (n - k) (digits m)),
      (digits_value (firstn (n - k) (digits m))).
    split; [reflexivity|]. split; [|split; [|split]].
    + split.
      * rewrite <- (firstn_skipn (n - k) (digits m)) in Hdig.
        apply Forall_app in Hdig. exact (proj1 Hdig).
      * intros Hnil. apply (f_equal (@length N)) in Hnil.
        rewrite length_firstn in Hnil. cbn [length] in Hnil. lia.
      * reflexivity.
      * intros t Ht. exfalso.
        destruct (digits m) as [|c ds] eqn:Hds; [contradiction|].
        destruct (n - k)%nat as [|j] eqn:Hj; [lia|].
        cbn [firstn] in Ht. apply cons_inj in Ht. destruct Ht as (-> & _).
        destruct (Hzero ds eq_refl) as (-> & _).
        unfold n in Hlt. cbn [length] in Hlt. lia.
    + rewrite <- (firstn_skipn (n - k) (digits m)) in Hdig.
      apply Forall_app in Hdig. exact (proj2 Hdig).
    + rewrite length_skipn. fold n. lia.
    + rewrite firstn_skipn. exact Hval.
  - exists [ZERO], (repeat ZERO (k - length (digits m)) ++ digits m), 0.
    split; [reflexivity|]. split; [|split; [|split]].
    + split.
      * constructor; [reflexivity|constructor].
      * discriminate.
      * reflexivity.
      * intros t Ht. apply cons_inj in Ht. destruct Ht as (_ & <-).
        split; reflexivity.
    + apply Forall_app. split; [apply Forall_digit_zeros|exact Hdig].
    + rewrite length_app, repeat_length. lia.
    + change ([ZERO] ++ repeat ZERO (k - length (digits m)) ++ digits m)
        with (repeat ZERO (S (k - length (digits m))) ++ digits m).
      rewrite digits_value_zeros. exact Hval.
Qed.

(** A float is read back, with a point or with an exponent. *)
Lemma scan_atom_float (lim : Limits) (lay : Layout) (f : pyfloat) (rest : str) :
  closes rest ->
  scan_atom lim (dump_float lay f ++ rest) = Scanned (PFloat f) rest.
Proof.
  intros Hrest. destruct f as [|[|]|neg m e]; try reflexivity.
  cbn [dump_float].
  destruct (positional lay && (e <? 0)%Z) eqn:Hpos.
  - apply andb_prop in Hpos. destruct Hpos as (_ & He). apply Z.ltb_lt in He.
    destruct (@dump_point_parts m (Z.to_nat (- e)) ltac:(lia))
      as (idigs & fdigs & i & -> & Hnum & Hfd & Hlen & Hval).
    destruct fdigs as [|d0 fd]; [cbn [length] in Hlen; lia|].
    rewrite <- !app_assoc. cbn [app].
    rewrite (@scan_atom_numeral lim neg i idigs _ Hnum).
    rewrite (@match_number_numeral lim neg i idigs _ Hnum) by reflexivity.
    change (DOT :: d0 :: fd ++ rest) with (DOT :: (d0 :: fd) ++ rest).
    rewrite (frac_part_digits _ Hfd (closes_no_digit _ Hrest)).
    rewrite (closes_exp_part _ Hrest), Hval, Hlen.
    replace (- Z.of_nat (Z.to_nat (- e)))%Z with e by lia.
    reflexivity.
  - rewrite <- !app_assoc, scan_atom_signed.
    rewrite (@match_number_numeral lim neg m _ _ (digits_numeral _))
      by reflexivity.
    cbn [app]. rewrite frac_part_no_point by reflexivity.
    rewrite (exp_part_int e rest Hrest), app_nil_r.
    rewrite (numeral_value (digits_numeral m)).
    cbn [length]. rewrite Z.sub_0_r. reflexivity.
Qed.

(** *** Strings *)

Lemma hex_val_digit (n : N) : n < 16 -> hex_val (hex_digit n) = Some n.
Proof.
  intros Hn. destruct n as [|p]; [reflexivity|].
  do 4 (destruct p as [p|p|]; try reflexivity); lia.
Qed.

Lemma hex4_escape (u : N) :
  u < 0x10000 ->
  hex4 (hex_digit (u / 4096)) (hex_digit ((u / 256) mod 16))
       (hex_digit ((u / 16) mod 16)) (hex_digit (u mod 16)) = Some u.
Proof.
  intros Hu. unfold hex4.
  rewrite !hex_val_digit by euclid.
  f_equal. euclid.
Qed.

Lemma scanstring_u_escape (u : N) (tail : str) :
  u < 0x10000 -> is_high_surrogate u = false ->
  scanstring (u_escape u ++ tail) = consc u (scanstring tail).
Proof.
  intros Hu Hhi. unfold u_escape. cbn [app scanstring].
  change (BACKSLASH =? QUOTE) with false.
  change (BACKSLASH =? BACKSLASH) with true.
  change (117 =? 117) with true. cbv iota.
  rewrite (hex4_escape Hu), Hhi. reflexivity.
Qed.

Lemma scanstring_pair (c : N) (tail : str) :
  0x10000 <= c -> c < 0x110000 ->
  scanstring (u_escape (0xD800 + (c - 0x10000) / 0x400)
              ++ u_escape (0xDC00 + (c - 0x10000) mod 0x400) ++ tail)
  = consc c (scanstring tail).
Proof.
  intros Hlo Hhi.
  set (hi := 0xD800 + (c - 0x10000) / 0x400).
  set (lo := 0xDC00 + (c - 0x10000) mod 0x400).
  assert (0xD800 <= hi /\ hi <= 0xDBFF) as (Hh1 & Hh2) by (unfold hi; euclid).
  assert (0xDC00 <= lo /\ lo <= 0xDFFF) as (Hl1 & Hl2) by (unfold lo; euclid).
  assert (join_surrogates hi lo = c) as Hjoin
      by (unfold join_surrogates, hi, lo; euclid).
  unfold u_escape. cbn [app scanstring].
  change (BACKSLASH =? QUOTE) with false.
  change (BACKSLASH =? BACKSLASH) with true.
  change (117 =? 117) with true. cbv iota.
  rewrite (@hex4_escape hi) by lia.
  replace (is_high_surrogate hi) with true
    by (symmetry; unfold is_high_surrogate;
        apply andb_true_intro; split; apply N.leb_le; assumption).
  cbn [andb]. cbv iota.
  rewrite (@hex4_escape lo) by lia.
  replace (is_low_surrogate lo) with true
    by (symmetry; unfold is_low_surrogate;
        apply andb_true_intro; split; apply N.leb_le; assumption).
  rewrite Hjoin. reflexivity.
Qed.

Lemma is_scalar_spec (c : N) :
  is_scalar c = true -> c < 0x110000 /\ (c < 0xD800 \/ 0xDFFF < c).
Proof.
  unfold is_scalar. intros H. apply andb_prop in H. destruct H as (Hlt & Hs).
  apply N.ltb_lt in Hlt. split; [exact Hlt|].
  destruct (0xD800 <=? c) eqn:H1; [|apply N.leb_gt in H1; lia].
  destruct (c <=? 0xDFFF) eqn:H2; [discriminate|apply N.leb_gt in H2; lia].
Qed.

(** One character of a string is read back, from its escape or from
    itself. *)
Lemma scanstring_dump_char (lay : Layout) (c : N) (tail : str) :
  is_scalar c = true ->
  scanstring (dump_char lay c ++ tail) = consc c (scanstring tail).
Proof.
  intros Hc. apply is_scalar_spec in Hc. destruct Hc as (Hmax & Hsur).
  unfold dump_char.
  destruct (N.eqb_spec c QUOTE) as [->|Hq]; [reflexivity|].
  destruct (N.eqb_spec c BACKSLASH) as [->|Hb]; [reflexivity|].
  destruct (N.eqb_spec c 10) as [->|?]; [reflexivity|].
  destruct (N.eqb_spec c 13) as [->|?]; [reflexivity|].
  destruct (N.eqb_spec c 9) as [->|?]; [reflexivity|].
  destruct (N.eqb_spec c 12) as [->|?]; [reflexivity|].
  destruct (N.eqb_spec c 8) as [->|?]; [reflexivity|].
  destruct ((32 <=? c) && ((c <=? 126) || raw lay c)) eqn:Hp.
  - apply andb_prop in Hp. destruct Hp as (Hp1 & _).
    apply N.leb_le in Hp1.
    cbn [app scanstring].
    apply N.eqb_neq in Hq, Hb. rewrite Hq, Hb.
    replace (c <? 32) with false by (symmetry; apply N.ltb_ge; exact Hp1).
    reflexivity.
  - destruct (c <? 65536) eqn:Hbmp.
    + apply N.ltb_lt in Hbmp. apply scanstring_u_escape; [exact Hbmp|].
      unfold is_high_surrogate.
      destruct (0xD800 <=? c) eqn:H1; [|reflexivity].
      destruct (c <=? 0xDBFF) eqn:H2; [|reflexivity].
      apply N.leb_le in H1, H2. lia.
    + apply N.ltb_ge in Hbmp. rewrite <- app_assoc.
      apply scanstring_pair; assumption.
Qed.

(** A string is read back from its literal. *)
Lemma scanstring_dump (lay : Layout) (s rest : str) :
  is_text s = true ->
  scanstring (flat_map (dump_char lay) s ++ QUOTE :: rest) = Some (s, rest).
Proof.
  induction s as [|c s IH]; intros Hs.
  - reflexivity.
  - cbn [is_text forallb] in Hs. apply andb_prop in Hs.
    destruct Hs as (Hc & Hs).
    cbn [flat_map]. rewrite <- app_assoc, (scanstring_dump_char lay c _ Hc).
    rewrite (IH Hs). reflexivity.
Qed.

Lemma dump_string_app (lay : Layout) (s rest : str) :
  dump_string lay s ++ rest
  = QUOTE :: flat_map (dump_char lay) s ++ QUOTE :: rest.
Proof. unfold dump_string. cbn [app]. rewrite <- app_assoc. reflexivity. Qed.

(** *** Values *)

Lemma json_text_list (lay : Layout) (d : nat) (x : pyval) (l : list pyval) :
  json_text lay d (PList (x :: l))
  = LBRACKET :: ws_open lay (S d) ++ json_text lay (S d) x
    ++ more_items lay (S d) l ++ ws_close lay d ++ [RBRACKET].
Proof. reflexivity. Qed.

Lemma json_text_dict (lay : Layout) (d : nat) (k : str) (x : pyval)
    (m : list (str * pyval)) :
  json_text lay d (PDict ((k, x) :: m))
  = LBRACE :: ws_open lay (S d)
    ++ dump_string lay k ++ COLON :: ws_colon lay ++ json_text lay (S d) x
    ++ more_members lay (S d) m ++ ws_close lay d ++ [RBRACE].
Proof. reflexivity. Qed.

Lemma more_items_cons (lay : Layout) (d : nat) (y : pyval) (t : list pyval) :
  more_items lay d (y :: t)
  = COMMA :: ws_item lay d ++ json_text lay d y ++ more_items lay d t.
Proof. reflexivity. Qed.

Lemma more_members_cons (lay : Layout) (d : nat) (k : str) (y : pyval)
    (t : list (str * pyval)) :
  more_members lay d ((k, y) :: t)
  = COMMA :: ws_item lay d
    ++ dump_string lay k ++ COLON :: ws_colon lay
    ++ json_text lay d y ++ more_members lay d t.
Proof. reflexivity. Qed.

Lemma digit_opens (c : N) : is_digit c = true -> opens c.
Proof.
  intros Hc. unfold opens.
  repeat split; [destruct (is_ws c) eqn:Hw; [|reflexivity]|..].
  - apply is_ws_cases in Hw.
    destruct Hw as [-> | [-> | [-> | ->]]]; discriminate.
  - intros ->. discriminate.
  - intros ->. discriminate.
  - intros ->. discriminate.
Qed.

Ltac opens_const := repeat split; discriminate.

Lemma numeral_opens (neg : bool) (n : N) (ds tail : str) :
  numeral n ds -> exists c t, sign_text neg ++ ds ++ tail = c :: t /\ opens c.
Proof.
  intros Hnum. destruct (numeral_head Hnum) as (c & t & -> & Hc).
  destruct neg.
  - exists MINUS, ((c :: t) ++ tail). split; [reflexivity|opens_const].
  - exists c, (t ++ tail). split; [reflexivity|apply digit_opens; exact Hc].
Qed.

Lemma dump_int_head (z : Z) :
  exists c t, dump_int z = c :: t /\ opens c.
Proof.
  destruct (@numeral_opens (z <? 0)%Z _ _ [] (digits_numeral (Z.abs_N z)))
    as (c & t & H & Hc).
  rewrite app_nil_r in H. exists c, t. split; [exact H|exact Hc].
Qed.

Lemma dump_float_head (lay : Layout) (f : pyfloat) :
  exists c t, dump_float lay f = c :: t /\ opens c.
Proof.
  destruct f as [|[|]|neg m e].
  - exists 78, (lit "aN"). split; [reflexivity|opens_const].
  - exists 45, (lit "Infinity"). split; [reflexivity|opens_const].
  - exists 73, (lit "nfinity"). split; [reflexivity|opens_const].
  - cbn [dump_float]. destruct (positional lay && (e <? 0)%Z) eqn:Hpos.
    + apply andb_prop in Hpos. destruct Hpos as (_ & He).
      apply Z.ltb_lt in He.
      destruct (@dump_point_parts m (Z.to_nat (- e)) ltac:(lia))
        as (idigs & fdigs & i & -> & Hnum & _).
      apply (numeral_opens neg (DOT :: fdigs) Hnum).
    + apply (numeral_opens neg (0x65 :: dump_int e) (digits_numeral m)).
Qed.

Lemma json_text_head (lay : Layout) (d : nat) (v : pyval) :
  exists c t, json_text lay d v = c :: t /\ opens c.
Proof.
  destruct v as [|[|]|z|f|s|l|m].
  - exists 110, (lit "ull"). split; [reflexivity|opens_const].
  - exists 116, (lit "rue"). split; [reflexivity|opens_const].
  - exists 102, (lit "alse"). split; [reflexivity|opens_const].
  - apply dump_int_head.
  - apply dump_float_head.
  - eexists QUOTE, _. split; [reflexivity|opens_const].
  - destruct l as [|x l].
    + eexists LBRACKET, _. split; [reflexivity|opens_const].
    + rewrite json_text_list. eexists LBRACKET, _.
      split; [reflexivity|opens_const].
  - destruct m as [|(k, x) m].
    + eexists LBRACE, _. split; [reflexivity|opens_const].
    + rewrite json_text_dict. eexists LBRACE, _.
      split; [reflexivity|opens_const].
Qed.

Lemma skip_ws_opens (c : N) (t : str) : opens c -> skip_ws (c :: t) = c :: t.
Proof. intros (Hw & _). cbn [skip_ws]. rewrite Hw. reflexivity. Qed.

Lemma skip_ws_text (lay : Layout) (d : nat) (v : pyval) (rest : str) :
  skip_ws (json_text lay d v ++ rest) = json_text lay d v ++ rest.
Proof.
  destruct (json_text_head lay d v) as (c & t & -> & Hc).
  apply skip_ws_opens. exact Hc.
Qed.

Lemma json_text_length (lay : Layout) (d : nat) (v : pyval) :
  (1 <= length (json_text lay d v))%nat.
Proof.
  destruct (json_text_head lay d v) as (c & t & -> & _). cbn [length]. lia.
Qed.

(** White space before a text is skipped. *)
Lemma skip_ws_padding (pad s : str) :
  padding pad = true -> skip_ws (pad ++ s) = skip_ws s.
Proof.
  induction pad as [|c pad IH]; [reflexivity|].
  intros H. apply andb_prop in H. destruct H as (Hc & Hs).
  cbn [app skip_ws]. rewrite Hc. exact (IH Hs).
Qed.

Lemma skip_ws_stops (c : N) (s : str) :
  is_ws c = false -> skip_ws (c :: s) = c :: s.
Proof. intros H. cbn [skip_ws]. rewrite H. reflexivity. Qed.

Lemma closes_comma (s : str) : closes (COMMA :: s).
Proof. left. reflexivity. Qed.

Lemma closes_bracket (s : str) : closes (RBRACKET :: s).
Proof. right. left. reflexivity. Qed.

Lemma closes_brace (s : str) : closes (RBRACE :: s).
Proof. right. right. left. reflexivity. Qed.

Lemma closes_padded (pad s : str) :
  padding pad = true -> closes s -> closes (pad ++ s).
Proof.
  destruct pad as [|c pad]; [trivial|].
  intros H _. apply andb_prop in H. destruct H as (Hc & _).
  right. right. right. exact Hc.
Qed.

(** *** Dicts *)

Lemma str_eqb_eq (a b : str) : str_eqb a b = true <-> a = b.
Proof.
  revert b. induction a as [|x a IH]; intros [|y b]; simpl;
    try (split; intros; congruence).
  rewrite andb_true_iff, N.eqb_eq, IH.
  split; [intros (-> & ->); reflexivity|intros H; injection H; auto].
Qed.

Lemma dict_set_fresh (acc : dict) (k : str) (v : pyval) :
  fresh_key acc k -> dict_set acc k v = acc ++ [(k, v)].
Proof.
  unfold fresh_key. induction acc as [|(k', v') acc IH]; intros H.
  - reflexivity.
  - cbn [existsb fst] in H. apply orb_false_elim in H. destruct H as (Hk & H).
    cbn [dict_set app]. rewrite Hk, (IH H). reflexivity.
Qed.

Lemma fresh_key_app (acc : dict) (k k' : str) (v : pyval) :
  fresh_key acc k' -> str_eqb k k' = false -> fresh_key (acc ++ [(k, v)]) k'.
Proof.
  unfold fresh_key. intros H Hk. rewrite existsb_app, H. cbn.
  rewrite Hk. reflexivity.
Qed.

Lemma dict_of_pairs_from (d acc : dict) :
  Forall (fun kv => fresh_key acc (fst kv)) d ->
  unique_keys d = true ->
  fold_left (fun a kv => dict_set a (fst kv) (snd kv)) d acc = acc ++ d.
Proof.
  revert acc. induction d as [|(k, v) d IH]; intros acc Hfresh Huniq.
  - rewrite app_nil_r. reflexivity.
  - inversion Hfresh as [|? ? Hk Hd]; subst.
    cbn [unique_keys] in Huniq. apply andb_prop in Huniq.
    destruct Huniq as (Hnot & Huniq). apply negb_true_iff in Hnot.
    cbn [fold_left fst snd]. rewrite (dict_set_fresh _ Hk).
    rewrite IH; [rewrite <- app_assoc; reflexivity| |exact Huniq].
    rewrite Forall_forall in *. intros (k', v') Hin. cbn [fst].
    apply fresh_key_app; [exact (Hd _ Hin)|].
    destruct (str_eqb k k') eqn:E; [|reflexivity].
    apply str_eqb_eq in E. subst k'.
    assert (existsb (fun kv => str_eqb (fst kv) k) d = true) as Hex.
    { apply existsb_exists. exists (k, v'). split; [exact Hin|].
      apply str_eqb_eq. reflexivity. }
    congruence.
Qed.

Lemma dict_of_pairs_unique (d : dict) :
  unique_keys d = true -> dict_of_pairs d = d.
Proof.
  intros H. unfold dict_of_pairs.
  rewrite dict_of_pairs_from; [reflexivity| |exact H].
  apply Forall_forall. intros kv _. reflexivity.
Qed.

(** *** Reading a value back *)

Section Layout.

Variable lim : Limits.
Variable lay : Layout.
Hypothesis Hlay : layout_ok lay.

Lemma ws_item_padding (d : nat) : padding (ws_item lay d) = true.
Proof. destruct Hlay as (H & _). exact (proj1 (proj2 (H d))). Qed.

Lemma ws_open_padding (d : nat) : padding (ws_open lay d) = true.
Proof. destruct Hlay as (H & _). exact (proj1 (H d)). Qed.

Lemma ws_close_padding (d : nat) : padding (ws_close lay d) = true.
Proof. destruct Hlay as (H & _). exact (proj2 (proj2 (H d))). Qed.

Lemma ws_colon_padding : padding (ws_colon lay) = true.
Proof. exact (proj2 Hlay). Qed.

Lemma parse_items (l : list pyval) :
  Forall (reads_back lim lay) l ->
  forallb json_value l = true ->
  forall x d pad rest fuel,
    reads_back lim lay x -> json_value x = true ->
    fits lim d x = true -> forallb (fits lim d) l = true ->
    padding pad = true ->
    (length (json_text lay d x ++ more_items lay d l) < fuel)%nat ->
    parse_elements lim fuel d
      (json_text lay d x ++ more_items lay d l ++ pad ++ RBRACKET :: rest)
    = Scanned (x :: l) rest.
Proof.
  induction l as [|y l IH];
    intros Hall Hval x d pad rest fuel Hx Hvx Hfx Hfl Hpad Hfuel.
  - destruct fuel as [|f]; [lia|].
    cbn [more_items app] in *. rewrite app_nil_r in Hfuel.
    rewrite JsonFacts.parse_elements_S.
    rewrite (Hx Hvx d _ f Hfx (@closes_padded pad _ Hpad (closes_bracket rest)))
      by lia.
    rewrite (@skip_ws_padding pad _ Hpad). rewrite (@skip_ws_stops RBRACKET _ eq_refl). change (RBRACKET =? RBRACKET) with true. reflexivity.
  - inversion Hall as [|? ? Hy Hl]; subst.
    cbn [forallb] in Hval, Hfl. apply andb_prop in Hval, Hfl.
    destruct Hval as (Hvy & Hvl). destruct Hfl as (Hfy & Hfl).
    destruct fuel as [|f]; [lia|].
    rewrite more_items_cons in *.
    rewrite !length_app in Hfuel. cbn [length] in Hfuel.
    rewrite !length_app in Hfuel.
    pose proof (json_text_length lay d x) as Hlx.
    rewrite JsonFacts.parse_elements_S.
    rewrite (Hx Hvx d
               ((COMMA :: ws_item lay d ++ json_text lay d y
                 ++ more_items lay d l) ++ pad ++ RBRACKET :: rest)
               f Hfx (closes_comma _)) by lia.
    cbn [app]. rewrite (@skip_ws_stops COMMA _ eq_refl). change (COMMA =? RBRACKET) with false.
    change (COMMA =? COMMA) with true. cbv iota.
    rewrite <- !app_assoc, (@skip_ws_padding _ _ (ws_item_padding d)).
    rewrite skip_ws_text.
    rewrite (IH Hl Hvl y d pad rest f Hy Hvy Hfy Hfl Hpad);
      [reflexivity|].
    rewrite length_app. lia.
Qed.

Lemma parse_pairs (m : list (str * pyval)) :
  Forall (fun kv => reads_back lim lay (snd kv)) m ->
  forallb (fun kv => is_text (fst kv) && json_value (snd kv)) m = true ->
  forall k x d pad rest fuel,
    reads_back lim lay x -> is_text k = true -> json_value x = true ->
    fits lim d x = true ->
    forallb (fun kv => fits lim d (snd kv)) m = true ->
    padding pad = true ->
    (length (dump_string lay k ++ COLON :: ws_colon lay ++ json_text lay d x
             ++ more_members lay d m) < fuel)%nat ->
    parse_members lim fuel d
      (dump_string lay k ++ COLON :: ws_colon lay ++ json_text lay d x
       ++ more_members lay d m ++ pad ++ RBRACE :: rest)
    = Scanned ((k, x) :: m) rest.
Proof.
  induction m as [|(k', y) m IH];
    intros Hall Hval k x d pad rest fuel Hx Hk Hvx Hfx Hfm Hpad Hfuel.
  - destruct fuel as [|f]; [lia|].
    cbn [more_members app] in *. rewrite app_nil_r in Hfuel.
    rewrite !length_app in Hfuel. cbn [length] in Hfuel.
    rewrite !length_app in Hfuel.
    rewrite dump_string_app, JsonFacts.parse_members_S.
    change (QUOTE =? QUOTE) with true. cbv iota.
    rewrite (@scanstring_dump lay k _ Hk).
    rewrite (@skip_ws_stops COLON _ eq_refl). change (COLON =? COLON) with true. cbv iota.
    rewrite (@skip_ws_padding _ _ ws_colon_padding), skip_ws_text.
    rewrite (Hx Hvx d _ f Hfx (@closes_padded pad _ Hpad (closes_brace rest)))
      by lia.
    rewrite (@skip_ws_padding pad _ Hpad). rewrite (@skip_ws_stops RBRACE _ eq_refl). change (RBRACE =? RBRACE) with true. reflexivity.
  - inversion Hall as [|? ? Hy Hm]; subst. cbn [snd] in Hy.
    cbn [forallb fst snd] in Hval, Hfm. apply andb_prop in Hval, Hfm.
    destruct Hval as (Hky & Hvm). apply andb_prop in Hky.
    destruct Hky as (Hk' & Hvy). destruct Hfm as (Hfy & Hfm).
    destruct fuel as [|f]; [lia|].
    rewrite more_members_cons in *.
    rewrite !length_app in Hfuel. cbn [length] in Hfuel.
    rewrite !length_app in Hfuel. cbn [length] in Hfuel.
    rewrite !length_app in Hfuel. cbn [length] in Hfuel.
    rewrite !length_app in Hfuel.
    pose proof (json_text_length lay d x) as Hlx.
    rewrite dump_string_app, JsonFacts.parse_members_S.
    change (QUOTE =? QUOTE) with true. cbv iota.
    rewrite (@scanstring_dump lay k _ Hk).
    rewrite (@skip_ws_stops COLON _ eq_refl). change (COLON =? COLON) with true. cbv iota.
    rewrite (@skip_ws_padding _ _ ws_colon_padding), skip_ws_text.
    rewrite (Hx Hvx d
               ((COMMA :: ws_item lay d
                 ++ dump_string lay k' ++ COLON :: ws_colon lay
                 ++ json_text lay d y ++ more_members lay d m)
                ++ pad ++ RBRACE :: rest)
               f Hfx (closes_comma _)) by lia.
    cbn [app]. rewrite (@skip_ws_stops COMMA _ eq_refl). change (COMMA =? RBRACE) with false.
    change (COMMA =? COMMA) with true. cbv iota.
    rewrite <- !app_assoc, (@skip_ws_padding _ _ (ws_item_padding d)).
    rewrite dump_string_app. rewrite (@skip_ws_stops QUOTE _ eq_refl). rewrite <- dump_string_app.
    cbn [app]. rewrite <- !app_assoc.
    rewrite (IH Hm Hvm k' y d pad rest f Hy Hk' Hvy Hfy Hfm Hpad);
      [reflexivity|].
    rewrite !length_app. cbn [length]. rewrite !length_app. lia.
Qed.

Lemma scan_once_atom (f d : nat) (c : N) (t : str) :
  (c =? QUOTE) = false -> (c =? LBRACE) = false -> (c =? LBRACKET) = false ->
  scan_once lim (S f) d (c :: t) = scan_atom lim (c :: t).
Proof.
  intros H1 H2 H3. rewrite JsonFacts.scan_once_S, H1, H2, H3. reflexivity.
Qed.

Lemma scan_once_numeral (f d : nat) (neg : bool) (n : N) (ds tail : str) :
  numeral n ds ->
  scan_once lim (S f) d (sign_text neg ++ ds ++ tail)
  = scan_atom lim (sign_text neg ++ ds ++ tail).
Proof.
  intros Hnum. destruct (numeral_head Hnum) as (c & t & Hds & Hc).
  rewrite Hds. destruct neg; cbn [sign_text app].
  - apply scan_once_atom; reflexivity.
  - apply scan_once_atom; apply (@digit_neq_r c _ Hc); reflexivity.
Qed.

Lemma scan_once_float (f d : nat) (x : pyfloat) (rest : str) :
  scan_once lim (S f) d (dump_float lay x ++ rest)
  = scan_atom lim (dump_float lay x ++ rest).
Proof.
  destruct x as [|[|]|neg m e]; try reflexivity.
  cbn [dump_float].
  destruct (positional lay && (e <? 0)%Z) eqn:Hpos.
  - apply andb_prop in Hpos. destruct Hpos as (_ & He). apply Z.ltb_lt in He.
    destruct (@dump_point_parts m (Z.to_nat (- e)) ltac:(lia))
      as (idigs & fdigs & i & -> & Hnum & _).
    rewrite <- !app_assoc. apply (@scan_once_numeral f d neg i idigs _ Hnum).
  - rewrite <- !app_assoc.
    apply (@scan_once_numeral f d neg m _ _ (digits_numeral m)).
Qed.

Theorem every_value_reads_back (v : pyval) : reads_back lim lay v.
Proof.
  induction v as [|b|z|f|s|l H|m H] using pyval_induction;
    intros Hval d rest fuel Hfit Hrest Hfuel.
  - destruct fuel; [cbn in Hfuel; lia|]. reflexivity.
  - destruct fuel; [destruct b; cbn in Hfuel; lia|]. destruct b; reflexivity.
  - pose proof (json_text_length lay d (PInt z)).
    destruct fuel as [|f]; [lia|]. cbn [json_text fits] in *.
    apply negb_true_iff in Hfit.
    rewrite <- (@scan_atom_int lim z rest Hfit Hrest).
    rewrite dump_int_sign, <- app_assoc.
    apply (@scan_once_numeral f d _ _ _ _ (digits_numeral _)).
  - pose proof (json_text_length lay d (PFloat f)).
    destruct fuel as [|n]; [lia|]. cbn [json_text].
    rewrite scan_once_float. apply (@scan_atom_float lim lay f rest Hrest).
  - destruct fuel as [|f]; [cbn in Hfuel; lia|].
    cbn [json_text json_value] in *.
    rewrite dump_string_app, JsonFacts.scan_once_S.
    change (QUOTE =? QUOTE) with true. cbv iota.
    rewrite (@scanstring_dump lay s rest Hval). reflexivity.
  - cbn [fits] in Hfit. apply andb_prop in Hfit. destruct Hfit as (Hin & Hfl).
    cbn [json_value] in Hval.
    destruct l as [|x l].
    + destruct fuel as [|f]; [cbn in Hfuel; lia|].
      cbn [json_text app]. rewrite JsonFacts.scan_once_S.
      change (LBRACKET =? QUOTE) with false.
      change (LBRACKET =? LBRACE) with false.
      change (LBRACKET =? LBRACKET) with true. cbv iota.
      rewrite Hin. reflexivity.
    + rewrite json_text_list in *. cbn [length] in Hfuel.
      rewrite !length_app in Hfuel. cbn [length] in Hfuel.
      destruct fuel as [|f]; [lia|].
      cbn [app]. rewrite JsonFacts.scan_once_S.
      change (LBRACKET =? QUOTE) with false.
      change (LBRACKET =? LBRACE) with false.
      change (LBRACKET =? LBRACKET) with true. cbv iota.
      rewrite Hin, <- !app_assoc.
      rewrite (@skip_ws_padding _ _ (ws_open_padding (S d))), skip_ws_text.
      inversion H as [|? ? Hx Hl]; subst.
      cbn [forallb] in Hval, Hfl. apply andb_prop in Hval, Hfl.
      destruct Hval as (Hvx & Hvl). destruct Hfl as (Hfx & Hfl).
      pose proof (@parse_items l Hl Hvl x (S d) (ws_close lay d) rest f
                    Hx Hvx Hfx Hfl (ws_close_padding d)) as Hparse.
      rewrite length_app in Hparse. specialize (Hparse ltac:(lia)).
      destruct (json_text_head lay (S d) x) as (c & t & Hc & (_ & Hnb & _)).
      rewrite Hc in *. cbn [app] in *.
      apply N.eqb_neq in Hnb. rewrite Hnb, Hparse. reflexivity.
  - cbn [fits] in Hfit. apply andb_prop in Hfit. destruct Hfit as (Hin & Hfm).
    cbn [json_value] in Hval. apply andb_prop in Hval.
    destruct Hval as (Huniq & Hval).
    destruct m as [|(k, x) m].
    + destruct fuel as [|f]; [cbn in Hfuel; lia|].
      cbn [json_text app]. rewrite JsonFacts.scan_once_S.
      change (LBRACE =? QUOTE) with false.
      change (LBRACE =? LBRACE) with true. cbv iota.
      rewrite Hin. reflexivity.
    + rewrite json_text_dict in *. cbn [length] in Hfuel.
      rewrite !length_app in Hfuel. cbn [length] in Hfuel.
      rewrite !length_app in Hfuel.
      destruct fuel as [|f]; [lia|].
      cbn [app]. rewrite JsonFacts.scan_once_S.
      change (LBRACE =? QUOTE) with false.
      change (LBRACE =? LBRACE) with true. cbv iota.
      rewrite Hin, <- !app_assoc.
      rewrite (@skip_ws_padding _ _ (ws_open_padding (S d))).
      inversion H as [|? ? Hx Hm]; subst. cbn [snd] in Hx.
      cbn [forallb fst snd] in Hval, Hfm. apply andb_prop in Hval, Hfm.
      destruct Hval as (Hkx & Hvm). apply andb_prop in Hkx.
      destruct Hkx as (Hk & Hvx). destruct Hfm as (Hfx & Hfm).
      pose proof (@parse_pairs m Hm Hvm k x (S d) (ws_close lay d) rest f
                    Hx Hk Hvx Hfx Hfm (ws_close_padding d)) as Hparse.
      rewrite ?length_app in Hparse. cbn [length] in Hparse.
      rewrite ?length_app in Hparse. cbn [length] in Hfuel.
      specialize (Hparse ltac:(lia)).
      rewrite dump_string_app in *.
      rewrite (@skip_ws_stops QUOTE _ eq_refl).
      change (QUOTE =? RBRACE) with false. cbv iota.
      repeat (progress (cbn [app]; rewrite <- ?app_assoc)).
      rewrite Hparse, (dict_of_pairs_unique _ Huniq). reflexivity.
Qed.

End Layout.

(** A value within the limits is loaded from each of its texts. *)
Theorem json_loads_json_text (lim : Limits) (lay : Layout) (v : pyval) :
  layout_ok lay -> json_value v = true -> fits lim 0 v = true ->
  json_loads lim (json_text lay 0 v) = Loaded v.
Proof.
  intros Hlay Hval Hfit. unfold json_loads.
  pose proof (skip_ws_text lay 0 v []) as Hskip. rewrite app_nil_r in Hskip.
  pose proof (@every_value_reads_back lim lay Hlay v Hval 0%nat []
                (2 * length (json_text lay 0 v) + 1)%nat Hfit
                I)
    as Hscan.
  rewrite app_nil_r in Hscan. specialize (Hscan ltac:(lia)).
  destruct (json_text_head lay 0 v) as (c & t & Hc & (_ & _ & _ & Hbom)).
  rewrite Hc in *. apply N.eqb_neq in Hbom. rewrite Hbom, Hskip, Hscan.
  reflexivity.
Qed.

End JsonRoundTrip.

(** ** White space around a JSON document *)

Unset Implicit Arguments.


Module JsonPadding.

Import Eff Json JsonSpec.
Local Open Scope N_scope.

Ltac by_ws H :=
  destruct (@JsonRoundTrip.is_ws_cases _ H) as [-> | [-> | [-> | ->]]];
  reflexivity.

Lemma ws_not_quote (c : N) : is_ws c = true -> (c =? QUOTE) = false.
Proof. intros H. by_ws H. Qed.

Lemma ws_not_backslash (c : N) : is_ws c = true -> (c =? BACKSLASH) = false.
Proof. intros H. by_ws H. Qed.

Lemma ws_not_u (c : N) : is_ws c = true -> (c =? 0x75) = false.
Proof. intros H. by_ws H. Qed.

Lemma ws_no_escape (c : N) : is_ws c = true -> simple_escape c = None.
Proof. intros H. by_ws H. Qed.

Lemma ws_no_hex (c : N) : is_ws c = true -> hex_val c = None.
Proof. intros H. by_ws H. Qed.

Lemma ws_no_digit (c : N) : is_ws c = true -> is_digit c = false.
Proof. intros H. by_ws H. Qed.

Lemma ws_chars (c : N) :
  is_ws c = true ->
  (c =? LBRACE) = false /\ (c =? LBRACKET) = false /\ (c =? MINUS) = false /\
  (c =? PLUS) = false /\ (c =? DOT) = false /\ (c =? ZERO) = false /\
  (c =? 0x65) = false /\ (c =? 0x45) = false.
Proof.
  intros H.
  destruct (@JsonRoundTrip.is_ws_cases _ H) as [-> | [-> | [-> | ->]]];
    repeat split.
Qed.

Lemma padding_cons (c : N) (s : str) :
  padding (c :: s) = true -> is_ws c = true /\ padding s = true.
Proof. intros H. apply andb_prop in H. exact H. Qed.

Lemma skip_ws_all (s : str) : padding s = true -> skip_ws s = [].
Proof.
  induction s as [|c s IH]; [reflexivity|].
  intros H. apply padding_cons in H. destruct H as (Hc & Hs).
  cbn [skip_ws]. rewrite Hc. exact (IH Hs).
Qed.

Lemma followed_by_consc {A} (suf : str) (c : A) (r : option (list A * str)) :
  string_followed_by suf (consc c r) = consc c (string_followed_by suf r).
Proof. destruct r as [[l rest]|]; reflexivity. Qed.

Lemma followed_by_push {A} (suf : str) (a : A) (r : scan (list A)) :
  followed_by suf (push a r) = push a (followed_by suf r).
Proof. destruct r; reflexivity. Qed.

Lemma followed_by_refuse {A} (suf : str) (lim : Limits) (d : nat) :
  followed_by suf (@refuse A lim d) = refuse lim d.
Proof. unfold refuse. destruct (report_check lim d); reflexivity. Qed.

Section Suffix.

Variable suf : str.
Hypothesis Hsuf : padding suf = true.

Lemma skip_ws_suffix (s : str) :
  skip_ws (s ++ suf)
  = match skip_ws s with [] => [] | c :: r => c :: (r ++ suf) end.
Proof.
  induction s as [|c s IH]; [exact (skip_ws_all suf Hsuf)|].
  cbn [app skip_ws]. destruct (is_ws c); [exact IH|reflexivity].
Qed.

Lemma hex4_none_1 (a b c d : N) : hex_val a = None -> hex4 a b c d = None.
Proof. intros H. unfold hex4. rewrite H. reflexivity. Qed.

Lemma hex4_none_2 (a b c d : N) : hex_val b = None -> hex4 a b c d = None.
Proof. intros H. unfold hex4. rewrite H. destruct (hex_val a); reflexivity. Qed.

Lemma hex4_none_3 (a b c d : N) : hex_val c = None -> hex4 a b c d = None.
Proof.
  intros H. unfold hex4. rewrite H.
  destruct (hex_val a), (hex_val b); reflexivity.
Qed.

Lemma hex4_none_4 (a b c d : N) : hex_val d = None -> hex4 a b c d = None.
Proof.
  intros H. unfold hex4. rewrite H.
  destruct (hex_val a), (hex_val b), (hex_val c); reflexivity.
Qed.

(** One step of [scanstring]. *)
Lemma scanstring_step (c : N) (t : str) :
  scanstring (c :: t) =
  if c =? QUOTE then Some ([], t)
  else if c =? BACKSLASH then
    match t with
    | [] => None
    | e :: t1 =>
      if e =? 0x75 then
        match t1 with
        | h1 :: h2 :: h3 :: h4 :: t2 =>
          match hex4 h1 h2 h3 h4 with
          | None => None
          | Some u =>
            if is_high_surrogate u then
              match t2 with
              | b :: l :: g1 :: g2 :: g3 :: g4 :: t3 =>
                if (b =? BACKSLASH) && (l =? 0x75) then
                  match hex4 g1 g2 g3 g4 with
                  | Some u2 =>
                    if is_low_surrogate u2
                    then consc (join_surrogates u u2) (scanstring t3)
                    else consc u (scanstring t2)
                  | None => None
                  end
                else consc u (scanstring t2)
              | _ => consc u (scanstring t2)
              end
            else consc u (scanstring t2)
          end
        | _ => None
        end
      else
        match simple_escape e with
        | Some c' => consc c' (scanstring t1)
        | None => None
        end
    end
  else if c <? 0x20 then None
  else consc c (scanstring t).
Proof. reflexivity. Qed.

Lemma scanstring_padding (s : str) : padding s = true -> scanstring s = None.
Proof.
  induction s as [|c s IH]; [reflexivity|].
  intros H. apply padding_cons in H. destruct H as (Hc & Hs).
  rewrite scanstring_step, (ws_not_quote c Hc), (ws_not_backslash c Hc), (IH Hs).
  destruct (c <? 0x20); reflexivity.
Qed.

(** A truncated [\u] escape, its hex digits running into white space. *)
Lemma scanstring_truncated_escape (t1 : str) :
  (length t1 < 4)%nat ->
  scanstring (BACKSLASH :: 0x75 :: t1 ++ suf) = None.
Proof.
  intros Hlen. rewrite scanstring_step.
  change (BACKSLASH =? QUOTE) with false.
  change (BACKSLASH =? BACKSLASH) with true.
  change (0x75 =? 0x75) with true. cbv iota.
  pose proof Hsuf as Hws.
  destruct t1 as [|h1 [|h2 [|h3 [|h4 t2]]]];
    [| | | |cbn [length] in Hlen; lia]; cbn [app].
  - destruct suf as [|a [|b [|c [|d r]]]]; try reflexivity.
    apply padding_cons in Hws. destruct Hws as (Ha & _).
    rewrite (hex4_none_1 a b c d (ws_no_hex a Ha)). reflexivity.
  - destruct suf as [|a [|b [|c r]]]; try reflexivity.
    apply padding_cons in Hws. destruct Hws as (Ha & _).
    rewrite (hex4_none_2 h1 a b c (ws_no_hex a Ha)). reflexivity.
  - destruct suf as [|a [|b r]]; try reflexivity.
    apply padding_cons in Hws. destruct Hws as (Ha & _).
    rewrite (hex4_none_3 h1 h2 a b (ws_no_hex a Ha)). reflexivity.
  - destruct suf as [|a r]; try reflexivity.
    apply padding_cons in Hws. destruct Hws as (Ha & _).
    rewrite (hex4_none_4 h1 h2 h3 a (ws_no_hex a Ha)). reflexivity.
Qed.


(** The second half of a surrogate pair, when white space follows. *)
Lemma low_half_suffix (u : N) (t2 : str) :
  (forall s, (length s <= length t2)%nat ->
             scanstring (s ++ suf) = string_followed_by suf (scanstring s)) ->
  match t2 ++ suf with
  | b :: l :: g1 :: g2 :: g3 :: g4 :: t3 =>
    if (b =? BACKSLASH) && (l =? 0x75) then
      match hex4 g1 g2 g3 g4 with
      | Some u2 =>
        if is_low_surrogate u2
        then consc (join_surrogates u u2) (scanstring t3)
        else consc u (scanstring (t2 ++ suf))
      | None => None
      end
    else consc u (scanstring (t2 ++ suf))
  | _ => consc u (scanstring (t2 ++ suf))
  end
  = string_followed_by suf
      match t2 with
      | b :: l :: g1 :: g2 :: g3 :: g4 :: t3 =>
        if (b =? BACKSLASH) && (l =? 0x75) then
          match hex4 g1 g2 g3 g4 with
          | Some u2 =>
            if is_low_surrogate u2
            then consc (join_surrogates u u2) (scanstring t3)
            else consc u (scanstring t2)
          | None => None
          end
        else consc u (scanstring t2)
      | _ => consc u (scanstring t2)
      end.
Proof.
  intros IH.
  assert (scanstring (t2 ++ suf) = @string_followed_by (list N) suf (scanstring t2))
    as Hw.
  { apply IH. lia. }
  assert (forall b l rest,
             (length rest < 4)%nat ->
             (if (b =? BACKSLASH) && (l =? 0x75)
              then @None (str * str)
              else consc u (scanstring (b :: l :: rest ++ suf)))
             = consc u (scanstring (b :: l :: rest ++ suf))) as Hcut.
  { intros b l rest Hlen.
    destruct (N.eqb_spec b BACKSLASH) as [->|_]; [|reflexivity].
    destruct (N.eqb_spec l 0x75) as [->|_]; [|reflexivity].
    rewrite (scanstring_truncated_escape rest Hlen). reflexivity. }
  pose proof Hsuf as Hws.
  destruct t2 as [|b [|l [|g1 [|g2 [|g3 [|g4 t3]]]]]].
  - (* nothing before the white space *)
    cbv beta iota. rewrite followed_by_consc, <- Hw. cbn [app].
    destruct suf as [|a1 [|a2 [|a3 [|a4 [|a5 [|a6 r]]]]]]; try reflexivity.
    apply padding_cons in Hws. destruct Hws as (Ha & _).
    rewrite (ws_not_backslash a1 Ha). reflexivity.
  - cbv beta iota. rewrite followed_by_consc, <- Hw. cbn [app].
    destruct suf as [|a1 [|a2 [|a3 [|a4 [|a5 r]]]]]; try reflexivity.
    apply padding_cons in Hws. destruct Hws as (Ha & _).
    rewrite (ws_not_u a1 Ha), andb_false_r. reflexivity.
  - cbv beta iota. rewrite followed_by_consc, <- Hw. cbn [app].
    destruct suf as [|a1 [|a2 [|a3 [|a4 r]]]]; try reflexivity.
    apply padding_cons in Hws. destruct Hws as (Ha & _).
    rewrite (hex4_none_1 a1 a2 a3 a4 (ws_no_hex a1 Ha)).
    apply (Hcut b l []). cbn [length]. lia.
  - cbv beta iota. rewrite followed_by_consc, <- Hw. cbn [app].
    destruct suf as [|a1 [|a2 [|a3 r]]]; try reflexivity.
    apply padding_cons in Hws. destruct Hws as (Ha & _).
    rewrite (hex4_none_2 g1 a1 a2 a3 (ws_no_hex a1 Ha)).
    apply (Hcut b l [g1]). cbn [length]. lia.
  - cbv beta iota. rewrite followed_by_consc, <- Hw. cbn [app].
    destruct suf as [|a1 [|a2 r]]; try reflexivity.
    apply padding_cons in Hws. destruct Hws as (Ha & _).
    rewrite (hex4_none_3 g1 g2 a1 a2 (ws_no_hex a1 Ha)).
    apply (Hcut b l [g1; g2]). cbn [length]. lia.
  - cbv beta iota. rewrite followed_by_consc, <- Hw. cbn [app].
    destruct suf as [|a1 r]; try reflexivity.
    apply padding_cons in Hws. destruct Hws as (Ha & _).
    rewrite (hex4_none_4 g1 g2 g3 a1 (ws_no_hex a1 Ha)).
    apply (Hcut b l [g1; g2; g3]). cbn [length]. lia.
  - cbn [app] in *.
    destruct ((b =? BACKSLASH) && (l =? 0x75)).
    + destruct (hex4 g1 g2 g3 g4) as [u2|]; [|reflexivity].
      destruct (is_low_surrogate u2).
      * rewrite followed_by_consc. f_equal. apply IH. cbn [length]. lia.
      * rewrite followed_by_consc, <- Hw. reflexivity.
    + rewrite followed_by_consc, <- Hw. reflexivity.
Qed.

Lemma scanstring_suffix_aux (n : nat) :
  forall s, (length s <= n)%nat ->
            scanstring (s ++ suf) = @string_followed_by (list N) suf (scanstring s).
Proof.
  induction n as [|n IH]; intros s Hn.
  - destruct s; [|cbn [length] in Hn; lia].
    exact (scanstring_padding suf Hsuf).
  - destruct s as [|c t]; [exact (scanstring_padding suf Hsuf)|].
    cbn [length] in Hn.
    change ((c :: t) ++ suf) with (c :: (t ++ suf)).
    rewrite (scanstring_step c (t ++ suf)), (scanstring_step c t).
    destruct (c =? QUOTE); [reflexivity|].
    destruct (c =? BACKSLASH).
    + destruct t as [|e t1].
      * cbn [app]. pose proof Hsuf as Hws.
        destruct suf as [|a r]; [reflexivity|].
        apply padding_cons in Hws. destruct Hws as (Ha & _).
        rewrite (ws_not_u a Ha), (ws_no_escape a Ha). reflexivity.
      * cbn [app]. cbn [length] in Hn. destruct (N.eqb_spec e 0x75) as [->|_].
        -- destruct t1 as [|h1 [|h2 [|h3 [|h4 t2]]]].
           ++ pose proof (scanstring_truncated_escape []) as Hcut.
              rewrite scanstring_step in Hcut. apply Hcut. cbn [length]. lia.
           ++ pose proof (scanstring_truncated_escape [h1]) as Hcut.
              rewrite scanstring_step in Hcut. apply Hcut. cbn [length]. lia.
           ++ pose proof (scanstring_truncated_escape [h1; h2]) as Hcut.
              rewrite scanstring_step in Hcut. apply Hcut. cbn [length]. lia.
           ++ pose proof (scanstring_truncated_escape [h1; h2; h3]) as Hcut.
              rewrite scanstring_step in Hcut. apply Hcut. cbn [length]. lia.
           ++ cbn [app]. destruct (hex4 h1 h2 h3 h4) as [u|]; [|reflexivity].
              destruct (is_high_surrogate u).
              ** apply low_half_suffix. intros s Hs. apply IH.
                 cbn [length] in Hn. lia.
              ** rewrite followed_by_consc. f_equal. apply IH.
                 cbn [length] in Hn. lia.
        -- destruct (simple_escape e); [|reflexivity].
           rewrite followed_by_consc. f_equal. apply IH. lia.
    + destruct (c <? 0x20); [reflexivity|].
      rewrite followed_by_consc. f_equal. apply IH. lia.
Qed.

Lemma scanstring_suffix (s : str) :
  scanstring (s ++ suf) = @string_followed_by (list N) suf (scanstring s).
Proof. apply (scanstring_suffix_aux (length s)). lia. Qed.


(** Numbers and constants. *)

Lemma span_digits_padding (s : str) : padding s = true -> span_digits s = ([], s).
Proof.
  destruct s as [|a r]; [reflexivity|].
  intros H. apply padding_cons in H. destruct H as (Ha & _).
  cbn [span_digits]. rewrite (ws_no_digit a Ha). reflexivity.
Qed.

Lemma int_part_padding (s : str) : padding s = true -> int_part s = None.
Proof.
  destruct s as [|a r]; [reflexivity|].
  intros H. apply padding_cons in H. destruct H as (Ha & _).
  unfold int_part. destruct (ws_chars a Ha) as (_ & _ & _ & _ & _ & -> & _).
  rewrite (ws_no_digit a Ha). reflexivity.
Qed.

Lemma span_digits_suffix (s : str) :
  span_digits (s ++ suf) = let (d, r) := span_digits s in (d, r ++ suf).
Proof.
  induction s as [|c s IH]; [exact (span_digits_padding suf Hsuf)|].
  cbn [app span_digits]. destruct (is_digit c); [|reflexivity].
  rewrite IH. destruct (span_digits s). reflexivity.
Qed.

Lemma int_part_suffix (s : str) :
  int_part (s ++ suf) = string_followed_by suf (int_part s).
Proof.
  destruct s as [|c t]; [exact (int_part_padding suf Hsuf)|].
  cbn [app]. unfold int_part. destruct (c =? ZERO); [reflexivity|].
  destruct (is_digit c); [|reflexivity].
  rewrite span_digits_suffix. destruct (span_digits t). reflexivity.
Qed.

Lemma frac_part_padding (s : str) : padding s = true -> frac_part s = ([], s).
Proof.
  destruct s as [|a [|b r]]; try reflexivity.
  intros H. apply padding_cons in H. destruct H as (Ha & _).
  unfold frac_part. destruct (ws_chars a Ha) as (_ & _ & _ & _ & -> & _).
  reflexivity.
Qed.

Lemma frac_part_suffix (s : str) :
  frac_part (s ++ suf) = let (d, r) := frac_part s in (d, r ++ suf).
Proof.
  destruct s as [|p [|d t]].
  - exact (frac_part_padding suf Hsuf).
  - cbn [app]. pose proof Hsuf as Hws.
    destruct suf as [|a r]; [reflexivity|].
    apply padding_cons in Hws. destruct Hws as (Ha & _).
    unfold frac_part. rewrite (ws_no_digit a Ha), andb_false_r. reflexivity.
  - cbn [app]. unfold frac_part. destruct ((p =? DOT) && is_digit d);
      [|reflexivity].
    rewrite span_digits_suffix. destruct (span_digits t). reflexivity.
Qed.

Lemma exp_part_padding (s : str) : padding s = true -> exp_part s = None.
Proof.
  destruct s as [|a r]; [reflexivity|].
  intros H. apply padding_cons in H. destruct H as (Ha & _).
  unfold exp_part.
  destruct (ws_chars a Ha) as (_ & _ & _ & _ & _ & _ & -> & ->). reflexivity.
Qed.

Lemma exp_part_suffix (s : str) :
  exp_part (s ++ suf) = string_followed_by suf (exp_part s).
Proof.
  destruct s as [|e [|sg t]].
  - exact (exp_part_padding suf Hsuf).
  - cbn [app]. unfold exp_part.
    destruct ((e =? 0x65) || (e =? 0x45)); [|reflexivity].
    pose proof Hsuf as Hws. pose proof (span_digits_padding suf Hsuf) as Hsp.
    destruct suf as [|a r]; [reflexivity|].
    apply padding_cons in Hws. destruct Hws as (Ha & _).
    destruct (ws_chars a Ha) as (_ & _ & -> & -> & _). rewrite Hsp.
    reflexivity.
  - cbn [app]. unfold exp_part.
    destruct ((e =? 0x65) || (e =? 0x45)); [|reflexivity].
    destruct (sg =? MINUS); [|destruct (sg =? PLUS)].
    + rewrite span_digits_suffix.
      destruct (span_digits t) as [[|d ds] r]; reflexivity.
    + rewrite span_digits_suffix.
      destruct (span_digits t) as [[|d ds] r]; reflexivity.
    + change (sg :: t ++ suf) with ((sg :: t) ++ suf).
      rewrite span_digits_suffix.
      destruct (span_digits (sg :: t)) as [[|d ds] r]; reflexivity.
Qed.

Ltac number_tail :=
  rewrite int_part_suffix;
  match goal with
  | |- context [int_part ?s] =>
    destruct (int_part s) as [[? ?s2]|]; [|reflexivity]
  end;
  cbn [string_followed_by]; rewrite frac_part_suffix;
  match goal with
  | |- context [frac_part ?s] => destruct (frac_part s) as [?fdigs ?s3]
  end;
  rewrite exp_part_suffix;
  match goal with
  | |- context [exp_part ?s] => destruct (exp_part s) as [[? ?]|]
  end;
  match goal with
  | fdigs : _ |- _ =>
    destruct fdigs; try reflexivity;
    match goal with
    | |- context [over_limit ?l ?n] => destruct (over_limit l n); reflexivity
    end
  end.

Lemma match_number_suffix (lim : Limits) (s : str) :
  match_number lim (s ++ suf) = followed_by suf (match_number lim s).
Proof.
  unfold match_number. destruct s as [|c t].
  - cbn [app]. pose proof Hsuf as Hws.
    pose proof (int_part_padding suf Hsuf) as Hint.
    destruct suf as [|a r]; [reflexivity|].
    apply padding_cons in Hws. destruct Hws as (Ha & _).
    destruct (ws_chars a Ha) as (_ & _ & -> & _). rewrite Hint. reflexivity.
  - cbn [app]. destruct (c =? MINUS).
    + number_tail.
    + change (c :: t ++ suf) with ((c :: t) ++ suf). number_tail.
Qed.

Lemma strip_prefix_suffix (p s : str) :
  forallb (fun c => negb (is_ws c)) p = true ->
  strip_prefix p (s ++ suf)
  = match strip_prefix p s with Some r => Some (r ++ suf) | None => None end.
Proof.
  revert s. induction p as [|x p IH]; intros s Hp; [reflexivity|].
  cbn [forallb] in Hp. apply andb_prop in Hp. destruct Hp as (Hx & Hp).
  destruct s as [|y s].
  - cbn [app]. pose proof Hsuf as Hws.
    destruct suf as [|a r]; [reflexivity|].
    apply padding_cons in Hws. destruct Hws as (Ha & _).
    cbn [strip_prefix]. destruct (N.eqb_spec x a) as [->|_]; [|reflexivity].
    rewrite Ha in Hx. discriminate.
  - cbn [app strip_prefix]. destruct (x =? y); [|reflexivity].
    apply IH. exact Hp.
Qed.

Lemma scan_atom_suffix (lim : Limits) (s : str) :
  scan_atom lim (s ++ suf) = followed_by suf (scan_atom lim s).
Proof.
  unfold scan_atom.
  repeat (rewrite strip_prefix_suffix by reflexivity;
          match goal with
          | |- context [strip_prefix ?p s] =>
            destruct (strip_prefix p s); [reflexivity|]
          end).
  apply match_number_suffix.
Qed.

(** Values, members and elements. *)

Section Scan.

Variable lim : Limits.

Lemma scan_once_nil (n d : nat) : scan_once lim n d [] = Refused.
Proof. destruct n; reflexivity. Qed.

Lemma scan_once_padding (n d : nat) : scan_once lim n d suf = Refused.
Proof.
  destruct n; [reflexivity|].
  pose proof Hsuf as Hws. pose proof (scan_atom_suffix lim []) as Hatom.
  cbn [app] in Hatom.
  destruct suf as [|a r]; [reflexivity|].
  apply padding_cons in Hws. destruct Hws as (Ha & _).
  rewrite JsonFacts.scan_once_S, (ws_not_quote a Ha).
  destruct (ws_chars a Ha) as (-> & -> & _). exact Hatom.
Qed.

Lemma refuse_reads_nothing {A} (d : nat) : reads_nothing (@refuse A lim d).
Proof. unfold refuse. destruct (report_check lim d); exact I. Qed.

Lemma parse_members_nil (n d : nat) :
  reads_nothing (parse_members lim n d []).
Proof. destruct n; [exact I|apply refuse_reads_nothing]. Qed.

Lemma parse_elements_nil (n d : nat) :
  reads_nothing (parse_elements lim n d []).
Proof.
  destruct n; [exact I|]. rewrite JsonFacts.parse_elements_S, scan_once_nil.
  exact I.
Qed.

Lemma parse_members_padding (n d : nat) :
  parse_members lim n d suf = parse_members lim n d [].
Proof.
  destruct n; [reflexivity|]. pose proof Hsuf as Hws.
  destruct suf as [|a r]; [reflexivity|].
  apply padding_cons in Hws. destruct Hws as (Ha & _).
  rewrite JsonFacts.parse_members_S, (ws_not_quote a Ha). reflexivity.
Qed.

Lemma followed_by_nothing {A} (r : scan A) :
  reads_nothing r -> followed_by suf r = r.
Proof. destruct r; [contradiction|reflexivity|reflexivity]. Qed.

Lemma after_skip_ws {A} (f : str -> scan A) (s : str) :
  reads_nothing (f []) ->
  (forall x, f (x ++ suf) = followed_by suf (f x)) ->
  f (skip_ws (s ++ suf)) = followed_by suf (f (skip_ws s)).
Proof.
  intros Hnil Hf. rewrite skip_ws_suffix.
  destruct (skip_ws s) as [|c r];
    [symmetry; apply followed_by_nothing; exact Hnil|].
  exact (Hf (c :: r)).
Qed.

Lemma scan_suffix (n : nat) :
  (forall d s,
      scan_once lim n d (s ++ suf) = followed_by suf (scan_once lim n d s)) /\
  (forall d s,
      parse_members lim n d (s ++ suf)
      = followed_by suf (parse_members lim n d s)) /\
  (forall d s,
      parse_elements lim n d (s ++ suf)
      = followed_by suf (parse_elements lim n d s)).
Proof.
  induction n as [|n (IHs & IHm & IHe)]; [repeat split|].
  split; [|split]; intros d s.
  - destruct s as [|c t]; [exact (scan_once_padding (S n) d)|].
    cbn [app]. rewrite !JsonFacts.scan_once_S. destruct (c =? QUOTE).
    { rewrite scanstring_suffix.
      destruct (scanstring t) as [[x r]|];
        [reflexivity|symmetry; apply followed_by_refuse]. }
    destruct (c =? LBRACE).
    { destruct (may_enter lim d); [|reflexivity].
      rewrite skip_ws_suffix.
      destruct (skip_ws t) as [|c1 t1];
        [symmetry; apply followed_by_refuse|].
      destruct (c1 =? RBRACE); [reflexivity|].
      change (c1 :: t1 ++ suf) with ((c1 :: t1) ++ suf). rewrite IHm.
      destruct (parse_members lim n (S d) (c1 :: t1)) as [pairs r| |e];
        reflexivity. }
    destruct (c =? LBRACKET).
    { destruct (may_enter lim d); [|reflexivity].
      rewrite skip_ws_suffix. destruct (skip_ws t) as [|c1 t1]; [reflexivity|].
      destruct (c1 =? RBRACKET); [reflexivity|].
      change (c1 :: t1 ++ suf) with ((c1 :: t1) ++ suf). rewrite IHe.
      destruct (parse_elements lim n (S d) (c1 :: t1)) as [vs r| |e];
        reflexivity. }
    exact (scan_atom_suffix lim (c :: t)).
  - destruct s as [|q t].
    { cbn [app]. rewrite (parse_members_padding (S n) d). symmetry.
      apply followed_by_nothing, parse_members_nil. }
    cbn [app]. rewrite !JsonFacts.parse_members_S.
    destruct (q =? QUOTE); [|symmetry; apply followed_by_refuse].
    rewrite scanstring_suffix.
    destruct (scanstring t) as [[key s1]|];
      [|symmetry; apply followed_by_refuse].
    cbn [string_followed_by]. rewrite skip_ws_suffix.
    destruct (skip_ws s1) as [|c s2]; [symmetry; apply followed_by_refuse|].
    destruct (c =? COLON); [|symmetry; apply followed_by_refuse].
    rewrite (after_skip_ws (scan_once lim n d) s2
               ltac:(rewrite scan_once_nil; exact I) (IHs d)).
    destruct (scan_once lim n d (skip_ws s2)) as [v s3| |e];
      [|reflexivity|reflexivity].
    cbn [followed_by]. rewrite skip_ws_suffix.
    destruct (skip_ws s3) as [|x s4]; [symmetry; apply followed_by_refuse|].
    destruct (x =? RBRACE); [reflexivity|].
    destruct (x =? COMMA); [|symmetry; apply followed_by_refuse].
    rewrite (after_skip_ws (parse_members lim n d) s4
               (parse_members_nil n d) (IHm d)).
    rewrite followed_by_push. reflexivity.
  - rewrite !JsonFacts.parse_elements_S, IHs.
    destruct (scan_once lim n d s) as [v s1| |e]; [|reflexivity|reflexivity].
    cbn [followed_by]. rewrite skip_ws_suffix.
    destruct (skip_ws s1) as [|x s2]; [symmetry; apply followed_by_refuse|].
    destruct (x =? RBRACKET); [reflexivity|].
    destruct (x =? COMMA); [|symmetry; apply followed_by_refuse].
    rewrite (after_skip_ws (parse_elements lim n d) s2
               (parse_elements_nil n d) (IHe d)).
    rewrite followed_by_push. reflexivity.
Qed.

End Scan.

End Suffix.

Lemma json_loads_unfold (lim : Limits) (c : N) (t : str) :
  json_loads lim (c :: t)
  = if c =? BOM then JSONDecodeError
    else match scan_once lim (2 * length (c :: t) + 1) 0 (skip_ws (c :: t)) with
         | Scanned v r =>
           match skip_ws r with [] => Loaded v | _ => JSONDecodeError end
         | Refused => JSONDecodeError
         | Stopped e => Raised e
         end.
Proof. reflexivity. Qed.

(** White space after a document changes nothing of what [json.loads]
    comes to. *)
Lemma json_loads_suffix (lim : Limits) (s suf : str) :
  padding suf = true -> json_loads lim (s ++ suf) = json_loads lim s.
Proof.
  intros Hsuf. destruct s as [|c t].
  - cbn [app]. destruct suf as [|a r]; [reflexivity|].
    rewrite json_loads_unfold, (skip_ws_all (a :: r) Hsuf), scan_once_nil.
    destruct (a =? BOM); reflexivity.
  - change ((c :: t) ++ suf) with (c :: (t ++ suf)).
    rewrite !json_loads_unfold. destruct (c =? BOM); [reflexivity|].
    change (c :: (t ++ suf)) with ((c :: t) ++ suf).
    destruct (scan_suffix suf Hsuf lim (2 * length ((c :: t) ++ suf) + 1))
      as (Hs & _).
    rewrite (after_skip_ws suf Hsuf (scan_once lim _ 0) (c :: t)
               ltac:(rewrite scan_once_nil; exact I) (Hs 0%nat)).
    pose proof (JsonFacts.skip_ws_length (c :: t)) as Hlen.
    rewrite (@JsonFacts.scan_once_any_fuel lim
               (2 * length ((c :: t) ++ suf) + 1)
               (2 * length (c :: t) + 1) 0 (skip_ws (c :: t)))
      by (rewrite ?length_app; lia).
    destruct (scan_once lim (2 * length (c :: t) + 1) 0 (skip_ws (c :: t)))
      as [v r| |e]; [|reflexivity|reflexivity].
    cbn [followed_by]. rewrite (skip_ws_suffix suf Hsuf r).
    destruct (skip_ws r); reflexivity.
Qed.

Lemma scan_once_mark (lim : Limits) (n d : nat) (t : str) :
  scan_once lim n d (BOM :: t) = Refused.
Proof. destruct n; reflexivity. Qed.

(** White space before a document changes nothing either. *)
Lemma json_loads_prefix (lim : Limits) (pre s : str) :
  padding pre = true -> json_loads lim (pre ++ s) = json_loads lim s.
Proof.
  intros Hpre. destruct pre as [|a pre]; [reflexivity|].
  change ((a :: pre) ++ s) with (a :: (pre ++ s)).
  rewrite json_loads_unfold.
  change (a :: (pre ++ s)) with ((a :: pre) ++ s).
  rewrite (@JsonRoundTrip.skip_ws_padding (a :: pre) s Hpre).
  apply padding_cons in Hpre. destruct Hpre as (Ha & _).
  assert ((a =? BOM) = false) as ->.
  { destruct (@JsonRoundTrip.is_ws_cases a Ha) as [-> | [-> | [-> | ->]]];
      reflexivity. }
  destruct s as [|c t].
  - cbn [skip_ws]. rewrite scan_once_nil. reflexivity.
  - rewrite json_loads_unfold. destruct (N.eqb_spec c BOM) as [->|_].
    + change (skip_ws (BOM :: t)) with (BOM :: t).
      rewrite scan_once_mark. reflexivity.
    + pose proof (JsonFacts.skip_ws_length (c :: t)) as Hlen.
      rewrite (@JsonFacts.scan_once_any_fuel lim
                 (2 * length ((a :: pre) ++ c :: t) + 1)
                 (2 * length (c :: t) + 1) 0 (skip_ws (c :: t)))
        by (rewrite ?length_app; lia).
      reflexivity.
Qed.

Lemma json_loads_padded (lim : Limits) (pre body suf : str) :
  padding pre = true -> padding suf = true ->
  json_loads lim (pre ++ body ++ suf) = json_loads lim body.
Proof.
  intros Hpre Hsuf.
  rewrite (json_loads_prefix lim pre (body ++ suf) Hpre).
  exact (json_loads_suffix lim body suf Hsuf).
Qed.

End JsonPadding.

Set Implicit Arguments.

(** ** The effect layer *)

Lemma bind_ret_l {A B} (a : A) (f : A -> M B) : bind (ret a) f = f a.
Proof. unfold bind, ret. destruct (f a); reflexivity. Qed.

Lemma bind_lift_return {A B} (a : A) (f : A -> M B) :
  bind (lift (Return a)) f = f a.
Proof. exact (bind_ret_l a f). Qed.

Lemma decode_ok (b : bytes) (s : str) :
  utf8_decode b = Some s -> decode b = ret s.
Proof. intros H. unfold decode. rewrite H. reflexivity. Qed.

Lemma str_truthy_true (s : str) : str_truthy s = true <-> s <> [].
Proof. destruct s; simpl; split; intros; congruence. Qed.

(** ** The wallet classifier *)

(** The classifier, case by case: it answers [False] and logs when either
    call raises, and otherwise compares the code with the two octets
    [b'0x']. *)
Lemma is_contract_wallet_cases (w : World) (address : str) :
  is_contract_wallet w address =
  match to_checksum_address w address with
  | Raise e =>
    (Return false, [(ERROR, lit "Error checking wallet type: " ++ str_of_exn e)])
  | Return checksum_address =>
    match get_code w (RPC_URL (ENV w)) checksum_address with
    | Raise e =>
      (Return false,
       [(ERROR, lit "Error checking wallet type: " ++ str_of_exn e)])
    | Return code => (Return (negb (bytes_eqb code (blit "0x"))), [])
    end
  end.
Proof.
  unfold is_contract_wallet.
  destruct (to_checksum_address w address) as [ca|e]; [|reflexivity].
  rewrite bind_lift_return.
  destruct (get_code w (RPC_URL (ENV w)) ca) as [code|e]; reflexivity.
Qed.

Lemma is_contract_wallet_returns (w : World) (address : str) :
  exists b l, is_contract_wallet w address = (Return b, l).
Proof.
  rewrite is_contract_wallet_cases.
  destruct (to_checksum_address w address) as [ca|e]; [|eauto].
  destruct (get_code w (RPC_URL (ENV w)) ca) as [code|e]; eauto.
Qed.

(** C1 (where the code departs from it): an address whose code-at-address
    query answers the empty byte string, an account without code, is
    classified as a contract: [is_contract_wallet] returns [True]. *)
Theorem C1_empty_code_is_classified_as_contract :
  forall (w : World) (address checksum_address : str),
    to_checksum_address w address = Return checksum_address ->
    get_code w (RPC_URL (ENV w)) checksum_address = Return [] ->
    is_contract_wallet w address = ret true.
Proof.
  intros w address ca Hsum Hcode.
  rewrite is_contract_wallet_cases, Hsum, Hcode. reflexivity.
Qed.

Lemma C1_empty_code_witness :
  is_contract_wallet (startup_world None (Return [])) (PROXY_WALLET sample_env)
  = ret true.
Proof.
  apply (@C1_empty_code_is_classified_as_contract
           (startup_world None (Return [])) (PROXY_WALLET sample_env)
           (PROXY_WALLET sample_env)); reflexivity.
Defined.

(** The part of C1 the code does keep: an RPC failure is classified as
    [False], and logged. *)
Lemma is_contract_wallet_rpc_error (w : World) (address ca : str) (e : exn) :
  to_checksum_address w address = Return ca ->
  get_code w (RPC_URL (ENV w)) ca = Raise e ->
  outcome (is_contract_wallet w address) = Return false.
Proof.
  intros Hsum Hcode. rewrite is_contract_wallet_cases, Hsum, Hcode. reflexivity.
Qed.

(** ** The bridge *)

Lemma run_clob_bridge_exits (w : World) (action : str) (payload : pyval)
    (p : Completed) :
  bridge_exits w action payload p ->
  run_clob_bridge w action payload = bridge_response (limits w) p.
Proof.
  intros (node & Hwhich & Hnode & Hpath & Hspawn).
  unfold run_clob_bridge. rewrite Hwhich.
  destruct node as [|c node]; [contradiction|].
  rewrite Hpath, bind_lift_return. simpl negb. cbv iota.
  rewrite Hspawn. apply bind_lift_return.
Qed.

Lemma bridge_response_nonzero (lim : Json.Limits) (p : Completed) (err : str) :
  returncode p <> 0%Z ->
  utf8_decode (stderr p) = Some err ->
  bridge_response lim p =
  (text <- (if str_truthy err then ret err else decode (stdout p)) ;;
   ret (failure (if str_truthy (strip text) then strip text else BRIDGE_FAILED))).
Proof.
  intros Hrc Herr. unfold bridge_response.
  apply Z.eqb_neq in Hrc. rewrite Hrc. simpl negb. cbv iota.
  rewrite (decode_ok _ Herr), bind_ret_l. reflexivity.
Qed.

Lemma bridge_response_zero (lim : Json.Limits) (p : Completed) (out : str) :
  returncode p = 0%Z ->
  utf8_decode (stdout p) = Some out ->
  bridge_response lim p =
  match Json.json_loads lim (parsed_text out) with
  | Json.Loaded v => ret v
  | Json.JSONDecodeError => ret (failure INVALID_RESPONSE)
  | Json.Raised e => raise e
  end.
Proof.
  intros Hrc Hout. unfold bridge_response.
  rewrite Hrc. simpl negb. cbv iota.
  rewrite (decode_ok _ Hout), bind_ret_l. reflexivity.
Qed.

Lemma parsed_text_nonempty (out : str) : out <> [] -> parsed_text out = out.
Proof. destruct out; [contradiction|reflexivity]. Qed.

(** The [{}] that stands in for empty output loads as the empty dict
    when the scanner may enter an object. *)
Lemma json_loads_empty_object_cases (lim : Json.Limits) :
  Json.json_loads lim (parsed_text [])
  = if Json.may_enter lim 0 then Json.Loaded (PDict [])
    else Json.Raised (Json.recursion_error "object").
Proof.
  unfold Json.json_loads. cbn -[Json.may_enter Json.recursion_error].
  destruct (Json.may_enter lim 0); reflexivity.
Qed.

Lemma json_loads_empty_object (lim : Json.Limits) :
  Json.may_enter lim 0 = true ->
  Json.json_loads lim (lit "{}") = Json.Loaded (PDict []).
Proof.
  intros Hin. change (lit "{}") with (parsed_text []).
  rewrite json_loads_empty_object_cases, Hin. reflexivity.
Qed.

Lemma bridge_world_exits (rc : Z) (out err : string) (action : str)
    (payload : pyval) :
  bridge_exits (bridge_world rc out err) action payload (completed rc out err).
Proof.
  exists (lit "/usr/bin/node"). repeat split. discriminate.
Qed.

Lemma reply_world_exits (out : bytes) (action : str) (payload : pyval) :
  bridge_exits (reply_world out) action payload (replied out).
Proof.
  exists (lit "/usr/bin/node"). repeat split. discriminate.
Qed.

(** The three layouts are layouts. *)
Lemma padding_spaces (k : nat) : Json.padding (repeat 0x20%N k) = true.
Proof. induction k as [|k IH]; [reflexivity|exact IH]. Qed.

Lemma python_layout_ok : JsonSpec.layout_ok Json.python_layout.
Proof. split; [intros d; repeat split|reflexivity]. Qed.

Lemma compact_layout_ok : JsonSpec.layout_ok Json.compact_layout.
Proof. split; [intros d; repeat split|reflexivity]. Qed.

Lemma indented_layout_ok (k : nat) : JsonSpec.layout_ok (Json.indented_layout k).
Proof.
  split; [intros d; repeat split; apply (padding_spaces (k * d))|reflexivity].
Qed.

(** C2 (as stated, it fails): the child exits with status 0 and writes
    nothing; the bridge does not answer with the invalid-response error
    but with the empty object. *)
Lemma C2_empty_stdout_counterexample :
  bridge_exits (bridge_world 0 "" "") (lit "post_order") PNone
    (completed 0 "" "") /\
  returncode (completed 0 "" "") = 0%Z /\
  stdout (completed 0 "" "") = [] /\
  run_clob_bridge (bridge_world 0 "" "") (lit "post_order") PNone
  = ret (PDict []) /\
  PDict [] <> failure INVALID_RESPONSE.
Proof.
  split; [apply bridge_world_exits|].
  repeat split. discriminate.
Qed.

(** C2 (amended): when the child exits with status 0 and its standard
    output is non-empty text that [json.loads] refuses with
    [JSONDecodeError], the bridge returns
    [{success: false, error: "Invalid response from CLOB bridge"}]; when
    its standard output is empty, the bridge returns the empty object
    (the interpreter having room to enter one object).  Text outside JSON
    is not always refused so: [NaN] is accepted and comes back as a
    float; and an error of [json.loads] that is no [JSONDecodeError]
    (the [ValueError] of an integer literal with more digits than [int]
    takes, a [RecursionError]) is not caught: the bridge raises it. *)
Theorem C2_invalid_output_is_reported :
  forall (w : World) (action : str) (payload : pyval) (p : Completed)
         (out : str),
    bridge_exits w action payload p ->
    returncode p = 0%Z ->
    utf8_decode (stdout p) = Some out ->
    (out <> [] -> Json.json_loads (limits w) out = Json.JSONDecodeError ->
     run_clob_bridge w action payload = ret (failure INVALID_RESPONSE)) /\
    (out = [] -> Json.may_enter (limits w) 0 = true ->
     run_clob_bridge w action payload = ret (PDict [])) /\
    (out = lit "NaN" -> run_clob_bridge w action payload = ret (PFloat FNaN)) /\
    (forall e,
        Json.json_loads (limits w) out = Json.Raised e ->
        run_clob_bridge w action payload = raise e).
Proof.
  intros w action payload p out Hexit Hrc Hout.
  rewrite (run_clob_bridge_exits Hexit),
    (@bridge_response_zero (limits w) p out Hrc Hout).
  repeat apply conj.
  - intros Hne Hbad. rewrite (parsed_text_nonempty Hne), Hbad. reflexivity.
  - intros -> Hin. change (parsed_text []) with (lit "{}").
    rewrite (json_loads_empty_object _ Hin). reflexivity.
  - intros ->. reflexivity.
  - intros e He. destruct out as [|c out]; [discriminate|].
    change (parsed_text (c :: out)) with (c :: out). rewrite He. reflexivity.
Qed.

Lemma C2_invalid_output_witness :
  run_clob_bridge (bridge_world 0 "{success: true}" "") (lit "post_order") PNone
  = ret (failure INVALID_RESPONSE) /\
  run_clob_bridge (bridge_world 0 "" "") (lit "post_order") PNone
  = ret (PDict []) /\
  run_clob_bridge (bridge_world 0 "NaN" "") (lit "post_order") PNone
  = ret (PFloat FNaN) /\
  run_clob_bridge (reply_world long_array_output) (lit "post_order") PNone
  = raise digits_exceeded.
Proof.
  repeat apply conj.
  - refine (proj1 (@C2_invalid_output_is_reported
                     (bridge_world 0 "{success: true}" "") (lit "post_order")
                     PNone (completed 0 "{success: true}" "")
                     (lit "{success: true}") _ _ _) _ _).
    + apply bridge_world_exits.
    + reflexivity.
    + reflexivity.
    + discriminate.
    + reflexivity.
  - refine (proj1 (proj2 (@C2_invalid_output_is_reported
                     (bridge_world 0 "" "") (lit "post_order")
                     PNone (completed 0 "" "") [] _ _ _)) _ _).
    + apply bridge_world_exits.
    + reflexivity.
    + reflexivity.
    + reflexivity.
    + reflexivity.
  - refine (proj1 (proj2 (proj2 (@C2_invalid_output_is_reported
                     (bridge_world 0 "NaN" "") (lit "post_order")
                     PNone (completed 0 "NaN" "") (lit "NaN") _ _ _))) _).
    + apply bridge_world_exits.
    + reflexivity.
    + reflexivity.
    + reflexivity.
  - refine (proj2 (proj2 (proj2 (@C2_invalid_output_is_reported
                     (reply_world long_array_output) (lit "post_order")
                     PNone (replied long_array_output)
                     (91%N :: repeat 49%N 4301) _ _ _))) digits_exceeded _).
    + apply reply_world_exits.
    + reflexivity.
    + vm_compute. reflexivity.
    + vm_compute. reflexivity.
Defined.

(** Output that is not UTF-8 text: the decoding error is not caught, and
    the bridge raises it, with the message [str(e)] has. *)
Lemma run_clob_bridge_undecodable_output :
  outcome (run_clob_bridge (reply_world [xff]) (lit "post_order") PNone)
  = Raise (Exception "UnicodeDecodeError"
             (lit "'utf-8' codec can't decode byte 0xff in position 0: invalid start byte")).
Proof. reflexivity. Qed.

(** A stream the bridge has to read and cannot: the decoding error is
    raised. *)
Lemma bridge_response_unreadable (lim : Json.Limits) (p : Completed)
    (b : bytes) :
  unreadable_stream p = Some b -> bridge_response lim p = raise (decode_error b).
Proof.
  unfold unreadable_stream, bridge_response, decode.
  destruct (returncode p =? 0)%Z; simpl negb; cbv iota.
  - destruct (utf8_decode (stdout p)) as [out|]; [discriminate|].
    intros H. injection H as <-. reflexivity.
  - destruct (utf8_decode (stderr p)) as [[|c err]|]; try discriminate.
    + destruct (utf8_decode (stdout p)) as [out|]; [discriminate|].
      intros H. injection H as <-. reflexivity.
    + intros H. injection H as <-. reflexivity.
Qed.

(** When every stream the bridge has to read is text, it raises only
    what [json.loads] raises, after exit status 0. *)
Lemma bridge_response_readable (lim : Json.Limits) (p : Completed) (e : exn) :
  unreadable_stream p = None ->
  outcome (bridge_response lim p) = Raise e ->
  returncode p = 0%Z /\
  exists out,
    utf8_decode (stdout p) = Some out /\
    Json.json_loads lim (parsed_text out) = Json.Raised e.
Proof.
  unfold unreadable_stream, bridge_response, decode.
  destruct (Z.eqb_spec (returncode p) 0) as [Hrc|Hrc]; simpl negb; cbv iota.
  - destruct (utf8_decode (stdout p)) as [out|]; [|discriminate].
    intros _. rewrite bind_ret_l. fold (parsed_text out).
    destruct (Json.json_loads lim (parsed_text out)) as [v| |e'] eqn:Hj;
      try discriminate.
    intros H. split; [exact Hrc|]. exists out. split; [reflexivity|].
    simpl in H. congruence.
  - destruct (utf8_decode (stderr p)) as [[|c err]|]; try discriminate.
    destruct (utf8_decode (stdout p)) as [out|]; discriminate.
Qed.

(** When [run_clob_bridge] raises: the look for the script failed, the
    spawn failed, a stream it reads is not UTF-8 text, or [json.loads]
    raised an error that is no [JSONDecodeError]. *)
Lemma run_clob_bridge_raises (w : World) (action : str) (payload : pyval)
    (e : exn) :
  outcome (run_clob_bridge w action payload) = Raise e ->
  (opt_str_truthy (which w (lit "node")) = true /\
   path_exists w (script_path w) = Raise e) \/
  (exists node_path,
      which w (lit "node") = Some node_path /\ node_path <> [] /\
      path_exists w (script_path w) = Return true /\
      spawn w node_path (script_path w) (bridge_request action payload)
      = Raise e) \/
  (exists p b,
      bridge_exits w action payload p /\
      unreadable_stream p = Some b /\ e = decode_error b) \/
  (exists p out,
      bridge_exits w action payload p /\ returncode p = 0%Z /\
      utf8_decode (stdout p) = Some out /\
      Json.json_loads (limits w) (parsed_text out) = Json.Raised e).
Proof.
  unfold run_clob_bridge.
  destruct (which w (lit "node")) as [[|c node]|] eqn:Hwhich;
    try discriminate.
  destruct (path_exists w (script_path w)) as [[|]|e'] eqn:Hpath.
  - rewrite bind_lift_return. simpl negb. cbv iota.
    destruct (spawn w (c :: node) (script_path w)
                (bridge_request action payload)) as [p|e'] eqn:Hspawn.
    + rewrite bind_lift_return. intros Hraise.
      assert (bridge_exits w action payload p) as Hexit.
      { exists (c :: node). repeat split; try assumption. discriminate. }
      destruct (unreadable_stream p) as [b|] eqn:Hun.
      * right. right. left. exists p, b. repeat split; try assumption.
        rewrite (bridge_response_unreadable (limits w) _ Hun) in Hraise.
        simpl in Hraise. congruence.
      * right. right. right.
        destruct (bridge_response_readable (limits w) _ Hun Hraise)
          as (Hrc & out & Hout & Hj).
        exists p, out. repeat split; assumption.
    + intros Hraise. right. left. exists (c :: node).
      repeat split; try assumption; [discriminate|].
      simpl in Hraise. congruence.
  - rewrite bind_lift_return. discriminate.
  - intros Hraise. left. split; [reflexivity|].
    simpl in Hraise. congruence.
Qed.

(** C4 (as stated, it fails): the child exits with status 0 and writes the
    JSON document [[1]]; the bridge returns that list, which is not a
    [BridgeResponse]; with empty output it returns the empty object, which
    has no [success] field. *)
Lemma C4_not_a_response_counterexample :
  (run_clob_bridge (bridge_world 0 "[1]" "") (lit "post_order") PNone
   = ret (PList [PInt 1]) /\
   well_formed_response (PList [PInt 1]) = false) /\
  (run_clob_bridge (bridge_world 0 "" "") (lit "post_order") PNone
   = ret (PDict []) /\
   well_formed_response (PDict []) = false).
Proof. repeat split. Qed.

(** C4 (amended): [run_clob_bridge] returns
    [{success: false, error: <message>}] when the executable is absent,
    when the script is absent, when the child exits non-zero, and when it
    exits 0 with non-empty output that [json.loads] refuses with
    [JSONDecodeError]; when the child exits 0 with output [json.loads]
    accepts it returns the parsed value as it is, well-formed
    [BridgeResponse] or not, and with empty output the empty object (the
    output it reads being UTF-8 text, and the interpreter having room to
    enter one object).  And it does raise to its caller: what the look
    for the script raises, what starting or talking to the child raises,
    the decoding error of a stream it has to read that is not UTF-8, and
    what [json.loads] raises other than [JSONDecodeError]. *)
Theorem C4_bridge_failures_are_values :
  forall (w : World) (action : str) (payload : pyval),
    (opt_str_truthy (which w (lit "node")) = false ->
     run_clob_bridge w action payload = ret (failure NODE_REQUIRED)) /\
    (opt_str_truthy (which w (lit "node")) = true ->
     path_exists w (script_path w) = Return false ->
     run_clob_bridge w action payload
     = ret (failure (SCRIPT_NOT_FOUND ++ script_path w))) /\
    (forall p err,
        bridge_exits w action payload p -> returncode p <> 0%Z ->
        utf8_decode (stderr p) = Some err ->
        (err = [] -> utf8_decode (stdout p) <> None) ->
        exists msg, run_clob_bridge w action payload = ret (failure msg)) /\
    (forall p out,
        bridge_exits w action payload p -> returncode p = 0%Z ->
        utf8_decode (stdout p) = Some out -> out <> [] ->
        Json.json_loads (limits w) out = Json.JSONDecodeError ->
        run_clob_bridge w action payload = ret (failure INVALID_RESPONSE)) /\
    (forall p out v,
        bridge_exits w action payload p -> returncode p = 0%Z ->
        utf8_decode (stdout p) = Some out ->
        Json.json_loads (limits w) out = Json.Loaded v ->
        run_clob_bridge w action payload = ret v) /\
    (forall p,
        bridge_exits w action payload p -> returncode p = 0%Z ->
        stdout p = [] -> Json.may_enter (limits w) 0 = true ->
        run_clob_bridge w action payload = ret (PDict [])) /\
    (forall e,
        opt_str_truthy (which w (lit "node")) = true ->
        path_exists w (script_path w) = Raise e ->
        run_clob_bridge w action payload = raise e) /\
    (forall node_path e,
        which w (lit "node") = Some node_path -> node_path <> [] ->
        path_exists w (script_path w) = Return true ->
        spawn w node_path (script_path w) (bridge_request action payload)
        = Raise e ->
        run_clob_bridge w action payload = raise e) /\
    (forall p b,
        bridge_exits w action payload p -> unreadable_stream p = Some b ->
        run_clob_bridge w action payload = raise (decode_error b)) /\
    (forall p out e,
        bridge_exits w action payload p -> returncode p = 0%Z ->
        utf8_decode (stdout p) = Some out ->
        Json.json_loads (limits w) (parsed_text out) = Json.Raised e ->
        run_clob_bridge w action payload = raise e).
Proof.
  intros w action payload. repeat apply conj.
  - intros Hnode. unfold run_clob_bridge.
    destruct (which w (lit "node")) as [[|c node]|]; try reflexivity.
    discriminate.
  - intros Hnode Hpath. unfold run_clob_bridge.
    destruct (which w (lit "node")) as [[|c node]|]; try discriminate.
    rewrite Hpath. reflexivity.
  - intros p err Hexit Hrc Herr Hout.
    rewrite (run_clob_bridge_exits Hexit),
      (@bridge_response_nonzero (limits w) p err Hrc Herr).
    destruct err as [|c err].
    + destruct (utf8_decode (stdout p)) as [out|] eqn:Hdec.
      * simpl. rewrite (decode_ok _ Hdec), bind_ret_l. eauto.
      * exfalso. apply Hout; reflexivity.
    + simpl str_truthy. cbv iota. rewrite bind_ret_l. eauto.
  - intros p out Hexit Hrc Hout Hne Hbad.
    rewrite (run_clob_bridge_exits Hexit),
      (@bridge_response_zero (limits w) p out Hrc Hout).
    rewrite (parsed_text_nonempty Hne), Hbad. reflexivity.
  - intros p out v Hexit Hrc Hout Hv.
    rewrite (run_clob_bridge_exits Hexit),
      (@bridge_response_zero (limits w) p out Hrc Hout).
    destruct out as [|c out]; [discriminate|].
    change (parsed_text (c :: out)) with (c :: out). rewrite Hv. reflexivity.
  - intros p Hexit Hrc Hout Hin.
    assert (utf8_decode (stdout p) = Some []) as Hdec
      by (rewrite Hout; reflexivity).
    rewrite (run_clob_bridge_exits Hexit),
      (@bridge_response_zero (limits w) p [] Hrc Hdec).
    change (parsed_text []) with (lit "{}").
    rewrite (json_loads_empty_object _ Hin). reflexivity.
  - intros e Hnode Hpath. unfold run_clob_bridge.
    destruct (which w (lit "node")) as [[|c node]|]; try discriminate.
    rewrite Hpath. reflexivity.
  - intros node e Hwhich Hnode Hpath Hspawn. unfold run_clob_bridge.
    rewrite Hwhich. destruct node as [|c node]; [contradiction|].
    rewrite Hpath, bind_lift_return. simpl negb. cbv iota.
    rewrite Hspawn. reflexivity.
  - intros p b Hexit Hun.
    rewrite (run_clob_bridge_exits Hexit).
    apply bridge_response_unreadable. exact Hun.
  - intros p out e Hexit Hrc Hout He.
    rewrite (run_clob_bridge_exits Hexit),
      (@bridge_response_zero (limits w) p out Hrc Hout), He. reflexivity.
Qed.

Lemma C4_bridge_failures_witness :
  run_clob_bridge (sample_world None (Return []) None true
                     (Return (completed 0 "{}" "")))
    (lit "post_order") PNone
  = ret (failure NODE_REQUIRED) /\
  run_clob_bridge (sample_world None (Return []) (Some (lit "/usr/bin/node"))
                     false (Return (completed 0 "{}" "")))
    (lit "post_order") PNone
  = ret (failure (lit "CLOB bridge script not found at /opt/bot/python/scripts/clob_bridge.mjs")) /\
  (exists msg,
      run_clob_bridge (bridge_world 2 "" "boom") (lit "post_order") PNone
      = ret (failure msg)) /\
  run_clob_bridge (bridge_world 0 "oops" "") (lit "post_order") PNone
  = ret (failure INVALID_RESPONSE) /\
  run_clob_bridge (bridge_world 0 "{'success': true, 'orderID': 7}" "")
    (lit "post_order") PNone
  = ret (PDict [(lit "success", PBool true); (lit "orderID", PInt 7)]) /\
  run_clob_bridge (bridge_world 0 "" "") (lit "post_order") PNone
  = ret (PDict []) /\
  run_clob_bridge (reply_world [xc3]) (lit "post_order") PNone
  = raise (decode_error [xc3]) /\
  run_clob_bridge (reply_world long_order_output) (lit "post_order") PNone
  = raise digits_exceeded.
Proof.
  repeat apply conj.
  - apply (proj1 (C4_bridge_failures_are_values
                    (sample_world None (Return []) None true
                       (Return (completed 0 "{}" "")))
                    (lit "post_order") PNone)).
    reflexivity.
  - apply (proj1 (proj2 (C4_bridge_failures_are_values
                    (sample_world None (Return [])
                       (Some (lit "/usr/bin/node")) false
                       (Return (completed 0 "{}" "")))
                    (lit "post_order") PNone))); reflexivity.
  - apply (proj1 (proj2 (proj2 (C4_bridge_failures_are_values
                    (bridge_world 2 "" "boom") (lit "post_order") PNone)))
             (completed 2 "" "boom") (lit "boom")).
    + apply bridge_world_exits.
    + discriminate.
    + reflexivity.
    + discriminate.
  - apply (proj1 (proj2 (proj2 (proj2 (C4_bridge_failures_are_values
                    (bridge_world 0 "oops" "") (lit "post_order") PNone))))
             (completed 0 "oops" "") (lit "oops")).
    + apply bridge_world_exits.
    + reflexivity.
    + reflexivity.
    + discriminate.
    + reflexivity.
  - apply (proj1 (proj2 (proj2 (proj2 (proj2 (C4_bridge_failures_are_values
                    (bridge_world 0 "{'success': true, 'orderID': 7}" "")
                    (lit "post_order") PNone)))))
             (completed 0 "{'success': true, 'orderID': 7}" "")
             (qlit "{'success': true, 'orderID': 7}")).
    + apply bridge_world_exits.
    + reflexivity.
    + reflexivity.
    + reflexivity.
  - apply (proj1 (proj2 (proj2 (proj2 (proj2 (proj2
             (C4_bridge_failures_are_values
                (bridge_world 0 "" "") (lit "post_order") PNone))))))
             (completed 0 "" "")).
    + apply bridge_world_exits.
    + reflexivity.
    + reflexivity.
    + reflexivity.
  - apply (proj1 (proj2 (proj2 (proj2 (proj2 (proj2 (proj2 (proj2 (proj2
             (C4_bridge_failures_are_values
                (reply_world [xc3]) (lit "post_order") PNone)))))))))
             (replied [xc3]) [xc3]).
    + apply reply_world_exits.
    + reflexivity.
  - apply (proj2 (proj2 (proj2 (proj2 (proj2 (proj2 (proj2 (proj2 (proj2
             (C4_bridge_failures_are_values
                (reply_world long_order_output) (lit "post_order") PNone)))))))))
             (replied long_order_output) long_order_text digits_exceeded).
    + apply reply_world_exits.
    + reflexivity.
    + vm_compute. reflexivity.
    + vm_compute. reflexivity.
Defined.

(** C6 (as stated, it fails): the child exits with status 1, its standard
    error holds a line feed only and its standard output the text
    "details"; the error returned is the generic message, neither the
    standard-error content nor the standard-output content. *)
Lemma C6_blank_stderr_counterexample :
  bridge_exits (bridge_world 1 "details" "
") (lit "post_order") PNone (completed 1 "details" "
") /\
  stderr (completed 1 "details" "
") = [x0a] /\
  stdout (completed 1 "details" "
") = blit "details" /\
  run_clob_bridge (bridge_world 1 "details" "
") (lit "post_order") PNone = ret (failure BRIDGE_FAILED) /\
  BRIDGE_FAILED <> [10%N] /\ BRIDGE_FAILED <> lit "details".
Proof.
  split; [apply bridge_world_exits|].
  repeat split; discriminate.
Qed.

(** C6 (amended): when the child exits with a non-zero status, the error
    returned is the text of standard error with the white space around it
    stripped when standard error is non-empty, else the stripped text of
    standard output; whenever the stripped text is empty the error is the
    generic message "CLOB bridge failed".  In particular, exit status 1
    with standard error "bad signature" yields "bad signature". *)
Theorem C6_nonzero_exit_error_text :
  forall (w : World) (action : str) (payload : pyval) (p : Completed)
         (err : str),
    bridge_exits w action payload p ->
    returncode p <> 0%Z ->
    utf8_decode (stderr p) = Some err ->
    (err <> [] ->
     run_clob_bridge w action payload
     = ret (failure (if str_truthy (strip err)
                     then strip err else BRIDGE_FAILED))) /\
    (err = [] ->
     forall out, utf8_decode (stdout p) = Some out ->
     run_clob_bridge w action payload
     = ret (failure (if str_truthy (strip out)
                     then strip out else BRIDGE_FAILED))) /\
    (returncode p = 1%Z -> stderr p = blit "bad signature" ->
     run_clob_bridge w action payload = ret (failure (lit "bad signature"))).
Proof.
  intros w action payload p err Hexit Hrc Herr.
  rewrite (run_clob_bridge_exits Hexit),
    (@bridge_response_nonzero (limits w) p err Hrc Herr).
  repeat apply conj.
  - intros Hne. apply str_truthy_true in Hne. rewrite Hne.
    rewrite bind_ret_l. reflexivity.
  - intros -> out Hout. simpl str_truthy. cbv iota.
    rewrite (decode_ok _ Hout), bind_ret_l. reflexivity.
  - intros _ Hbad. rewrite Hbad in Herr.
    assert (err = lit "bad signature") as ->.
    { vm_compute in Herr. injection Herr as <-. reflexivity. }
    reflexivity.
Qed.

Lemma C6_nonzero_exit_witness :
  run_clob_bridge (bridge_world 1 "ignored" "bad signature") (lit "post_order")
    PNone
  = ret (failure (lit "bad signature")) /\
  run_clob_bridge (bridge_world 3 " order rejected
" "") (lit "post_order") PNone
  = ret (failure (lit "order rejected")).
Proof.
  split.
  - apply (proj2 (proj2 (@C6_nonzero_exit_error_text
                    (bridge_world 1 "ignored" "bad signature")
                    (lit "post_order") PNone
                    (completed 1 "ignored" "bad signature")
                    (lit "bad signature")
                    (bridge_world_exits _ _ _ _ _) ltac:(discriminate)
                    eq_refl))); reflexivity.
  - apply (proj1 (proj2 (@C6_nonzero_exit_error_text
                    (bridge_world 3 " order rejected
" "") (lit "post_order") PNone
                    (completed 3 " order rejected
" "") [] (bridge_world_exits _ _ _ _ _) ltac:(discriminate) eq_refl))
             eq_refl (lit " order rejected
")). reflexivity.
Defined.




(** Of a key that occurs twice in an object, [json.loads] keeps the
    first place and the last value. *)
Lemma repeated_key_keeps_last :
  run_clob_bridge (bridge_world 0 "{'a': 1, 'b': 2, 'a': 3}" no_output)
    (lit "post_order") PNone
  = ret (PDict [(lit "a", PInt 3); (lit "b", PInt 2)]).
Proof. reflexivity. Qed.

(** ** Start-up *)

Lemma resolve_signature_type_returns (o : option str) (b : bool) :
  exists l,
    resolve_signature_type o b =
    (Return (match o with
             | Some (c :: t) => c :: t
             | _ => if b then POLY_PROXY else EOA
             end), l).
Proof.
  unfold resolve_signature_type.
  destruct o as [[|c t]|]; unfold bind, info, ret; simpl; eauto.
Qed.

(** The credential step never raises: what the two methods raise is caught
    and logged, and the credentials are then empty. *)
Lemma acquire_credentials_returns `{CredentialMethods} (c : ClobClient) :
  exists creds l, acquire_credentials c = (Return creds, l).
Proof.
  unfold acquire_credentials.
  destruct (create_api_key c) as [[creds|e] l] eqn:Hc.
  - unfold bind at 1.
    destruct (negb (truthy (get creds (lit "key")))).
    + destruct (derive_api_key c) as [[d|e] l'] eqn:Hd;
        unfold try_except, bind, error, ret; simpl; eauto.
    + unfold try_except, ret; simpl; eauto.
  - unfold bind at 1. unfold try_except, bind, error, ret; simpl; eauto.
Qed.

(** [__init__] keeps the dict it is given: [api_creds or {}] is the dict
    itself, empty or not, and the key is read from it. *)
Lemma ClobClient_init_creds (h : str) (n : Z) (a : LocalAccount) (d : dict)
    (t : str) (pw : option str) :
  api_creds (ClobClient_init h n a (Some d) t pw) = d /\
  api_key (ClobClient_init h n a (Some d) t pw) = get d (lit "key").
Proof. destruct d; split; reflexivity. Qed.

(** The run of [create_clob_client] once the account is built: the first
    client, the credential step on it, the final client around the
    credentials obtained. *)
Lemma create_clob_client_run `{CredentialMethods} (w : World)
    (account : LocalAccount) :
  from_key w (PRIVATE_KEY (ENV w)) = Return account ->
  exists creds l0 l1,
    acquire_credentials (first_client w account) = (Return creds, l1) /\
    create_clob_client w =
    (Return (ClobClient_init (CLOB_HTTP_URL (ENV w)) 137 account (Some creds)
               (signature_type (first_client w account))
               (proxy_wallet (first_client w account))),
     l0 ++ l1).
Proof.
  intros Hkey. unfold create_clob_client. rewrite Hkey, bind_lift_return.
  unfold first_client, classified_as_contract.
  destruct (is_contract_wallet_returns w (PROXY_WALLET (ENV w))) as (b & lb & Hb).
  rewrite Hb. simpl outcome. cbv iota.
  destruct (resolve_signature_type_returns
              (getenv w (lit "CLOB_SIGNATURE_TYPE")) b) as (ls & Hs).
  set (ty := match getenv w (lit "CLOB_SIGNATURE_TYPE") with
             | Some (c :: t) => c :: t
             | _ => if b then POLY_PROXY else EOA
             end) in *.
  set (pw := if b then Some (PROXY_WALLET (ENV w)) else None).
  destruct (acquire_credentials_returns
              (ClobClient_init (CLOB_HTTP_URL (ENV w)) 137 account None ty pw))
    as (creds & l1 & Hcreds).
  exists creds, (lb ++ ls), l1. split; [exact Hcreds|].
  unfold pw in *. clear pw.
  unfold bind at 1. rewrite Hs. unfold bind at 1.
  rewrite Hcreds. unfold bind, ret. simpl.
  rewrite app_nil_r, app_assoc. reflexivity.
Qed.

Lemma acquire_credentials_derived `{CredentialMethods} (c0 : ClobClient)
    (creds derived : dict) (l1 l2 : list entry) :
  create_api_key c0 = (Return creds, l1) ->
  truthy (get creds (lit "key")) = false ->
  derive_api_key c0 = (Return derived, l2) ->
  acquire_credentials c0 = (Return derived, l1 ++ l2).
Proof.
  intros Hc Hk Hd. unfold acquire_credentials, bind.
  rewrite Hc, Hk. simpl negb. cbv iota. rewrite Hd. reflexivity.
Qed.

Lemma acquire_credentials_create_raises `{CredentialMethods} (c0 : ClobClient)
    (e : exn) (l1 : list entry) :
  create_api_key c0 = (Raise e, l1) ->
  acquire_credentials c0 =
  (Return [],
   l1 ++ [(ERROR, lit "Failed to create/derive API key: " ++ str_of_exn e)]).
Proof.
  intros Hc. unfold acquire_credentials, bind. rewrite Hc. reflexivity.
Qed.

Lemma acquire_credentials_derive_raises `{CredentialMethods} (c0 : ClobClient)
    (creds : dict) (e : exn) (l1 l2 : list entry) :
  create_api_key c0 = (Return creds, l1) ->
  truthy (get creds (lit "key")) = false ->
  derive_api_key c0 = (Raise e, l2) ->
  acquire_credentials c0 =
  (Return [],
   (l1 ++ l2)
   ++ [(ERROR, lit "Failed to create/derive API key: " ++ str_of_exn e)]).
Proof.
  intros Hc Hk Hd. unfold acquire_credentials, bind.
  rewrite Hc, Hk. simpl negb. cbv iota. rewrite Hd. reflexivity.
Qed.

(** A key obtained at creation is kept, and derivation is not run. *)
Lemma acquire_credentials_created `{CredentialMethods} (c0 : ClobClient)
    (creds : dict) (l1 : list entry) :
  create_api_key c0 = (Return creds, l1) ->
  truthy (get creds (lit "key")) = true ->
  acquire_credentials c0 = (Return creds, l1).
Proof.
  intros Hc Hk. unfold acquire_credentials, bind.
  rewrite Hc, Hk. simpl. rewrite app_nil_r. reflexivity.
Qed.

(** C8: once the account is built, [create_clob_client] calls creation
    first; when creation yields no key it calls derivation, and the client
    it returns carries the derived credentials (a derived key "abc" is
    the client's key); when creation or derivation raises, the error is
    logged, the credentials are the empty dict, and the client is still
    returned. *)
Theorem C8_credentials_created_else_derived :
  forall (ops : CredentialMethods) (w : World) (account : LocalAccount),
    from_key w (PRIVATE_KEY (ENV w)) = Return account ->
    (forall creds l1 derived l2,
        create_api_key (first_client w account) = (Return creds, l1) ->
        truthy (get creds (lit "key")) = false ->
        derive_api_key (first_client w account) = (Return derived, l2) ->
        exists c l0,
          create_clob_client w = (Return c, l0 ++ l1 ++ l2) /\
          api_creds c = derived /\
          api_key c = get derived (lit "key") /\
          (get derived (lit "key") = PStr (lit "abc") ->
           api_key c = PStr (lit "abc"))) /\
    (forall e l1,
        create_api_key (first_client w account) = (Raise e, l1) ->
        exists c,
          outcome (create_clob_client w) = Return c /\
          api_creds c = [] /\
          In (ERROR, lit "Failed to create/derive API key: " ++ str_of_exn e)
             (logged (create_clob_client w))) /\
    (forall creds l1 e l2,
        create_api_key (first_client w account) = (Return creds, l1) ->
        truthy (get creds (lit "key")) = false ->
        derive_api_key (first_client w account) = (Raise e, l2) ->
        exists c,
          outcome (create_clob_client w) = Return c /\
          api_creds c = [] /\
          In (ERROR, lit "Failed to create/derive API key: " ++ str_of_exn e)
             (logged (create_clob_client w))).
Proof.
  intros ops w account Hkey.
  destruct (create_clob_client_run w Hkey) as (creds' & l0 & l1' & Hacq & Hrun).
  repeat apply conj.
  - intros creds l1 derived l2 Hc Hk Hd.
    rewrite (acquire_credentials_derived _ Hc Hk Hd) in Hacq.
    injection Hacq as <- <-.
    eexists; exists l0. split; [exact Hrun|].
    destruct (ClobClient_init_creds (CLOB_HTTP_URL (ENV w)) 137 account derived
                (signature_type (first_client w account))
                (proxy_wallet (first_client w account))) as (Hcr & Hky).
    repeat split; try assumption. intros Habc. rewrite Hky. exact Habc.
  - intros e l1 Hc.
    rewrite (acquire_credentials_create_raises _ Hc) in Hacq.
    injection Hacq as <- <-.
    rewrite Hrun. eexists. split; [reflexivity|]. split; [reflexivity|].
    simpl logged. apply in_or_app. right. apply in_or_app. right.
    left. reflexivity.
  - intros creds l1 e l2 Hc Hk Hd.
    rewrite (acquire_credentials_derive_raises _ Hc Hk Hd) in Hacq.
    injection Hacq as <- <-.
    rewrite Hrun. eexists. split; [reflexivity|]. split; [reflexivity|].
    simpl logged. apply in_or_app. right. apply in_or_app. right.
    left. reflexivity.
Qed.

Lemma C8_credentials_witness :
  (exists c l0,
      @create_clob_client (fixed_methods (ret []) (ret abc_credentials))
        rpc_down_world = (Return c, l0 ++ [] ++ []) /\
      api_creds c = abc_credentials /\
      api_key c = PStr (lit "abc")) /\
  (exists c,
      outcome (@create_clob_client (fixed_methods (raise api_down) (ret []))
                 rpc_down_world) = Return c /\
      api_creds c = []) /\
  (exists c,
      outcome (@create_clob_client
                 (fixed_methods (ret [(lit "key", PNone)]) (raise api_down))
                 rpc_down_world) = Return c /\
      api_creds c = []).
Proof.
  repeat apply conj.
  - destruct (proj1 (@C8_credentials_created_else_derived
                       (fixed_methods (ret []) (ret abc_credentials))
                       rpc_down_world sample_account eq_refl)
                [] [] abc_credentials [] eq_refl eq_refl eq_refl)
      as (c & l0 & Hrun & Hcreds & Hkey & Habc).
    exists c, l0. split; [exact Hrun|]. split; [exact Hcreds|].
    apply Habc. reflexivity.
  - destruct (proj1 (proj2 (@C8_credentials_created_else_derived
                       (fixed_methods (raise api_down) (ret []))
                       rpc_down_world sample_account eq_refl))
                api_down [] eq_refl)
      as (c & Hrun & Hcreds & _).
    exists c. split; assumption.
  - destruct (proj2 (proj2 (@C8_credentials_created_else_derived
                       (fixed_methods (ret [(lit "key", PNone)]) (raise api_down))
                       rpc_down_world sample_account eq_refl))
                [(lit "key", PNone)] [] api_down [] eq_refl eq_refl eq_refl)
      as (c & Hrun & Hcreds & _).
    exists c. split; assumption.
Defined.

(** C9: whenever [create_clob_client] returns a client, its [chain_id] is
    137 and so is the [chainId] of every payload [post_order] assembles
    with it, whatever the environment and the credential methods; and it
    does return a client whenever the account can be built from the
    private key. *)
Theorem C9_chain_id_is_polygon :
  forall (ops : CredentialMethods) (w : World),
    (forall c,
        outcome (create_clob_client w) = Return c ->
        chain_id c = 137%Z /\
        forall signed_order order_type,
          payload_field w c signed_order order_type "chainId" = PInt 137) /\
    (forall account,
        from_key w (PRIVATE_KEY (ENV w)) = Return account ->
        exists c, outcome (create_clob_client w) = Return c).
Proof.
  intros ops w. split.
  - intros c Hc.
    destruct (from_key w (PRIVATE_KEY (ENV w))) as [account|e] eqn:Hkey.
    + destruct (create_clob_client_run w Hkey) as (creds & l0 & l1 & _ & Hrun).
      rewrite Hrun in Hc. simpl in Hc. injection Hc as <-.
      split; reflexivity.
    + unfold create_clob_client in Hc. rewrite Hkey in Hc. discriminate.
  - intros account Hkey.
    destruct (create_clob_client_run w Hkey) as (creds & l0 & l1 & _ & Hrun).
    rewrite Hrun. eexists. reflexivity.
Qed.

Lemma C9_chain_id_witness :
  exists c,
    outcome (@create_clob_client placeholder_methods override_world) = Return c /\
    chain_id c = 137%Z /\
    payload_field override_world c (Some sample_order) (lit "FOK") "chainId"
    = PInt 137.
Proof.
  destruct (proj2 (@C9_chain_id_is_polygon placeholder_methods override_world)
              sample_account eq_refl) as (c & Hc).
  exists c. split; [exact Hc|].
  destruct (proj1 (@C9_chain_id_is_polygon placeholder_methods override_world)
              c Hc) as (Hid & Hpayload).
  split; [exact Hid|apply Hpayload].
Defined.

(** ** The payload of [post_order] *)

Lemma payload_funder_address (w : World) (self : ClobClient)
    (signed_order : option dict) (order_type : str) :
  payload_field w self signed_order order_type "funderAddress"
  = of_opt_str (proxy_wallet self).
Proof. reflexivity. Qed.

Lemma payload_signature_type (w : World) (self : ClobClient)
    (signed_order : option dict) (order_type : str) :
  payload_field w self signed_order order_type "signatureType"
  = PStr (signature_type self).
Proof. reflexivity. Qed.

(** C3 (as stated, it fails): the override is EOA and the proxy wallet has
    code; the client's signature type is EOA and the payload still carries
    the proxy wallet as its funder address. *)
Lemma C3_override_counterexample :
  exists c,
    outcome (@create_clob_client placeholder_methods override_world) = Return c /\
    payload_field override_world c (Some sample_order) (lit "FOK") "signatureType"
    = PStr EOA /\
    payload_field override_world c (Some sample_order) (lit "FOK") "funderAddress"
    = PStr (PROXY_WALLET sample_env) /\
    PStr (PROXY_WALLET sample_env) <> PNone.
Proof.
  eexists. split; [reflexivity|]. repeat split. discriminate.
Qed.

(** C3 (amended): for the client [create_clob_client] returns and every
    order, the payload's [funderAddress] is non-null, and then the
    configured proxy wallet, if and only if the wallet classifier answered
    true for the proxy wallet; when no override of the signature type is
    in force this is exactly when the signature type is POLY_PROXY, and
    with signature type EOA the [funderAddress] is null. *)
Theorem C3_funder_follows_classification :
  forall (ops : CredentialMethods) (w : World) (account : LocalAccount),
    from_key w (PRIVATE_KEY (ENV w)) = Return account ->
    exists c,
      outcome (create_clob_client w) = Return c /\
      forall (signed_order : option dict) (order_type : str),
        (payload_field w c signed_order order_type "funderAddress" <> PNone
         <-> classified_as_contract w = true) /\
        (classified_as_contract w = true ->
         payload_field w c signed_order order_type "funderAddress"
         = PStr (PROXY_WALLET (ENV w))) /\
        (opt_str_truthy (getenv w (lit "CLOB_SIGNATURE_TYPE")) = false ->
         (payload_field w c signed_order order_type "funderAddress" <> PNone
          <-> payload_field w c signed_order order_type "signatureType"
              = PStr POLY_PROXY) /\
         (payload_field w c signed_order order_type "signatureType" = PStr EOA ->
          payload_field w c signed_order order_type "funderAddress" = PNone)).
Proof.
  intros ops w account Hkey.
  destruct (create_clob_client_run w Hkey) as (creds & l0 & l1 & _ & Hrun).
  rewrite Hrun. eexists. split; [reflexivity|].
  intros signed_order order_type.
  rewrite payload_funder_address, payload_signature_type.
  unfold first_client. simpl proxy_wallet. simpl signature_type.
  destruct (classified_as_contract w); simpl of_opt_str.
  - split; [split; [reflexivity|discriminate]|].
    split; [reflexivity|]. intros Hov.
    destruct (getenv w (lit "CLOB_SIGNATURE_TYPE")) as [[|c o]|];
      try discriminate; (split; [split; [reflexivity|discriminate]|discriminate]).
  - split; [split; [congruence|discriminate]|].
    split; [discriminate|]. intros Hov.
    destruct (getenv w (lit "CLOB_SIGNATURE_TYPE")) as [[|c o]|];
      try discriminate; (split; [split; [congruence|discriminate]|reflexivity]).
Qed.

Lemma C3_funder_witness :
  exists c,
    outcome (@create_clob_client placeholder_methods rpc_down_world) = Return c /\
    payload_field rpc_down_world c (Some sample_order) (lit "FOK") "signatureType"
    = PStr EOA /\
    payload_field rpc_down_world c (Some sample_order) (lit "FOK") "funderAddress"
    = PNone.
Proof.
  destruct (@C3_funder_follows_classification placeholder_methods
              rpc_down_world sample_account eq_refl) as (c & Hc & Hpayload).
  exists c. split; [exact Hc|].
  destruct (Hpayload (Some sample_order) (lit "FOK")) as (_ & _ & Hno).
  destruct (Hno eq_refl) as (_ & Heoa).
  assert (payload_field rpc_down_world c (Some sample_order) (lit "FOK")
            "signatureType" = PStr EOA) as Hty.
  { vm_compute in Hc. injection Hc as <-. reflexivity. }
  split; [exact Hty|exact (Heoa Hty)].
Defined.

(** C5 (as stated, it fails): the override variable is set, to the empty
    string, and the proxy wallet has code; the signature type resolved is
    POLY_PROXY, not the variable's value. *)
Lemma C5_blank_override_counterexample :
  getenv blank_override_world (lit "CLOB_SIGNATURE_TYPE") = Some [] /\
  exists c,
    outcome (@create_clob_client placeholder_methods blank_override_world)
    = Return c /\
    signature_type c = POLY_PROXY /\ POLY_PROXY <> [].
Proof.
  split; [reflexivity|]. eexists. split; [reflexivity|].
  split; [reflexivity|discriminate].
Qed.

(** C5 (amended): whenever the override variable is set to a non-empty
    value and the account can be built, the signature type of the client
    [create_clob_client] returns is exactly that value, whatever the
    wallet classifier answers for the proxy wallet. *)
Theorem C5_override_wins :
  forall (ops : CredentialMethods) (w : World) (account : LocalAccount)
         (override : str),
    from_key w (PRIVATE_KEY (ENV w)) = Return account ->
    getenv w (lit "CLOB_SIGNATURE_TYPE") = Some override ->
    override <> [] ->
    exists c,
      outcome (create_clob_client w) = Return c /\
      signature_type c = override.
Proof.
  intros ops w account override Hkey Henv Hne.
  destruct (create_clob_client_run w Hkey) as (creds & l0 & l1 & _ & Hrun).
  rewrite Hrun. eexists. split; [reflexivity|].
  unfold first_client. simpl signature_type. rewrite Henv.
  destruct override; [contradiction|reflexivity].
Qed.

Lemma C5_override_witness :
  classified_as_contract override_world = true /\
  exists c,
    outcome (@create_clob_client placeholder_methods override_world) = Return c /\
    signature_type c = EOA.
Proof.
  split; [reflexivity|].
  apply (@C5_override_wins placeholder_methods override_world sample_account
           (lit "EOA")).
  - reflexivity.
  - reflexivity.
  - discriminate.
Defined.

(** C10 (as stated, it fails): the order carries "tokenID" with the empty
    string and "tokenId" with "7132"; the token identifier of the payload
    is "7132", though "tokenID" is present. *)
Lemma C10_falsy_token_counterexample :
  has_key two_token_order (lit "tokenID") = true /\
  get two_token_order (lit "tokenID") = PStr [] /\
  order_field (Some two_token_order) "tokenID" = PStr (lit "7132") /\
  PStr (lit "7132") <> PStr [].
Proof. repeat split. discriminate. Qed.

(** C10 (amended): for a null [signed_order], [post_order] does not raise
    on the order: it behaves as for the empty order, and the order fields
    side, tokenID, amount and price of its payload are all null; the token
    identifier is the value of "tokenID" when that value is truthy, else
    the value of "tokenId" (null when the order has none). *)
Theorem C10_order_normalisation :
  forall (w : World) (self : ClobClient) (order_type : str),
    post_order w self None order_type = post_order w self (Some []) order_type /\
    payload_field w self None order_type "order"
    = PDict [(lit "side", PNone); (lit "tokenID", PNone);
             (lit "amount", PNone); (lit "price", PNone)] /\
    forall order : dict,
      order_field (Some order) "tokenID"
      = (if truthy (get order (lit "tokenID"))
         then get order (lit "tokenID")
         else get order (lit "tokenId")) /\
      order_field (Some order) "side" = get order (lit "side") /\
      order_field (Some order) "amount" = get order (lit "amount") /\
      order_field (Some order) "price" = get order (lit "price").
Proof.
  intros w self order_type. split; [reflexivity|]. split; [reflexivity|].
  intros order. destruct order as [|kv order]; repeat split.
Qed.

(** * Further properties *)

Unset Implicit Arguments.

(** ** [str.strip] and [str.rstrip] *)

Module TextFacts.

Import Py.

Lemma lstrip_by_split (p : N -> bool) (s : str) :
  exists pre, s = pre ++ lstrip_by p s /\ forallb p pre = true.
Proof.
  induction s as [|c s (pre & Hs & Hpre)].
  - exists []. split; reflexivity.
  - cbn [lstrip_by]. destruct (p c) eqn:Hc.
    + exists (c :: pre). split; [cbn [app]; congruence|].
      cbn [forallb]. rewrite Hc, Hpre. reflexivity.
    + exists []. split; reflexivity.
Qed.

Lemma lstrip_by_head (p : N -> bool) (c : N) (s : str) :
  p c = false -> lstrip_by p (c :: s) = c :: s.
Proof. intros Hc. cbn [lstrip_by]. rewrite Hc. reflexivity. Qed.

Lemma lstrip_by_stops (p : N -> bool) (s : str) :
  lstrip_by p s = [] \/ exists c t, lstrip_by p s = c :: t /\ p c = false.
Proof.
  induction s as [|c s IH]; [left; reflexivity|].
  cbn [lstrip_by]. destruct (p c) eqn:Hc; [exact IH|].
  right. exists c, s. split; [reflexivity|exact Hc].
Qed.

Lemma lstrip_by_all (p : N -> bool) (s : str) :
  lstrip_by p s = [] <-> forallb p s = true.
Proof.
  induction s as [|c s IH]; [split; reflexivity|].
  cbn [lstrip_by forallb]. destruct (p c); [exact IH|].
  split; discriminate.
Qed.

Lemma lstrip_by_snoc (p : N -> bool) (s : str) (c : N) :
  p c = false -> lstrip_by p (s ++ [c]) = lstrip_by p s ++ [c].
Proof.
  intros Hc. induction s as [|d s IH].
  - cbn [app lstrip_by]. rewrite Hc. reflexivity.
  - cbn [app lstrip_by]. destruct (p d); [exact IH|reflexivity].
Qed.

Lemma lstrip_by_blank_prefix (p : N -> bool) (pre s : str) :
  forallb p pre = true -> lstrip_by p (pre ++ s) = lstrip_by p s.
Proof.
  induction pre as [|c pre IH]; intros H; [reflexivity|].
  cbn [forallb] in H. apply andb_prop in H. destruct H as (Hc & H).
  cbn [app lstrip_by]. rewrite Hc. exact (IH H).
Qed.

Lemma forallb_rev {A} (p : A -> bool) (l : list A) :
  forallb p (rev l) = forallb p l.
Proof.
  induction l as [|a l IH]; [reflexivity|].
  cbn [rev forallb]. rewrite forallb_app, IH. cbn [forallb].
  rewrite andb_true_r. apply andb_comm.
Qed.

Lemma rstrip_by_split (p : N -> bool) (s : str) :
  exists suf, s = rstrip_by p s ++ suf /\ forallb p suf = true.
Proof.
  unfold rstrip_by. destruct (lstrip_by_split p (rev s)) as (pre & Hs & Hpre).
  exists (rev pre). split.
  - rewrite <- rev_app_distr, <- Hs, rev_involutive. reflexivity.
  - rewrite forallb_rev. exact Hpre.
Qed.

Lemma rstrip_by_cons (p : N -> bool) (c : N) (s : str) :
  p c = false -> rstrip_by p (c :: s) = c :: rstrip_by p s.
Proof.
  intros Hc. unfold rstrip_by. cbn [rev].
  rewrite (lstrip_by_snoc p (rev s) c Hc), rev_app_distr. reflexivity.
Qed.

Lemma rstrip_by_all (p : N -> bool) (s : str) :
  rstrip_by p s = [] <-> forallb p s = true.
Proof.
  unfold rstrip_by. rewrite <- (forallb_rev p s), <- lstrip_by_all.
  split; intros H.
  - apply (f_equal (@rev N)) in H. rewrite rev_involutive in H. exact H.
  - rewrite H. reflexivity.
Qed.

Lemma rstrip_by_idem (p : N -> bool) (s : str) :
  rstrip_by p (rstrip_by p s) = rstrip_by p s.
Proof.
  unfold rstrip_by. rewrite rev_involutive.
  destruct (lstrip_by_stops p (rev s)) as [H|(c & t & H & Hc)]; rewrite H.
  - reflexivity.
  - rewrite (lstrip_by_head p c t Hc). reflexivity.
Qed.

Lemma rstrip_by_blank_suffix (p : N -> bool) (s suf : str) :
  forallb p suf = true -> rstrip_by p (s ++ suf) = rstrip_by p s.
Proof.
  intros H. unfold rstrip_by. rewrite rev_app_distr.
  rewrite lstrip_by_blank_prefix; [reflexivity|].
  rewrite forallb_rev. exact H.
Qed.

(** What is left after [rstrip] does not end with a stripped character. *)
Lemma rstrip_by_last (p : N -> bool) (s t : str) (c : N) :
  rstrip_by p s = t ++ [c] -> p c = false.
Proof.
  unfold rstrip_by. intros H.
  apply (f_equal (@rev N)) in H. rewrite rev_involutive, rev_app_distr in H.
  cbn [rev app] in H.
  destruct (lstrip_by_stops p (rev s)) as [E|(d & u & E & Hd)];
    rewrite E in H; [discriminate|].
  injection H as -> _. exact Hd.
Qed.

Lemma strip_unfold (s : str) : strip s = rstrip_by isspace (lstrip_by isspace s).
Proof. reflexivity. Qed.

Lemma strip_idem (s : str) : strip (strip s) = strip s.
Proof.
  rewrite !strip_unfold.
  destruct (lstrip_by_stops isspace s) as [H|(c & t & H & Hc)]; rewrite H.
  - reflexivity.
  - rewrite (rstrip_by_cons isspace c t Hc).
    rewrite (lstrip_by_head isspace c (rstrip_by isspace t) Hc).
    rewrite <- (rstrip_by_cons isspace c t Hc). apply rstrip_by_idem.
Qed.

Lemma strip_empty_iff (s : str) : strip s = [] <-> forallb isspace s = true.
Proof.
  rewrite strip_unfold, rstrip_by_all.
  destruct (lstrip_by_split isspace s) as (pre & Hs & Hpre).
  split; intros H.
  - rewrite Hs, forallb_app, Hpre, H. reflexivity.
  - rewrite Hs in H at 1. rewrite forallb_app in H.
    apply andb_prop in H. apply H.
Qed.

Lemma strip_split (s : str) :
  exists pre suf,
    s = pre ++ strip s ++ suf /\
    forallb isspace pre = true /\ forallb isspace suf = true.
Proof.
  destruct (lstrip_by_split isspace s) as (pre & Hs & Hpre).
  destruct (rstrip_by_split isspace (lstrip_by isspace s)) as (suf & Ht & Hsuf).
  exists pre, suf. rewrite strip_unfold. split; [|split; assumption].
  rewrite <- Ht. exact Hs.
Qed.

End TextFacts.

(** ** The wallet classifier, in full *)

Lemma bytes_eqb_eq (a b : bytes) : bytes_eqb a b = true <-> a = b.
Proof.
  revert b. induction a as [|x a IH]; intros [|y b]; cbn [bytes_eqb];
    try (split; intros; congruence).
  rewrite andb_true_iff, IH. split.
  - intros (Hxy & ->). apply Byte.byte_dec_bl in Hxy. congruence.
  - intros H. injection H as -> ->. split; [apply Byte.byte_dec_lb|]; reflexivity.
Qed.

(** X1: [is_contract_wallet] never raises.  It answers [True] exactly
    when the address can be put in checksum form, the code query answers,
    and the bytes it answers differ from the two octets [b'0x']; it logs
    nothing when both calls answer, and one ERROR entry otherwise. *)
Theorem classifier_answer_and_log :
  forall (w : World) (address : str),
    exists (b : bool) (l : list entry),
      is_contract_wallet w address = (Return b, l) /\
      (b = true <->
       exists ca code,
         to_checksum_address w address = Return ca /\
         get_code w (RPC_URL (ENV w)) ca = Return code /\
         code <> blit "0x") /\
      (l = [] <->
       exists ca code,
         to_checksum_address w address = Return ca /\
         get_code w (RPC_URL (ENV w)) ca = Return code) /\
      (l = [] \/
       exists e, l = [(ERROR, lit "Error checking wallet type: " ++ str_of_exn e)]).
Proof.
  intros w address. rewrite is_contract_wallet_cases.
  destruct (to_checksum_address w address) as [ca|e] eqn:Hsum.
  - destruct (get_code w (RPC_URL (ENV w)) ca) as [code|e] eqn:Hcode.
    + eexists _, _. split; [reflexivity|]. split; [split|split; [split|]].
      * intros Hb. exists ca, code. split; [reflexivity|]. split; [exact Hcode|].
        intros ->. discriminate.
      * intros (ca' & code' & Hca & Hcode' & Hne).
        injection Hca as <-. rewrite Hcode in Hcode'. injection Hcode' as <-.
        destruct (bytes_eqb code (blit "0x")) eqn:E; [|reflexivity].
        apply bytes_eqb_eq in E. contradiction.
      * intros _. exists ca, code. split; [reflexivity|exact Hcode].
      * reflexivity.
      * left. reflexivity.
    + eexists _, _. split; [reflexivity|]. split; [split|split; [split|]].
      * discriminate.
      * intros (ca' & code' & Hca & Hcode' & _).
        injection Hca as <-. congruence.
      * discriminate.
      * intros (ca' & code' & Hca & Hcode').
        injection Hca as <-. congruence.
      * right. exists e. reflexivity.
  - eexists _, _. split; [reflexivity|]. split; [split|split; [split|]].
    + discriminate.
    + intros (ca' & code' & Hca & _). discriminate.
    + discriminate.
    + intros (ca' & code' & Hca & _). discriminate.
    + right. exists e. reflexivity.
Qed.

(** ** When the bridge raises, and what it reports *)

Lemma bridge_response_silent (lim : Json.Limits) (p : Completed) :
  logged (bridge_response lim p) = [].
Proof.
  destruct (unreadable_stream p) as [b|] eqn:Hun.
  - rewrite (bridge_response_unreadable lim p Hun). reflexivity.
  - revert Hun. unfold unreadable_stream, bridge_response, decode.
    destruct (returncode p =? 0)%Z; cbn [negb].
    + destruct (utf8_decode (stdout p)) as [out|]; [|discriminate].
      intros _. rewrite bind_ret_l.
      destruct (Json.json_loads lim _); reflexivity.
    + destruct (utf8_decode (stderr p)) as [[|c err]|]; [| |discriminate].
      * destruct (utf8_decode (stdout p)) as [out|]; [|discriminate].
        intros _. rewrite !bind_ret_l. reflexivity.
      * intros _. rewrite !bind_ret_l. reflexivity.
Qed.

(** X2: [run_clob_bridge] writes nothing to the log, and it raises in
    four cases only.  The runtime is found and the look for the script
    raises: the error is that one.  The runtime and the script are there
    and starting or talking to the child raises: the error is that one.
    The child ran and a stream the function has to read (standard output
    after exit status 0; after another status standard error, or
    standard output when standard error is empty) is not UTF-8 text: the
    error is the decoding error of that stream, which names the octet,
    its position and the reason.  The child exited with status 0 and
    [json.loads] raises, on the output or on the [{}] that stands in for
    empty output, an error that is no [JSONDecodeError]: the error is
    that one. *)
Theorem bridge_raises_exactly :
  forall (w : World) (action : str) (payload : pyval),
    logged (run_clob_bridge w action payload) = [] /\
    (forall e : exn,
        outcome (run_clob_bridge w action payload) = Raise e <->
        (opt_str_truthy (which w (lit "node")) = true /\
         path_exists w (script_path w) = Raise e) \/
        (exists node_path,
            which w (lit "node") = Some node_path /\ node_path <> [] /\
            path_exists w (script_path w) = Return true /\
            spawn w node_path (script_path w) (bridge_request action payload)
            = Raise e) \/
        (exists p b,
            bridge_exits w action payload p /\
            unreadable_stream p = Some b /\ e = decode_error b) \/
        (exists p out,
            bridge_exits w action payload p /\ returncode p = 0%Z /\
            utf8_decode (stdout p) = Some out /\
            Json.json_loads (limits w) (parsed_text out) = Json.Raised e)).
Proof.
  intros w action payload. split.
  - unfold run_clob_bridge.
    destruct (which w (lit "node")) as [[|c node]|]; try reflexivity.
    destruct (path_exists w (script_path w)) as [[|]|e']; try reflexivity.
    rewrite bind_lift_return. cbn [negb].
    destruct (spawn w (c :: node) (script_path w) (bridge_request action payload))
      as [p|e']; [|reflexivity].
    rewrite bind_lift_return. apply bridge_response_silent.
  - intros e. split; [apply run_clob_bridge_raises|].
    intros [(Hnode & Hpath)|[(node & Hwhich & Hnode & Hpath & Hspawn)|
                            [(p & b & Hexit & Hun & ->)|
                             (p & out & Hexit & Hrc & Hout & Hj)]]].
    + unfold run_clob_bridge.
      destruct (which w (lit "node")) as [[|c node]|]; try discriminate.
      rewrite Hpath. reflexivity.
    + unfold run_clob_bridge. rewrite Hwhich.
      destruct node as [|c node]; [contradiction|].
      rewrite Hpath, bind_lift_return. cbn [negb]. rewrite Hspawn.
      reflexivity.
    + rewrite (run_clob_bridge_exits Hexit),
        (bridge_response_unreadable (limits w) p Hun). reflexivity.
    + rewrite (run_clob_bridge_exits Hexit),
        (@bridge_response_zero (limits w) p out Hrc Hout), Hj. reflexivity.
Qed.



(** ** Exit status 0: what the output is taken for *)

Lemma json_loads_blank (lim : Json.Limits) (out : str) :
  Json.skip_ws out = [] -> Json.json_loads lim out = Json.JSONDecodeError.
Proof.
  intros Hws. unfold Json.json_loads. destruct out as [|c t]; [reflexivity|].
  rewrite Hws. destruct (c =? Json.BOM)%N; reflexivity.
Qed.

Lemma utf8_decode_marked (rest : bytes) :
  utf8_decode (UTF8_BOM ++ rest) = option_map (cons Json.BOM) (utf8_decode rest).
Proof. exact (Utf8Facts.utf8_decode_encoded Json.BOM rest). Qed.

(** X4: after exit status 0, output that is white space only (a lone line
    feed, say) is reported as an invalid response, and so is any output
    that opens with the UTF-8 byte-order mark, whatever follows the mark:
    a valid document after it is not read. *)
Theorem blank_or_marked_output_is_invalid :
  forall (w : World) (action : str) (payload : pyval) (p : Completed),
    bridge_exits w action payload p ->
    returncode p = 0%Z ->
    (forall out,
        utf8_decode (stdout p) = Some out -> out <> [] ->
        Json.skip_ws out = [] ->
        run_clob_bridge w action payload = ret (failure INVALID_RESPONSE)) /\
    (forall rest text,
        stdout p = UTF8_BOM ++ rest -> utf8_decode rest = Some text ->
        run_clob_bridge w action payload = ret (failure INVALID_RESPONSE)).
Proof.
  intros w action payload p Hexit Hrc.
  rewrite (run_clob_bridge_exits Hexit). split.
  - intros out Hout Hne Hws.
    rewrite (@bridge_response_zero (limits w) p out Hrc Hout).
    rewrite (parsed_text_nonempty Hne).
    rewrite (json_loads_blank (limits w) out Hws). reflexivity.
  - intros rest text Hmark Htext.
    assert (utf8_decode (stdout p) = Some (Json.BOM :: text)) as Hout.
    { rewrite Hmark, utf8_decode_marked, Htext. reflexivity. }
    rewrite (@bridge_response_zero (limits w) p _ Hrc Hout). reflexivity.
Qed.

Lemma blank_or_marked_output_witness :
  run_clob_bridge (bridge_world 0 "
" "") (lit "post_order") PNone
  = ret (failure INVALID_RESPONSE) /\
  run_clob_bridge
    (sample_world None (Return []) (Some (lit "/usr/bin/node")) true
       (Return {| returncode := 0;
                  stdout := UTF8_BOM ++ qblit "{'success': true}";
                  stderr := [] |}))
    (lit "post_order") PNone
  = ret (failure INVALID_RESPONSE).
Proof.
  split.
  - apply (proj1 (blank_or_marked_output_is_invalid
                    (bridge_world 0 "
" "") (lit "post_order") PNone (completed 0 "
" "") (bridge_world_exits _ _ _ _ _) eq_refl) (lit "
")); [reflexivity|discriminate|reflexivity].
  - refine (proj2 (blank_or_marked_output_is_invalid
                     _ (lit "post_order") PNone
                     {| returncode := 0;
                        stdout := UTF8_BOM ++ qblit "{'success': true}";
                        stderr := [] |} _ eq_refl)
              (qblit "{'success': true}") (qlit "{'success': true}") eq_refl
              eq_refl).
    exists (lit "/usr/bin/node"). repeat split. discriminate.
Defined.

(** X5: every value [run_clob_bridge] makes up itself is a well-formed
    response.  A returned value that is not one was written by the child:
    the child exited with status 0, and either it wrote nothing and the
    value is the empty object, or the value is what its output denotes. *)
Theorem ill_formed_values_come_from_the_child :
  forall (w : World) (action : str) (payload : pyval) (v : pyval),
    outcome (run_clob_bridge w action payload) = Return v ->
    well_formed_response v = false ->
    exists p out,
      bridge_exits w action payload p /\ returncode p = 0%Z /\
      utf8_decode (stdout p) = Some out /\
      ((out = [] /\ v = PDict []) \/
       (out <> [] /\ Json.json_loads (limits w) out = Json.Loaded v)).
Proof.
  intros w action payload v Hret Hill. unfold run_clob_bridge in Hret.
  destruct (which w (lit "node")) as [[|c node]|] eqn:Hwhich;
    try (injection Hret as <-; discriminate).
  destruct (path_exists w (script_path w)) as [[|]|e'] eqn:Hpath;
    [|injection Hret as <-; discriminate|discriminate].
  rewrite bind_lift_return in Hret. cbn [negb] in Hret.
  destruct (spawn w (c :: node) (script_path w) (bridge_request action payload))
    as [p|e'] eqn:Hspawn; [|discriminate].
  rewrite bind_lift_return in Hret.
  assert (bridge_exits w action payload p) as Hexit.
  { exists (c :: node). repeat split; try assumption. discriminate. }
  exists p. unfold bridge_response, decode in Hret.
  destruct (returncode p =? 0)%Z eqn:Hrc; cbn [negb] in Hret.
  - apply Z.eqb_eq in Hrc.
    destruct (utf8_decode (stdout p)) as [out|]; [|discriminate].
    exists out. split; [exact Hexit|]. split; [exact Hrc|].
    split; [reflexivity|]. rewrite bind_ret_l in Hret.
    destruct out as [|c0 out]; cbn [str_truthy] in Hret.
    + left. split; [reflexivity|].
      rewrite json_loads_empty_object_cases in Hret.
      destruct (Json.may_enter (limits w) 0); [|discriminate].
      injection Hret as <-. reflexivity.
    + right. split; [discriminate|].
      destruct (Json.json_loads (limits w) (c0 :: out)) as [v'| |e'].
      * injection Hret as <-. reflexivity.
      * injection Hret as <-. discriminate.
      * discriminate.
  - exfalso.
    destruct (utf8_decode (stderr p)) as [err|]; [|discriminate].
    rewrite bind_ret_l in Hret.
    destruct (str_truthy err).
    + rewrite bind_ret_l in Hret. injection Hret as <-. discriminate.
    + destruct (utf8_decode (stdout p)) as [out|]; [|discriminate].
      rewrite bind_ret_l in Hret. injection Hret as <-. discriminate.
Qed.

Lemma ill_formed_values_witness :
  exists p out,
    bridge_exits (bridge_world 0 "[1]" "") (lit "post_order") PNone p /\
    returncode p = 0%Z /\
    utf8_decode (stdout p) = Some out /\
    ((out = [] /\ PList [PInt 1] = PDict []) \/
     (out <> [] /\
      Json.json_loads (limits (bridge_world 0 "[1]" "")) out
      = Json.Loaded (PList [PInt 1]))).
Proof.
  apply (ill_formed_values_come_from_the_child
           (bridge_world 0 "[1]" "") (lit "post_order") PNone (PList [PInt 1]));
    reflexivity.
Defined.

(** X6: white space around what the child prints (the line feed a print
    call ends with, say) changes nothing of what the bridge does: after
    exit status 0, when the output is a non-empty text between two runs
    of JSON white space, the bridge does as it does for that text alone:
    it returns the value [json.loads] gives for the text, or the
    invalid-response error when [json.loads] refuses the text, or it
    raises what [json.loads] raises on it. *)
Theorem white_space_around_the_output :
  forall (w : World) (action : str) (payload : pyval) (p : Completed)
         (pre body suf : str),
    bridge_exits w action payload p ->
    returncode p = 0%Z ->
    utf8_decode (stdout p) = Some (pre ++ body ++ suf) ->
    Json.padding pre = true -> Json.padding suf = true ->
    body <> [] ->
    run_clob_bridge w action payload
    = match Json.json_loads (limits w) body with
      | Json.Loaded v => ret v
      | Json.JSONDecodeError => ret (failure INVALID_RESPONSE)
      | Json.Raised e => raise e
      end.
Proof.
  intros w action payload p pre body suf Hexit Hrc Hout Hpre Hsuf Hbody.
  rewrite (run_clob_bridge_exits Hexit),
    (@bridge_response_zero (limits w) p _ Hrc Hout).
  rewrite parsed_text_nonempty.
  - rewrite (JsonPadding.json_loads_padded (limits w) pre body suf Hpre Hsuf).
    reflexivity.
  - intros Hnil.
    apply app_eq_nil in Hnil. destruct Hnil as (_ & Hnil).
    apply app_eq_nil in Hnil. destruct Hnil as (Hnil & _). contradiction.
Qed.

Lemma white_space_around_the_output_witness :
  run_clob_bridge (bridge_world 0 "
  {'success': true, 'orderID': '0x1f'}
" "") (lit "post_order") PNone
  = match Json.json_loads sample_limits
            (qlit "{'success': true, 'orderID': '0x1f'}") with
    | Json.Loaded v => ret v
    | Json.JSONDecodeError => ret (failure INVALID_RESPONSE)
    | Json.Raised e => raise e
    end.
Proof.
  apply (white_space_around_the_output
           (bridge_world 0 "
  {'success': true, 'orderID': '0x1f'}
" "") (lit "post_order") PNone (completed 0 "
  {'success': true, 'orderID': '0x1f'}
" "") (lit "
  ") (qlit "{'success': true, 'orderID': '0x1f'}") (lit "
")).
  - apply bridge_world_exits.
  - reflexivity.
  - reflexivity.
  - reflexivity.
  - reflexivity.
  - discriminate.
Defined.

(** ** The client: its host, and reading the order book *)

Lemma slash_class (c : N) :
  existsb (N.eqb c) (lit "/") = true <-> c = ch "/".
Proof.
  change (existsb (N.eqb c) (lit "/")) with ((c =? ch "/")%N || false).
  rewrite orb_false_r. apply N.eqb_eq.
Qed.

Lemma slashes_class (k : nat) :
  forallb (fun c => existsb (N.eqb c) (lit "/")) (slashes k) = true.
Proof. induction k as [|k IH]; [reflexivity|exact IH]. Qed.

Lemma class_slashes (s : str) :
  forallb (fun c => existsb (N.eqb c) (lit "/")) s = true ->
  s = slashes (length s).
Proof.
  induction s as [|c s IH]; [reflexivity|].
  cbn [forallb]. intros H. apply andb_prop in H. destruct H as (Hc & Hs).
  apply slash_class in Hc. subst c.
  change (slashes (length (ch "/" :: s))) with (ch "/" :: slashes (length s)).
  f_equal. exact (IH Hs).
Qed.

Lemma ClobClient_init_slashes (h : str) (n : Z) (a : LocalAccount)
    (creds : option dict) (t : str) (pw : option str) (k : nat) :
  ClobClient_init (h ++ slashes k) n a creds t pw
  = ClobClient_init h n a creds t pw.
Proof.
  unfold ClobClient_init, rstrip.
  rewrite (TextFacts.rstrip_by_blank_suffix _ h (slashes k) (slashes_class k)).
  reflexivity.
Qed.

(** X7: the host a client keeps is the host it was given without its
    trailing slashes: what was cut is slashes only, what is kept does not
    end with a slash, and two hosts that differ in trailing slashes only
    give the same client. *)
Theorem host_drops_trailing_slashes :
  forall (h : str) (n : Z) (a : LocalAccount) (creds : option dict)
         (t : str) (pw : option str),
    (exists k, h = host (ClobClient_init h n a creds t pw) ++ slashes k) /\
    (forall s, host (ClobClient_init h n a creds t pw) <> s ++ lit "/") /\
    (forall k,
        ClobClient_init (h ++ slashes k) n a creds t pw
        = ClobClient_init h n a creds t pw).
Proof.
  intros h n a creds t pw. cbn [host ClobClient_init]. unfold rstrip.
  split; [|split].
  - destruct (TextFacts.rstrip_by_split
                (fun c => existsb (N.eqb c) (lit "/")) h) as (suf & Hh & Hsuf).
    exists (length suf). rewrite <- (class_slashes suf Hsuf). exact Hh.
  - intros s Hs.
    pose proof (TextFacts.rstrip_by_last _ h s (ch "/") Hs) as Hlast.
    discriminate.
  - intros k. apply ClobClient_init_slashes.
Qed.

(** X8: [get_order_book] logs nothing and makes up no value: it returns
    exactly the body of a response whose status check passed, and raises
    whatever the request, the status check or the reading of the body
    raises, the body being left unread when the status check fails.  For
    a client built by [__init__] the URL asked for is the same however
    many slashes end the configured host. *)
Theorem order_book_is_the_checked_body :
  forall (net : Http) (self : ClobClient) (token_id : str),
    logged (get_order_book net self token_id) = [] /\
    (forall v,
        outcome (get_order_book net self token_id) = Return v <->
        (exists r,
            http_get net (order_book_url self token_id) = Return r /\
            raise_for_status r = Return tt /\ json r = Return v)) /\
    (forall e,
        outcome (get_order_book net self token_id) = Raise e <->
        (http_get net (order_book_url self token_id) = Raise e \/
         exists r,
           http_get net (order_book_url self token_id) = Return r /\
           (raise_for_status r = Raise e \/
            (raise_for_status r = Return tt /\ json r = Raise e)))) /\
    (forall h n a creds t pw k,
        get_order_book net (ClobClient_init (h ++ slashes k) n a creds t pw)
          token_id
        = get_order_book net (ClobClient_init h n a creds t pw) token_id).
Proof.
  intros net self token_id. unfold get_order_book.
  split; [|split; [|split]].
  - destruct (http_get net (order_book_url self token_id)) as [r|e];
      [|reflexivity].
    rewrite bind_lift_return.
    destruct (raise_for_status r) as [[]|e]; [|reflexivity].
    rewrite bind_lift_return. destruct (json r); reflexivity.
  - intros v. split.
    + destruct (http_get net (order_book_url self token_id)) as [r|e];
        [|discriminate].
      rewrite bind_lift_return.
      destruct (raise_for_status r) as [[]|e] eqn:Hst; [|discriminate].
      rewrite bind_lift_return.
      destruct (json r) as [v'|e] eqn:Hbody; [|discriminate].
      intros Hv. injection Hv as <-. exists r. repeat split; assumption.
    + intros (r & -> & Hst & Hbody).
      rewrite bind_lift_return, Hst, bind_lift_return, Hbody. reflexivity.
  - intros e. split.
    + destruct (http_get net (order_book_url self token_id)) as [r|e'].
      * rewrite bind_lift_return. intros He. right. exists r.
        split; [reflexivity|].
        destruct (raise_for_status r) as [[]|e'] eqn:Hst.
        -- rewrite bind_lift_return in He.
           destruct (json r) as [v|e'] eqn:Hbody; [discriminate|].
           right. split; [reflexivity|]. cbn in He. congruence.
        -- left. cbn in He. congruence.
      * intros He. left. cbn in He. congruence.
    + intros [->|(r & -> & [Hst|(Hst & Hbody)])].
      * reflexivity.
      * rewrite bind_lift_return, Hst. reflexivity.
      * rewrite bind_lift_return, Hst, bind_lift_return, Hbody. reflexivity.
  - intros h n a creds t pw k.
    rewrite ClobClient_init_slashes. reflexivity.
Qed.

(** ** Start-up: failure, credentials, and what the client is *)

Lemma create_clob_client_no_account `{CredentialMethods} (w : World) (e : exn) :
  from_key w (PRIVATE_KEY (ENV w)) = Raise e ->
  create_clob_client w = (Raise e, []).
Proof. intros Hkey. unfold create_clob_client. rewrite Hkey. reflexivity. Qed.

(** X9: start-up fails in one case only: the account library refuses the
    private key.  The error raised is that library's, and nothing has
    been logged by then; a failing RPC node or credential call never
    stops it. *)
Theorem start_up_fails_only_on_the_key :
  forall (ops : CredentialMethods) (w : World),
    (forall e,
        outcome (create_clob_client w) = Raise e <->
        from_key w (PRIVATE_KEY (ENV w)) = Raise e) /\
    (forall e,
        from_key w (PRIVATE_KEY (ENV w)) = Raise e ->
        logged (create_clob_client w) = []).
Proof.
  intros ops w. split.
  - intros e. destruct (from_key w (PRIVATE_KEY (ENV w))) as [account|e'] eqn:Hkey.
    + destruct (create_clob_client_run w Hkey) as (creds & l0 & l1 & _ & Hrun).
      rewrite Hrun. split; discriminate.
    + rewrite (create_clob_client_no_account w e' Hkey). cbn [outcome fst].
      split; intros He; injection He as <-; reflexivity.
  - intros e Hkey. rewrite (create_clob_client_no_account w e Hkey). reflexivity.
Qed.

Lemma ClobClient_init_no_creds (h : str) (n : Z) (a : LocalAccount) (t : str)
    (pw : option str) :
  ClobClient_init h n a (Some []) t pw = ClobClient_init h n a None t pw.
Proof. reflexivity. Qed.

Lemma acquire_credentials_placeholder (c0 : ClobClient) :
  @acquire_credentials placeholder_methods c0 = (Return [], []).
Proof. reflexivity. Qed.

(** X10: with the two credential methods as the file has them, the client
    [create_clob_client] returns never has credentials: its [api_creds]
    is empty and its key, secret and passphrase are [None]; it is the
    client built first, and no credential error is logged: the log is the
    classifier's, then the one INFO line on the signature type. *)
Theorem shipped_client_has_no_credentials :
  forall (w : World) (account : LocalAccount),
    from_key w (PRIVATE_KEY (ENV w)) = Return account ->
    exists c line,
      @create_clob_client placeholder_methods w
      = (Return c,
         logged (is_contract_wallet w (PROXY_WALLET (ENV w)))
         ++ [(INFO, line)]) /\
      c = first_client w account /\
      api_creds c = [] /\ api_key c = PNone /\ api_secret c = PNone /\
      api_passphrase c = PNone.
Proof.
  intros w account Hkey.
  unfold create_clob_client. rewrite Hkey, bind_lift_return.
  unfold first_client, classified_as_contract.
  destruct (is_contract_wallet_returns w (PROXY_WALLET (ENV w))) as (b & lb & Hb).
  rewrite Hb. cbn [outcome logged fst snd].
  unfold bind at 1.
  assert (exists line,
             resolve_signature_type (getenv w (lit "CLOB_SIGNATURE_TYPE")) b
             = (Return (match getenv w (lit "CLOB_SIGNATURE_TYPE") with
                        | Some (c :: o) => c :: o
                        | _ => if b then POLY_PROXY else EOA
                        end), [(INFO, line)])) as (line & Hty).
  { destruct (getenv w (lit "CLOB_SIGNATURE_TYPE")) as [[|c o]|];
      eexists; reflexivity. }
  unfold bind at 1. rewrite Hty.
  unfold bind at 1. rewrite acquire_credentials_placeholder.
  rewrite ClobClient_init_no_creds.
  eexists _, line. split.
  - unfold ret. cbn [fst snd]. rewrite !app_nil_r. reflexivity.
  - repeat split.
Qed.

Lemma shipped_client_witness :
  exists c line,
    @create_clob_client placeholder_methods (code_world [x60; x80])
    = (Return c,
       logged (is_contract_wallet (code_world [x60; x80])
                 (PROXY_WALLET (ENV (code_world [x60; x80]))))
       ++ [(INFO, line)]) /\
    c = first_client (code_world [x60; x80]) sample_account /\
    api_creds c = [] /\ api_key c = PNone /\ api_secret c = PNone /\
    api_passphrase c = PNone.
Proof.
  apply (shipped_client_has_no_credentials (code_world [x60; x80])
           sample_account).
  reflexivity.
Defined.

Lemma create_clob_client_returned `{CredentialMethods} (w : World)
    (c : ClobClient) :
  outcome (create_clob_client w) = Return c ->
  exists account creds,
    from_key w (PRIVATE_KEY (ENV w)) = Return account /\
    c = ClobClient_init (CLOB_HTTP_URL (ENV w)) 137 account (Some creds)
          (signature_type (first_client w account))
          (proxy_wallet (first_client w account)).
Proof.
  intros Hc.
  destruct (from_key w (PRIVATE_KEY (ENV w))) as [account|e] eqn:Hkey.
  - destruct (create_clob_client_run w Hkey) as (creds & l0 & l1 & _ & Hrun).
    rewrite Hrun in Hc. cbn [outcome fst] in Hc. injection Hc as <-.
    exists account, creds. split; reflexivity.
  - rewrite (create_clob_client_no_account w e Hkey) in Hc. discriminate.
Qed.

(** X11: the credentials never reach an operation of the client.  Two
    clients that [create_clob_client] returns in the same world under any
    two pairs of credential methods post every order with the same
    result, ask for every order book with the same result, and build the
    same market orders. *)
Theorem operations_ignore_the_credentials :
  forall (ops1 ops2 : CredentialMethods) (w : World) (c1 c2 : ClobClient),
    outcome (@create_clob_client ops1 w) = Return c1 ->
    outcome (@create_clob_client ops2 w) = Return c2 ->
    (forall w' signed_order order_type,
        post_order w' c1 signed_order order_type
        = post_order w' c2 signed_order order_type) /\
    (forall net token_id,
        get_order_book net c1 token_id = get_order_book net c2 token_id) /\
    (forall order_args,
        create_market_order c1 order_args = create_market_order c2 order_args).
Proof.
  intros ops1 ops2 w c1 c2 H1 H2.
  destruct (@create_clob_client_returned ops1 w c1 H1) as (a1 & d1 & Hk1 & ->).
  destruct (@create_clob_client_returned ops2 w c2 H2) as (a2 & d2 & Hk2 & ->).
  rewrite Hk1 in Hk2. injection Hk2 as <-.
  repeat split.
Qed.

Lemma operations_ignore_the_credentials_witness :
  (forall w' signed_order order_type,
      post_order w'
        (ClobClient_init (CLOB_HTTP_URL sample_env) 137 sample_account
           (Some []) POLY_PROXY (Some (PROXY_WALLET sample_env)))
        signed_order order_type
      = post_order w'
          (ClobClient_init (CLOB_HTTP_URL sample_env) 137 sample_account
             (Some abc_credentials) POLY_PROXY (Some (PROXY_WALLET sample_env)))
          signed_order order_type) /\
  (forall net token_id,
      get_order_book net
        (ClobClient_init (CLOB_HTTP_URL sample_env) 137 sample_account
           (Some []) POLY_PROXY (Some (PROXY_WALLET sample_env)))
        token_id
      = get_order_book net
          (ClobClient_init (CLOB_HTTP_URL sample_env) 137 sample_account
             (Some abc_credentials) POLY_PROXY (Some (PROXY_WALLET sample_env)))
          token_id) /\
  (forall order_args,
      create_market_order
        (ClobClient_init (CLOB_HTTP_URL sample_env) 137 sample_account
           (Some []) POLY_PROXY (Some (PROXY_WALLET sample_env)))
        order_args
      = create_market_order
          (ClobClient_init (CLOB_HTTP_URL sample_env) 137 sample_account
             (Some abc_credentials) POLY_PROXY (Some (PROXY_WALLET sample_env)))
          order_args).
Proof.
  apply (operations_ignore_the_credentials
           placeholder_methods (fixed_methods (ret abc_credentials) (ret []))
           (code_world [x60; x80])); reflexivity.
Defined.

(** X12: whenever [create_clob_client] returns a client, its wallet is
    the account built from the private key, its host is the configured
    URL without trailing slashes, its signature type is not empty, its
    proxy wallet is the configured one or none as the classifier
    answered, and its key, secret and passphrase are the entries of its
    [api_creds] under [key], [secret] and [passphrase] ([None] where
    there is none). *)
Theorem returned_client_is_consistent :
  forall (ops : CredentialMethods) (w : World) (c : ClobClient),
    outcome (create_clob_client w) = Return c ->
    from_key w (PRIVATE_KEY (ENV w)) = Return (wallet c) /\
    host c = rstrip (lit "/") (CLOB_HTTP_URL (ENV w)) /\
    signature_type c <> [] /\
    proxy_wallet c
    = (if classified_as_contract w then Some (PROXY_WALLET (ENV w)) else None) /\
    api_key c = get (api_creds c) (lit "key") /\
    api_secret c = get (api_creds c) (lit "secret") /\
    api_passphrase c = get (api_creds c) (lit "passphrase").
Proof.
  intros ops w c Hc.
  destruct (create_clob_client_returned w c Hc) as (a & d & Hk & ->).
  split; [exact Hk|]. split; [reflexivity|]. split.
  - unfold first_client. cbn [signature_type ClobClient_init].
    destruct (getenv w (lit "CLOB_SIGNATURE_TYPE")) as [[|x o]|];
      try discriminate; destruct (classified_as_contract w); discriminate.
  - split; [reflexivity|]. destruct d; repeat split.
Qed.

Lemma returned_client_witness :
  from_key override_world (PRIVATE_KEY (ENV override_world))
  = Return (wallet (first_client override_world sample_account)) /\
  host (first_client override_world sample_account)
  = rstrip (lit "/") (CLOB_HTTP_URL (ENV override_world)) /\
  signature_type (first_client override_world sample_account) <> [] /\
  proxy_wallet (first_client override_world sample_account)
  = (if classified_as_contract override_world
     then Some (PROXY_WALLET (ENV override_world)) else None) /\
  api_key (first_client override_world sample_account)
  = get (api_creds (first_client override_world sample_account)) (lit "key") /\
  api_secret (first_client override_world sample_account)
  = get (api_creds (first_client override_world sample_account)) (lit "secret") /\
  api_passphrase (first_client override_world sample_account)
  = get (api_creds (first_client override_world sample_account))
      (lit "passphrase").
Proof.
  apply (returned_client_is_consistent placeholder_methods override_world).
  reflexivity.
Defined.

(** X13: when the RPC side fails (the address cannot be put in checksum
    form, or the code query raises) and no override is in force, the
    classifier answers [False] and start-up takes the wallet for an
    externally owned account, whatever code the wallet has on chain: a
    client is returned, with signature type EOA and no proxy wallet, so
    that every [post_order] payload has a null [funderAddress]; the error
    is in the log, followed by the line that reports an EOA. *)
Theorem rpc_failure_means_eoa :
  forall (ops : CredentialMethods) (w : World) (account : LocalAccount)
         (e : exn),
    from_key w (PRIVATE_KEY (ENV w)) = Return account ->
    opt_str_truthy (getenv w (lit "CLOB_SIGNATURE_TYPE")) = false ->
    (to_checksum_address w (PROXY_WALLET (ENV w)) = Raise e \/
     exists ca,
       to_checksum_address w (PROXY_WALLET (ENV w)) = Return ca /\
       get_code w (RPC_URL (ENV w)) ca = Raise e) ->
    exists c credential_log,
      create_clob_client w
      = (Return c,
         [(ERROR, lit "Error checking wallet type: " ++ str_of_exn e);
          (INFO, lit "Wallet type detected: EOA (Externally Owned Account)")]
         ++ credential_log) /\
      signature_type c = EOA /\ proxy_wallet c = None /\
      forall signed_order order_type,
        payload_field w c signed_order order_type "funderAddress" = PNone.
Proof.
  intros ops w account e Hkey Hov Hrpc.
  assert (is_contract_wallet w (PROXY_WALLET (ENV w))
          = (Return false,
             [(ERROR, lit "Error checking wallet type: " ++ str_of_exn e)]))
    as Hcls.
  { rewrite is_contract_wallet_cases.
    destruct Hrpc as [->|(ca & -> & ->)]; reflexivity. }
  unfold create_clob_client. rewrite Hkey, bind_lift_return.
  unfold bind at 1. rewrite Hcls.
  assert (resolve_signature_type (getenv w (lit "CLOB_SIGNATURE_TYPE")) false
          = (Return EOA,
             [(INFO, lit "Wallet type detected: EOA (Externally Owned Account)")]))
    as Hty.
  { destruct (getenv w (lit "CLOB_SIGNATURE_TYPE")) as [[|x o]|];
      try discriminate; reflexivity. }
  unfold bind at 1. rewrite Hty.
  destruct (acquire_credentials_returns
              (ClobClient_init (CLOB_HTTP_URL (ENV w)) 137 account None EOA None))
    as (creds & l1 & Hcreds).
  unfold bind at 1. rewrite Hcreds.
  eexists _, l1. split.
  - unfold ret. cbn [fst snd]. rewrite app_nil_r. reflexivity.
  - repeat split.
Qed.

Lemma rpc_failure_witness :
  exists c credential_log,
    @create_clob_client placeholder_methods rpc_down_world
    = (Return c,
       [(ERROR, lit "Error checking wallet type: "
                ++ str_of_exn (Exception "ConnectionError" (lit "timed out")));
        (INFO, lit "Wallet type detected: EOA (Externally Owned Account)")]
       ++ credential_log) /\
    signature_type c = EOA /\ proxy_wallet c = None /\
    forall signed_order order_type,
      payload_field rpc_down_world c signed_order order_type "funderAddress"
      = PNone.
Proof.
  apply (rpc_failure_means_eoa placeholder_methods rpc_down_world
           sample_account).
  - reflexivity.
  - reflexivity.
  - right. exists (PROXY_WALLET (ENV rpc_down_world)). split; reflexivity.
Defined.

(** X14: what start-up logs, and in what order, once the account is
    built: first what the wallet classifier logged (it is asked even when
    the override decides the signature type), then one INFO line, on the
    override when it is in force and on the wallet type detected
    otherwise, then what the credential step logged. *)
Theorem start_up_log :
  forall (ops : CredentialMethods) (w : World) (account : LocalAccount),
    from_key w (PRIVATE_KEY (ENV w)) = Return account ->
    logged (create_clob_client w)
    = logged (is_contract_wallet w (PROXY_WALLET (ENV w)))
      ++ [(INFO,
           match getenv w (lit "CLOB_SIGNATURE_TYPE") with
           | Some (x :: o) => lit "Using CLOB_SIGNATURE_TYPE override: " ++ x :: o
           | _ =>
             lit "Wallet type detected: "
             ++ (if classified_as_contract w
                 then lit "Contract (POLY_PROXY)"
                 else lit "EOA (Externally Owned Account)")
           end)]
      ++ logged (acquire_credentials (first_client w account)).
Proof.
  intros ops w account Hkey.
  unfold create_clob_client. rewrite Hkey, bind_lift_return.
  unfold first_client, classified_as_contract.
  destruct (is_contract_wallet_returns w (PROXY_WALLET (ENV w))) as (b & lb & Hb).
  rewrite Hb. cbn [outcome logged fst snd].
  unfold bind at 1.
  set (ty := match getenv w (lit "CLOB_SIGNATURE_TYPE") with
             | Some (c :: t) => c :: t
             | _ => if b then POLY_PROXY else EOA
             end).
  set (line := match getenv w (lit "CLOB_SIGNATURE_TYPE") with
               | Some (x :: o) =>
                 lit "Using CLOB_SIGNATURE_TYPE override: " ++ x :: o
               | _ =>
                 lit "Wallet type detected: "
                 ++ (if b then lit "Contract (POLY_PROXY)"
                     else lit "EOA (Externally Owned Account)")
               end).
  assert (resolve_signature_type (getenv w (lit "CLOB_SIGNATURE_TYPE")) b
          = (Return ty, [(INFO, line)])) as Hty.
  { unfold ty, line.
    destruct (getenv w (lit "CLOB_SIGNATURE_TYPE")) as [[|c o]|];
      destruct b; reflexivity. }
  unfold bind at 1. rewrite Hty.
  destruct (acquire_credentials_returns
              (ClobClient_init (CLOB_HTTP_URL (ENV w)) 137 account None ty
                 (if b then Some (PROXY_WALLET (ENV w)) else None)))
    as (creds & l1 & Hcreds).
  unfold bind at 1. rewrite Hcreds.
  unfold ret. cbn [fst snd]. rewrite app_nil_r. reflexivity.
Qed.

Lemma start_up_log_witness :
  logged (@create_clob_client (fixed_methods (raise api_down) (ret []))
            rpc_down_world)
  = logged (is_contract_wallet rpc_down_world
              (PROXY_WALLET (ENV rpc_down_world)))
    ++ [(INFO,
         match getenv rpc_down_world (lit "CLOB_SIGNATURE_TYPE") with
         | Some (x :: o) => lit "Using CLOB_SIGNATURE_TYPE override: " ++ x :: o
         | _ =>
           lit "Wallet type detected: "
           ++ (if classified_as_contract rpc_down_world
               then lit "Contract (POLY_PROXY)"
               else lit "EOA (Externally Owned Account)")
         end)]
    ++ logged (@acquire_credentials (fixed_methods (raise api_down) (ret []))
                 (first_client rpc_down_world sample_account)).
Proof.
  apply (start_up_log (fixed_methods (raise api_down) (ret [])) rpc_down_world
           sample_account).
  reflexivity.
Defined.

(** ** Orders *)

Lemma post_order_args_some (d : dict) :
  post_order_args (Some d)
  = PDict [(lit "side", get d (lit "side"));
           (lit "tokenID", py_or (get d (lit "tokenID")) (get d (lit "tokenId")));
           (lit "amount", get d (lit "amount"));
           (lit "price", get d (lit "price"))].
Proof. destruct d; reflexivity. Qed.

(** X15: an order that went through [create_market_order] is posted with
    the side, amount and price it had, and with its token when that was
    given under [tokenID] with a truthy value; a token given under the
    other spelling, [tokenId], is lost on the way, and the order is then
    posted without a token.  Only [side], [tokenID], [amount] and [price]
    survive, so a second pass changes nothing. *)
Theorem market_order_then_post :
  forall (self : ClobClient) (order_args : dict),
    exists order : dict,
      create_market_order self order_args = ret (PDict order) /\
      create_market_order self order = ret (PDict order) /\
      order_field (Some order) "side" = get order_args (lit "side") /\
      order_field (Some order) "amount" = get order_args (lit "amount") /\
      order_field (Some order) "price" = get order_args (lit "price") /\
      order_field (Some order) "tokenID"
      = (if truthy (get order_args (lit "tokenID"))
         then get order_args (lit "tokenID") else PNone) /\
      (truthy (get order_args (lit "tokenID")) = true ->
       forall w order_type,
         post_order w self (Some order) order_type
         = post_order w self (Some order_args) order_type).
Proof.
  intros self order_args. eexists. split; [reflexivity|].
  split; [reflexivity|]. split; [reflexivity|]. split; [reflexivity|].
  split; [reflexivity|]. split.
  - unfold order_field. rewrite post_order_args_some.
    set (tok := get order_args (lit "tokenID")).
    set (side := get order_args (lit "side")).
    set (amount := get order_args (lit "amount")).
    set (price := get order_args (lit "price")).
    cbn. unfold py_or. destruct (truthy tok); reflexivity.
  - intros Htok w order_type. unfold post_order, post_order_payload.
    rewrite !post_order_args_some.
    set (tok := get order_args (lit "tokenID")) in *.
    set (side := get order_args (lit "side")).
    set (amount := get order_args (lit "amount")).
    set (price := get order_args (lit "price")).
    set (tok' := get order_args (lit "tokenId")).
    cbn. unfold py_or. rewrite Htok. reflexivity.
Qed.
